(** * lamb: a shallow embedding of the template engine

    The development follows the Go packages of the repository:
    [token], [lexer], [ast], [parser], [object], [evaluator] and
    [internal] (the loader).  Go's [int] is taken to be 64 bits wide and is
    modelled as [Z] with the wrap-around written out; Go strings are byte
    strings and are modelled by [string]; Go maps keyed by strings are
    [gmap string _]. *)

From Stdlib Require Import ZArith String Ascii List Bool Lia.
From stdpp Require Import base option list gmap strings pretty.

Local Open Scope Z_scope.

(** ** Outcomes of running Go code

    A Go function either returns, or panics at run time; the message of a
    [Panic] names the kind of panic.  The recursion of the parser and of
    the evaluator is not structural, so both are defined with a fuel
    argument; [OutOfFuel] is the model's own outcome and never stands for a
    behaviour of the program. *)

Inductive Outcome (A : Type) : Type :=
| Ok (a : A)
| Panic (msg : string)
| OutOfFuel.

Arguments Ok {A} a.
Arguments Panic {A} msg.
Arguments OutOfFuel {A}.

Definition obind {A B : Type} (c : Outcome A) (k : A -> Outcome B) : Outcome B :=
  match c with
  | Ok a => k a
  | Panic m => Panic m
  | OutOfFuel => OutOfFuel
  end.

Notation "x <- c ;; k" := (obind c (fun x => k))
  (at level 20, c at level 99, k at level 200, only parsing).
Notation "' pat <- c ;; k" := (obind c (fun x => match x with pat => k end))
  (at level 20, pat pattern, c at level 99, k at level 200, only parsing).

(** ** Bytes and strings *)

Definition NUL : ascii := "000"%char.
Definition LF : ascii := "010"%char.
Definition TAB : ascii := "009"%char.
Definition CR : ascii := "013"%char.
Definition SPACE : ascii := " "%char.
Definition DQUOTE : ascii := "034"%char.
Definition SQUOTE : ascii := "039"%char.

Definition str1 (c : ascii) : string := String c EmptyString.
Definition dq : string := str1 DQUOTE.

(** Go's conversion [string(b)] of a byte [b]: the UTF-8 encoding of the
    code point [b], one byte below 128 and two bytes from 128 on. *)
Definition string_of_byte (c : ascii) : string :=
  let n := nat_of_ascii c in
  if (n <? 128)%nat then str1 c
  else String (ascii_of_nat (192 + n / 64))
         (String (ascii_of_nat (128 + n mod 64)) EmptyString).

(** [s[i]] for an index inside the string, [NUL] otherwise (the lexer only
    indexes after checking the bound). *)
Definition byte_at (s : string) (i : nat) : ascii :=
  match String.get i s with Some c => c | None => NUL end.

(** Go's [s[lo:hi]]. *)
Definition slice (s : string) (lo hi : nat) : string :=
  String.substring lo (hi - lo) s.

(** [%d] of an integer. *)
Definition fmt_d (n : Z) : string := pretty n.

(** [%q] of a string without quotes, backslashes or control bytes. *)
Definition fmt_q (s : string) : string := dq +:+ s +:+ dq.

(** ** package token *)

Module token.

Inductive TokenType : Type :=
| NOTYPE (* the zero value of a Go string *)
| ILLEGAL | EOF | EOC
| IDENT | INT | STRING | HTML
| ASSIGN | PLUS | MINUS | BANG | ASTERISK | SLASH
| LT | GT | EQ | NOT_EQ
| COMMA | SEMICOLON | COLON | DOT
| LPAREN | RPAREN | LBRACE | RBRACE | LBRACKET | RBRACKET
| VAR | TRUE | FALSE | IF | ELSE | ENDIF | FOR | ENDFOR | IN
| EXTENDS | SECTION | ENDSECTION | DEFINE | END | INCLUDE | AND.

#[global] Instance TokenType_eq_dec : EqDecision TokenType.
Proof. solve_decision. Defined.

(** The string a [TokenType] is in Go. *)
Definition type_string (t : TokenType) : string :=
  match t with
  | NOTYPE => EmptyString
  | ILLEGAL => "ILLEGAL" | EOF => "EOF" | EOC => "EOC"
  | IDENT => "IDENT" | INT => "INT" | STRING => "STRING" | HTML => "HTML"
  | ASSIGN => "=" | PLUS => "+" | MINUS => "-" | BANG => "!"
  | ASTERISK => "*" | SLASH => "/"
  | LT => "<" | GT => ">" | EQ => "==" | NOT_EQ => "!="
  | COMMA => "," | SEMICOLON => ";" | COLON => ":" | DOT => "."
  | LPAREN => "(" | RPAREN => ")" | LBRACE => "{" | RBRACE => "}"
  | LBRACKET => "[" | RBRACKET => "]"
  | VAR => "var" | TRUE => "true" | FALSE => "false" | IF => "if"
  | ELSE => "else" | ENDIF => "endif" | FOR => "for" | ENDFOR => "endfor"
  | IN => "in" | EXTENDS => "extends" | SECTION => "section"
  | ENDSECTION => "endsection" | DEFINE => "define" | END => "end"
  | INCLUDE => "include" | AND => "and"
  end.

Record Token : Type := mkToken {
  Type_ : TokenType;
  Literal : string;
  Col : Z;
  Line : Z
}.

(** [var tok token.Token]: every field at its zero value. *)
Definition zero : Token := mkToken NOTYPE EmptyString 0 0.

Definition keywords : list (string * TokenType) :=
  [ ("var", VAR); ("true", TRUE); ("false", FALSE); ("if", IF);
    ("else", ELSE); ("endif", ENDIF); ("for", FOR); ("endfor", ENDFOR);
    ("in", IN); ("extends", EXTENDS); ("section", SECTION);
    ("endsection", ENDSECTION); ("define", DEFINE); ("end", END);
    ("include", INCLUDE); ("and", AND) ]%string.

Fixpoint assoc {V : Type} (k : string) (l : list (string * V)) : option V :=
  match l with
  | [] => None
  | (k', v) :: l' => if String.eqb k k' then Some v else assoc k l'
  end.

Definition LookUpIdent (ident : string) : TokenType :=
  match assoc ident keywords with
  | Some tok => tok
  | None => IDENT
  end.

End token.

Import token.

(** ** package lexer *)

Module lexer.

Record Lexer : Type := mkLexer {
  input : string;
  position : nat;
  readPosition : nat;
  Line : Z;
  Column : Z;
  ch : ascii;
  inCode : bool
}.

Definition readChar (l : Lexer) : Lexer :=
  if (String.length (input l) <=? readPosition l)%nat then
    mkLexer (input l) (position l) (readPosition l) (Line l)
            (if Column l =? 0 then 1 else Column l) NUL (inCode l)
  else
    let c := byte_at (input l) (readPosition l) in
    let col := Column l + 1 in
    let '(line, col) :=
      if Ascii.eqb c LF then (Line l + 1, 0)
      else if Ascii.eqb c TAB then (Line l, col + 3)
      else (Line l, col) in
    mkLexer (input l) (readPosition l) (S (readPosition l)) line col c (inCode l).

Definition New (inp : string) : Lexer :=
  readChar (mkLexer inp 0 0 1 0 NUL false).

Definition peekChar (l : Lexer) : ascii :=
  if (String.length (input l) <=? readPosition l)%nat then NUL
  else byte_at (input l) (readPosition l).

Definition set_inCode (b : bool) (l : Lexer) : Lexer :=
  mkLexer (input l) (position l) (readPosition l) (Line l) (Column l) (ch l) b.

Definition between (lo c hi : ascii) : bool :=
  ((nat_of_ascii lo <=? nat_of_ascii c) && (nat_of_ascii c <=? nat_of_ascii hi))%nat.

Definition isLetter (c : ascii) : bool :=
  between "a" c "z" || between "A" c "Z" || Ascii.eqb c "_".

Definition isDigit (c : ascii) : bool := between "0" c "9".

Definition isSpace (c : ascii) : bool :=
  Ascii.eqb c SPACE || Ascii.eqb c TAB || Ascii.eqb c LF || Ascii.eqb c CR.

(** [for cond(l.ch) { l.readChar() }].  Once the input is exhausted [ch]
    is [NUL], on which none of the conditions used below holds, so
    [rounds] rounds always suffice ([lexer_loops_terminate] below). *)
Fixpoint readWhile (n : nat) (cond : ascii -> bool) (l : Lexer) : Lexer :=
  match n with
  | O => l
  | S n' => if cond (ch l) then readWhile n' cond (readChar l) else l
  end.

Definition rounds (l : Lexer) : nat := String.length (input l) + 2.

Definition skipWhitespace (l : Lexer) : Lexer := readWhile (rounds l) isSpace l.

Definition readIdentifier (l : Lexer) : string * Lexer :=
  let pos := position l in
  let l' := readWhile (rounds l) isLetter l in
  (slice (input l') pos (position l'), l').

Definition readNumber (l : Lexer) : string * Lexer :=
  let pos := position l in
  let l' := readWhile (rounds l) isDigit l in
  (slice (input l') pos (position l'), l').

Definition newToken (l : Lexer) (tokenType : TokenType) (c : ascii) : Token :=
  mkToken tokenType (string_of_byte c) (Column l) (Line l).

(** [for { l.readChar(); if l.ch == char || l.ch == 0 { break } }] *)
Fixpoint readUntil (n : nat) (char : ascii) (l : Lexer) : Lexer :=
  match n with
  | O => l
  | S n' =>
      let l' := readChar l in
      if Ascii.eqb (ch l') char || Ascii.eqb (ch l') NUL then l'
      else readUntil n' char l'
  end.

Definition readString (char : ascii) (l : Lexer) : Token * Lexer :=
  let col := Column l in
  let line := Line l in
  let position_ := S (position l) in
  let l' := readUntil (rounds l) char l in
  (mkToken STRING (slice (input l') (position_ - 1) (position l' + 1)) col line, l').

(** [for { if l.ch == '#' || l.ch == 0 { l.readChar(); break }; l.readChar() }] *)
Fixpoint commentLoop (n : nat) (l : Lexer) : Lexer :=
  match n with
  | O => l
  | S n' =>
      if Ascii.eqb (ch l) "#" || Ascii.eqb (ch l) NUL then readChar l
      else commentLoop n' (readChar l)
  end.

Definition readComment (l : Lexer) : Lexer := commentLoop (rounds l) (readChar l).

(** The first branch of [NextToken], taken in HTML mode before the end of
    the input: a byte of HTML becomes a token ([inl]); on the opening [{?]
    the lexer enters code mode and goes on ([inr], as when the branch is not
    taken). *)
Definition htmlToken (l : Lexer) : (Token * Lexer) + Lexer :=
  if negb (inCode l) && negb (Ascii.eqb (ch l) NUL) then
    if Ascii.eqb (ch l) "{" && Ascii.eqb (peekChar l) "?" then
      inr (readChar (readChar (set_inCode true l)))
    else
      inl (mkToken HTML (string_of_byte (ch l)) (Column l) (Line l),
           readChar l)
  else inr l.

(** The body of [NextToken]; [again] is [NextToken] itself, called after a
    comment has been skipped. *)
Definition tokenStep (again : Lexer -> Token * Lexer) (l : Lexer)
    : Token * Lexer :=
  match htmlToken l with
  | inl r => r
  | inr l =>
  let l := skipWhitespace l in
  if Ascii.eqb (ch l) "?" && Ascii.eqb (peekChar l) "}" then
    let l := readChar (readChar (set_inCode false l)) in
    (mkToken EOC EmptyString (Column l) (Line l), l)
  else
    let simple (t : TokenType) := (newToken l t (ch l), readChar l) in
    let c := ch l in
    if Ascii.eqb c "=" then
      if Ascii.eqb (peekChar l) "=" then
        let l' := readChar l in
        (mkToken EQ (string_of_byte c +:+ string_of_byte (ch l')) 0 0,
         readChar l')
      else simple ASSIGN
    else if Ascii.eqb c "+" then simple PLUS
    else if Ascii.eqb c "-" then simple MINUS
    else if Ascii.eqb c "!" then
      if Ascii.eqb (peekChar l) "=" then
        let l' := readChar l in
        (mkToken NOT_EQ (string_of_byte c +:+ string_of_byte (ch l')) 0 0,
         readChar l')
      else simple BANG
    else if Ascii.eqb c "*" then simple ASTERISK
    else if Ascii.eqb c "/" then simple SLASH
    else if Ascii.eqb c "<" then simple LT
    else if Ascii.eqb c ">" then simple GT
    else if Ascii.eqb c ";" then simple SEMICOLON
    else if Ascii.eqb c "(" then simple LPAREN
    else if Ascii.eqb c ")" then simple RPAREN
    else if Ascii.eqb c "," then simple COMMA
    else if Ascii.eqb c "{" then simple LBRACE
    else if Ascii.eqb c "}" then simple RBRACE
    else if Ascii.eqb c DQUOTE then
      let '(tok, l') := readString DQUOTE l in (tok, readChar l')
    else if Ascii.eqb c SQUOTE then
      let '(tok, l') := readString SQUOTE l in (tok, readChar l')
    else if Ascii.eqb c "[" then simple LBRACKET
    else if Ascii.eqb c "]" then simple RBRACKET
    else if Ascii.eqb c ":" then simple COLON
    else if Ascii.eqb c "." then simple DOT
    else if Ascii.eqb c "#" then again (readComment l)
    else if Ascii.eqb c NUL then
      (mkToken EOF EmptyString (Column l) (Line l), readChar l)
    else if isLetter c then
      let col := Column l in
      let line := Line l in
      let '(lit, l') := readIdentifier l in
      (mkToken (LookUpIdent lit) lit col line, l')
    else if isDigit c then
      let col := Column l in
      let line := Line l in
      let '(lit, l') := readNumber l in
      (mkToken INT lit col line, l')
    else simple ILLEGAL
  end.

(** [NextToken] with a bound [n] on the comments it skips: a comment
    consumes at least its opening [#], so [rounds] always suffices
    ([lexer_loops_terminate] below). *)
Fixpoint codeToken (n : nat) (l : Lexer) : Token * Lexer :=
  tokenStep (match n with
             | O => fun l' => (token.zero, l')
             | S n' => codeToken n'
             end) l.

Definition NextToken (l : Lexer) : Token * Lexer := codeToken (rounds l) l.

(** The first [n] tokens of an input. *)
Fixpoint tokens (n : nat) (l : Lexer) : list Token :=
  match n with
  | O => []
  | S n' => let '(t, l') := NextToken l in t :: tokens n' l'
  end.

End lexer.

(** ** package ast *)

Module ast.

(** [ast.Identifier], used by value in [VarStatement] and [DotExpression]. *)
Record Ident : Type := mkIdent { ident_Token : Token; ident_Value : string }.

(** Every implementation of [ast.Node].  [NilNode] is the nil interface,
    [NilVarStatement] the nil [*VarStatement] that [parseStatement] wraps
    into a non-nil interface when [parseVarStatement] fails.  Fields of type
    [*BlockStatement] are [Block]s; [option] marks the one the code tests
    against nil.  [MapLiteral.Pairs] is keyed by node identity, so it holds
    one entry per parsed pair; Go ranges over it in an unspecified order,
    the model in the order of parsing. *)
#[local] Unset Elimination Schemes.

Inductive Node : Type :=
| NilNode
| NilVarStatement
| Program (Statements : list Node)
| VarStatement (tok : Token) (Name : Ident) (Value : Node)
| Identifier (i : Ident)
| ExpressionStatement (tok : Token) (Expression : Node)
| IntegerLiteral (tok : Token) (Value : Z)
| PrefixExpression (tok : Token) (Operator : string) (Right : Node)
| InfixExpression (tok : Token) (Left : Node) (Operator : string) (Right : Node)
| Boolean (tok : Token) (Value : bool)
| IfExpression (tok : Token) (Condition : Node) (Consequence : Block)
               (Alternative : option Block)
| BlockStatement (b : Block)
| CallExpression (tok : Token) (Function : Node) (Arguments : list Node)
| StringLiteral (tok : Token) (Value : string) (Closed : bool)
| ArrayLiteral (tok : Token) (Elements : list Node)
| IndexExpression (tok : Token) (Left : Node) (Index : Node)
| MapLiteral (tok : Token) (Pairs : list (Node * Node))
| ForExpression (tok : Token) (Key : string) (Value : string) (In : Node)
                (Block_ : Block)
| ExtendsStatement (tok : Token) (From : string)
| SectionStatement (tok : Token) (Block_ : Block) (Name : string)
| DefineStatement (tok : Token) (Name : string) (Content : Block)
| DotExpression (tok : Token) (Left : Ident) (Right : Ident)
| IncludeStatement (tok : Token) (File : string) (Vars : Node)
| HtmlLiteral (tok : Token) (Value : string)
with Block : Type :=
| mkBlock (tok : Token) (Statements : list Node).

#[local] Set Elimination Schemes.

Definition join (sep : string) (l : list string) : string :=
  String.concat sep l.

(** The [String] methods.  Calling a method on a nil node panics. *)
Fixpoint String_ (n : Node) : Outcome string :=
  let strings :=
    fix strings (l : list Node) : Outcome (list string) :=
      match l with
      | [] => Ok []
      | e :: l' => s <- String_ e;; r <- strings l';; Ok (s :: r)
      end in
  let concat_all (l : list Node) : Outcome string :=
    ss <- strings l;; Ok (join EmptyString ss) in
  match n with
  | NilNode | NilVarStatement => Panic "nil pointer dereference"
  | Program stmts => concat_all stmts
  | VarStatement tok name value =>
      v <- (match value with NilNode => Ok EmptyString | _ => String_ value end);;
      Ok (Literal tok +:+ " " +:+ ident_Value name +:+ " = " +:+ v)
  | Identifier i => Ok (ident_Value i)
  | ExpressionStatement _ e =>
      match e with NilNode => Ok EmptyString | _ => String_ e end
  | IntegerLiteral tok _ => Ok (Literal tok)
  | PrefixExpression _ op r =>
      s <- String_ r;; Ok ("(" +:+ op +:+ s +:+ ")")
  | InfixExpression _ l op r =>
      a <- String_ l;; b <- String_ r;;
      Ok ("(" +:+ a +:+ " " +:+ op +:+ " " +:+ b +:+ ")")
  | Boolean tok _ => Ok (Literal tok)
  | IfExpression _ c _ alt =>
      a <- String_ c;;
      b <- (match alt with
            | Some (mkBlock _ stmts) => s <- concat_all stmts;; Ok ("else " +:+ s)
            | None => Ok EmptyString
            end);;
      Ok ("if(" +:+ a +:+ ") " +:+ b)
  | BlockStatement (mkBlock _ stmts) => concat_all stmts
  | CallExpression _ f args =>
      ss <- strings args;; a <- String_ f;;
      Ok (a +:+ "(" +:+ join ", " ss +:+ ")")
  | StringLiteral tok _ _ => Ok (Literal tok)
  | ArrayLiteral _ elems =>
      ss <- strings elems;; Ok ("[" +:+ join ", " ss +:+ "]")
  | IndexExpression _ l i =>
      a <- String_ l;; b <- String_ i;; Ok ("(" +:+ a +:+ "[" +:+ b +:+ "])")
  | MapLiteral _ pairs =>
      ss <- (fix go (l : list (Node * Node)) : Outcome (list string) :=
               match l with
               | [] => Ok []
               | (k, v) :: l' =>
                   a <- String_ k;; b <- String_ v;; r <- go l';;
                   Ok ((a +:+ ":" +:+ b) :: r)
               end) pairs;;
      Ok ("{" +:+ join ", " ss +:+ "}")
  | ForExpression _ _ _ i _ => s <- String_ i;; Ok ("for " +:+ s)
  | ExtendsStatement _ from => Ok ("extends(" +:+ from +:+ ")")
  | SectionStatement _ _ name => Ok ("section(" +:+ name +:+ ")")
  | DefineStatement _ name _ => Ok ("define(" +:+ name +:+ ")")
  | DotExpression _ l r => Ok (ident_Value l +:+ "." +:+ ident_Value r)
  | IncludeStatement _ file vars =>
      v <- (match vars with
            | NilNode => Ok EmptyString
            | _ => s <- String_ vars;; Ok (", " +:+ s)
            end);;
      Ok ("include(" +:+ file +:+ v +:+ ")")
  | HtmlLiteral tok _ => Ok (Literal tok)
  end.

(** [TokenLiteral]: the literal of the anchor token. *)
Fixpoint TokenLiteral (n : Node) : Outcome string :=
  match n with
  | NilNode | NilVarStatement => Panic "nil pointer dereference"
  | Program [] => Ok EmptyString
  | Program (s :: _) => TokenLiteral s
  | VarStatement tok _ _ | ExpressionStatement tok _ | IntegerLiteral tok _
  | PrefixExpression tok _ _ | InfixExpression tok _ _ _ | Boolean tok _
  | IfExpression tok _ _ _ | BlockStatement (mkBlock tok _)
  | CallExpression tok _ _ | StringLiteral tok _ _ | ArrayLiteral tok _
  | IndexExpression tok _ _ | MapLiteral tok _ | ForExpression tok _ _ _ _
  | ExtendsStatement tok _ | SectionStatement tok _ _ | DefineStatement tok _ _
  | DotExpression tok _ _ | IncludeStatement tok _ _ | HtmlLiteral tok _ =>
      Ok (Literal tok)
  | Identifier i => Ok (Literal (ident_Token i))
  end.

End ast.

(** ** package parser *)

Module parser.

Import lexer ast.

(** The precedence levels ([iota] starts at 1 for [LOWEST]). *)
Definition LOWEST : Z := 1.
Definition EQUALS : Z := 2.
Definition LESSGREATER : Z := 3.
Definition SUM : Z := 4.
Definition PRODUCT : Z := 5.
Definition PREFIX : Z := 6.
Definition CALL : Z := 7.
Definition INDEX : Z := 8.
Definition IN_ : Z := 9.
Definition DOT_ : Z := 10.
Definition AND_ : Z := 11.

Definition precedences (t : TokenType) : option Z :=
  match t with
  | EQ | NOT_EQ => Some EQUALS
  | LT | GT => Some LESSGREATER
  | PLUS | MINUS => Some SUM
  | SLASH | ASTERISK => Some PRODUCT
  | LPAREN => Some CALL
  | LBRACKET => Some INDEX
  | DOT => Some DOT_
  | AND => Some AND_
  | _ => None
  end.

Record Parser : Type := mkParser {
  l : Lexer;
  errors : list string;
  curToken : Token;
  peekToken : Token
}.

Definition nextToken (p : Parser) : Parser :=
  let '(t, l') := NextToken (l p) in
  mkParser l' (errors p) (peekToken p) t.

Definition New (lx : Lexer) : Parser :=
  nextToken (nextToken (mkParser lx [] token.zero token.zero)).

Definition addError (msg : string) (p : Parser) : Parser :=
  mkParser (l p) (errors p ++ [msg]) (curToken p) (peekToken p).

Definition peekError (t : TokenType) (p : Parser) : Parser :=
  addError (fmt_d (lexer.Line (l p)) +:+ ":" +:+ fmt_d (Column (l p))
            +:+ ": expected new token to be " +:+ type_string t
            +:+ ", but got " +:+ type_string (Type_ (peekToken p))
            +:+ " instead") p.

Definition lastTokenError (t : TokenType) (got : string) (p : Parser) : Parser :=
  addError (fmt_d (lexer.Line (l p)) +:+ ": " +:+ fmt_d (Column (l p))
            +:+ ": expected past token to be " +:+ type_string t
            +:+ ", but got " +:+ got +:+ " instead") p.

Definition noPrefixParseFnError (t : Token) (p : Parser) : Parser :=
  addError (fmt_d (token.Line t) +:+ ":" +:+ fmt_d (Col t)
            +:+ ": unexpected token " +:+ fmt_q (type_string (Type_ t))) p.

Definition curTokenIs (t : TokenType) (p : Parser) : bool :=
  bool_decide (Type_ (curToken p) = t).

Definition peekTokenIs (t : TokenType) (p : Parser) : bool :=
  bool_decide (Type_ (peekToken p) = t).

Definition expectPeek (t : TokenType) (p : Parser) : bool * Parser :=
  if peekTokenIs t p then (true, nextToken p) else (false, peekError t p).

Definition peekPrecedence (p : Parser) : Z :=
  match precedences (Type_ (peekToken p)) with Some q => q | None => LOWEST end.

Definition curPrecedence (p : Parser) : Z :=
  match precedences (Type_ (curToken p)) with Some q => q | None => LOWEST end.

(** [strconv.ParseInt(s, 0, 64)] on a run of decimal digits: a leading [0]
    selects base 8, the empty string and a digit outside the base are syntax
    errors, a value above [2^63 - 1] is a range error. *)
Definition digit_val (c : ascii) : Z := Z.of_nat (nat_of_ascii c) - 48.

Fixpoint digits (base : Z) (acc : Z) (s : string) : option Z :=
  match s with
  | EmptyString => Some acc
  | String c s' =>
      if isDigit c && (digit_val c <? base)
      then digits base (base * acc + digit_val c) s'
      else None
  end.

Definition max_int64 : Z := 9223372036854775807.

Definition ParseInt0 (s : string) : option Z :=
  match s with
  | EmptyString => None
  | String c s' =>
      let r := if Ascii.eqb c "0" then digits 8 0 s' else digits 10 0 s in
      match r with
      | Some n => if n <=? max_int64 then Some n else None
      | None => None
      end
  end.

Definition PResult : Type := Outcome (Node * Parser).

Definition parseIdentifier (p : Parser) : PResult :=
  Ok (Identifier (mkIdent (curToken p) (Literal (curToken p))), p).

Definition parseIntegerLiteral (p : Parser) : PResult :=
  match ParseInt0 (Literal (curToken p)) with
  | None =>
      Ok (NilNode,
          addError (fmt_d (lexer.Line (l p)) +:+ ":" +:+ fmt_d (Column (l p))
                    +:+ ": could not parse " +:+ fmt_q (Literal (curToken p))
                    +:+ " as integer") p)
  | Some value => Ok (IntegerLiteral (curToken p) value, p)
  end.

Definition parseBoolean (p : Parser) : PResult :=
  Ok (Boolean (curToken p) (curTokenIs TRUE p), p).

(** The three parselets below build a [StringLiteral] from a composite
    literal that names [Token] and [Value] only: [Closed] keeps Go's zero
    value, [false]. *)
Definition parseStringLiteral (p : Parser) : PResult :=
  Ok (StringLiteral (curToken p) (Literal (curToken p)) false, p).

Definition parseHtml (p : Parser) : PResult :=
  Ok (StringLiteral (curToken p) (Literal (curToken p)) false, p).

Definition parseEndOfCode (p : Parser) : PResult :=
  Ok (StringLiteral (curToken p) (Literal (curToken p)) false, p).

Definition parseExtendsExpression (p : Parser) : PResult :=
  let tok := curToken p in
  let '(ok, p) := expectPeek LPAREN p in
  if negb ok then Ok (NilNode, p) else
  let '(ok, p) := expectPeek STRING p in
  if negb ok then Ok (NilNode, p) else
  let from := Literal (curToken p) in
  let '(ok, p) := expectPeek RPAREN p in
  if negb ok then Ok (NilNode, p) else
  let '(ok, p) := expectPeek EOC p in
  if negb ok then Ok (NilNode, p) else
  Ok (ExtendsStatement tok from, p).

Section Parselets.

(** [parseExpression], for the recursive calls, and the number of rounds
    left for the loops. *)
Variable parseExpression : Z -> Parser -> PResult.
Variable rounds : nat.

Definition parseVarStatement (p : Parser) : Outcome (option Node * Parser) :=
  let tok := curToken p in
  let '(ok, p) := expectPeek IDENT p in
  if negb ok then Ok (None, p) else
  let name := mkIdent (curToken p) (Literal (curToken p)) in
  let '(ok, p) := expectPeek ASSIGN p in
  if negb ok then Ok (None, p) else
  let p := nextToken p in
  '(value, p) <- parseExpression LOWEST p;;
  let p := if peekTokenIs SEMICOLON p then nextToken p else p in
  Ok (Some (VarStatement tok name value), p).

Definition parseExpressionStatement (p : Parser) : PResult :=
  let tok := curToken p in
  '(e, p) <- parseExpression LOWEST p;;
  let p := if peekTokenIs SEMICOLON p then nextToken p else p in
  Ok (ExpressionStatement tok e, p).

(** [parseStatement] returns the interface [ast.Statement]: a nil
    [*VarStatement] becomes a non-nil interface value. *)
Definition parseStatement (p : Parser) : PResult :=
  match Type_ (curToken p) with
  | VAR =>
      '(r, p) <- parseVarStatement p;;
      Ok (match r with Some s => s | None => NilVarStatement end, p)
  | _ => parseExpressionStatement p
  end.

Definition is_nil (n : Node) : bool :=
  match n with NilNode => true | _ => false end.

Definition inLimits (limits : list TokenType) (t : TokenType) : bool :=
  bool_decide (t ∈ limits).

Fixpoint blockLoop (n : nat) (limits : list TokenType) (stmts : list Node)
    (p : Parser) : Outcome (list Node * Parser) :=
  match n with
  | O => OutOfFuel
  | S n' =>
      if curTokenIs EOF p then Ok (stmts, p)
      else if inLimits limits (Type_ (curToken p)) then Ok (stmts, p)
      else
        '(stmt, p) <- parseStatement p;;
        let stmts := if is_nil stmt then stmts else stmts ++ [stmt] in
        blockLoop n' limits stmts (nextToken p)
  end.

(** When the block ends outside its terminators, Go reports the first
    terminator that ranging over the set [limits] yields (any of them); the
    model takes the first of the list. *)
Definition parseBlockStatement (limits : list TokenType) (p : Parser)
    : Outcome (Block * Parser) :=
  let tok := curToken p in
  let p := nextToken p in
  '(stmts, p) <- blockLoop rounds limits [] p;;
  let p :=
    if inLimits limits (Type_ (curToken p)) then p
    else match limits with
         | t :: _ => peekError t p
         | [] => p
         end in
  Ok (mkBlock tok stmts, p).

Definition parsePrefixExpression (p : Parser) : PResult :=
  let tok := curToken p in
  let p := nextToken p in
  '(right_, p) <- parseExpression PREFIX p;;
  Ok (PrefixExpression tok (Literal tok) right_, p).

Definition parseInfixExpression (left : Node) (p : Parser) : PResult :=
  let tok := curToken p in
  let precedence := curPrecedence p in
  let p := nextToken p in
  '(right_, p) <- parseExpression precedence p;;
  Ok (InfixExpression tok left (Literal tok) right_, p).

Definition parseAndExpression (left : Node) (p : Parser) : PResult :=
  let tok := curToken p in
  let p := nextToken p in
  '(right_, p) <- parseExpression LOWEST p;;
  Ok (InfixExpression tok left (Literal tok) right_, p).

Definition parseGroupedExpression (p : Parser) : PResult :=
  let p := nextToken p in
  '(exp, p) <- parseExpression LOWEST p;;
  let '(ok, p) := expectPeek RPAREN p in
  if negb ok then Ok (NilNode, p) else Ok (exp, p).

Definition parseIfExpression (p : Parser) : PResult :=
  let tok := curToken p in
  let p := nextToken p in
  '(condition, p) <- parseExpression LOWEST p;;
  let '(ok, p) := expectPeek EOC p in
  if negb ok then Ok (NilNode, p) else
  '(consequence, p) <- parseBlockStatement [ENDIF; ELSE] p;;
  if curTokenIs ELSE p then
    let '(ok, p) := expectPeek EOC p in
    if negb ok then Ok (NilNode, p) else
    '(alternative, p) <- parseBlockStatement [ENDIF] p;;
    Ok (IfExpression tok condition consequence (Some alternative), p)
  else Ok (IfExpression tok condition consequence None, p).

(** [for p.peekTokenIs(token.COMMA) { ... }] of [parseExpressionList]. *)
Fixpoint listLoop (n : nat) (list_ : list Node) (p : Parser)
    : Outcome (list Node * Parser) :=
  match n with
  | O => OutOfFuel
  | S n' =>
      if peekTokenIs COMMA p then
        let p := nextToken (nextToken p) in
        '(e, p) <- parseExpression LOWEST p;;
        listLoop n' (list_ ++ [e]) p
      else Ok (list_, p)
  end.

(** The result is a slice: nil on failure, which the callers treat as the
    empty slice. *)
Definition parseExpressionList (end_ : TokenType) (p : Parser)
    : Outcome (list Node * Parser) :=
  if peekTokenIs end_ p then Ok ([], nextToken p) else
  let p := nextToken p in
  '(e, p) <- parseExpression LOWEST p;;
  '(list_, p) <- listLoop rounds [e] p;;
  let '(ok, p) := expectPeek end_ p in
  if negb ok then Ok ([], p) else Ok (list_, p).

Definition parseCallExpression (function : Node) (p : Parser) : PResult :=
  let tok := curToken p in
  '(args, p) <- parseExpressionList RPAREN p;;
  Ok (CallExpression tok function args, p).

Definition parseArrayLiteral (p : Parser) : PResult :=
  let tok := curToken p in
  '(elems, p) <- parseExpressionList RBRACKET p;;
  Ok (ArrayLiteral tok elems, p).

Definition parseIndexExpression (left : Node) (p : Parser) : PResult :=
  let tok := curToken p in
  let p := nextToken p in
  '(index, p) <- parseExpression LOWEST p;;
  let '(ok, p) := expectPeek RBRACKET p in
  if negb ok then Ok (NilNode, p) else Ok (IndexExpression tok left index, p).

(** [for !p.peekTokenIs(token.RBRACE) { ... }] of [parseMapLiteral]; [None]
    is the early [return nil].  A key is a freshly allocated node, so
    [Pairs[key] = value] adds an entry (a nil key comes with a parse error,
    after which the program is never evaluated). *)
Fixpoint mapLoop (n : nat) (pairs : list (Node * Node)) (p : Parser)
    : Outcome (option (list (Node * Node)) * Parser) :=
  match n with
  | O => OutOfFuel
  | S n' =>
      if peekTokenIs RBRACE p then Ok (Some pairs, p) else
      let p := nextToken p in
      '(key, p) <- parseExpression LOWEST p;;
      let '(ok, p) := expectPeek COLON p in
      if negb ok then Ok (None, p) else
      let p := nextToken p in
      '(value, p) <- parseExpression LOWEST p;;
      let pairs := pairs ++ [(key, value)] in
      if negb (peekTokenIs RBRACE p) then
        let '(ok, p) := expectPeek COMMA p in
        if negb ok then Ok (None, p) else mapLoop n' pairs p
      else mapLoop n' pairs p
  end.

Definition parseMapLiteral (p : Parser) : PResult :=
  let tok := curToken p in
  '(r, p) <- mapLoop rounds [] p;;
  match r with
  | None => Ok (NilNode, p)
  | Some pairs =>
      let '(ok, p) := expectPeek RBRACE p in
      if negb ok then Ok (NilNode, p) else Ok (MapLiteral tok pairs, p)
  end.

Definition parseForExpression (p : Parser) : PResult :=
  let tok := curToken p in
  let '(ok, p) := expectPeek IDENT p in
  if negb ok then Ok (NilNode, p) else
  let key := Literal (curToken p) in
  let step : option (string * string) * Parser :=
    if peekTokenIs COMMA p then
      let p := nextToken p in
      let '(ok, p) := expectPeek IDENT p in
      if negb ok then (None, p) else (Some (key, Literal (curToken p)), p)
    else (Some (EmptyString, key), p) in
  match step with
  | (None, p) => Ok (NilNode, p)
  | (Some (key, value), p) =>
      let '(ok, p) := expectPeek IN p in
      if negb ok then Ok (NilNode, p) else
      let p := nextToken p in
      '(in_, p) <- parseExpression LOWEST p;;
      '(block, p) <- parseBlockStatement [ENDFOR] p;;
      Ok (ForExpression tok key value in_ block, p)
  end.

Definition parseSectionExpression (p : Parser) : PResult :=
  let tok := curToken p in
  let '(ok, p) := expectPeek LPAREN p in
  if negb ok then Ok (NilNode, p) else
  let '(ok, p) := expectPeek STRING p in
  if negb ok then Ok (NilNode, p) else
  let name := Literal (curToken p) in
  let '(ok, p) := expectPeek RPAREN p in
  if negb ok then Ok (NilNode, p) else
  let '(ok, p) := expectPeek EOC p in
  if negb ok then Ok (NilNode, p) else
  '(block, p) <- parseBlockStatement [ENDSECTION] p;;
  Ok (SectionStatement tok block name, p).

Definition parseDefineExpression (p : Parser) : PResult :=
  let tok := curToken p in
  let '(ok, p) := expectPeek LPAREN p in
  if negb ok then Ok (NilNode, p) else
  let '(ok, p) := expectPeek STRING p in
  if negb ok then Ok (NilNode, p) else
  let name := Literal (curToken p) in
  let '(ok, p) := expectPeek RPAREN p in
  if negb ok then Ok (NilNode, p) else
  let '(ok, p) := expectPeek EOC p in
  if negb ok then Ok (NilNode, p) else
  '(content, p) <- parseBlockStatement [END] p;;
  Ok (DefineStatement tok name content, p).

(** On a nil [left] the call [left.TokenLiteral()] panics. *)
Definition parseDotExpression (left : Node) (p : Parser) : PResult :=
  let tok := curToken p in
  match left with
  | Identifier leftIdent =>
      let '(ok, p) := expectPeek IDENT p in
      if negb ok then Ok (NilNode, p) else
      Ok (DotExpression tok leftIdent
            (mkIdent (curToken p) (Literal (curToken p))), p)
  | _ =>
      got <- TokenLiteral left;;
      Ok (NilNode, lastTokenError IDENT got p)
  end.

Definition parseIncludeExpression (p : Parser) : PResult :=
  let tok := curToken p in
  let '(ok, p) := expectPeek LPAREN p in
  if negb ok then Ok (NilNode, p) else
  let '(ok, p) := expectPeek STRING p in
  if negb ok then Ok (NilNode, p) else
  let file := Literal (curToken p) in
  '(vars, p) <-
    (if peekTokenIs COMMA p
     then parseExpression LOWEST (nextToken (nextToken p))
     else Ok (NilNode, p));;
  let '(ok, p) := expectPeek RPAREN p in
  if negb ok then Ok (NilNode, p) else
  Ok (IncludeStatement tok file vars, p).

(** The tables filled by [registerPrefix] and [registerInfix] in [New]. *)
Definition prefixParseFns (t : TokenType) : option (Parser -> PResult) :=
  match t with
  | IDENT => Some parseIdentifier
  | INT => Some parseIntegerLiteral
  | BANG | MINUS => Some parsePrefixExpression
  | TRUE | FALSE => Some parseBoolean
  | LPAREN => Some parseGroupedExpression
  | IF => Some parseIfExpression
  | STRING => Some parseStringLiteral
  | LBRACKET => Some parseArrayLiteral
  | LBRACE => Some parseMapLiteral
  | FOR => Some parseForExpression
  | HTML => Some parseHtml
  | EOC => Some parseEndOfCode
  | EXTENDS => Some parseExtendsExpression
  | SECTION => Some parseSectionExpression
  | DEFINE => Some parseDefineExpression
  | INCLUDE => Some parseIncludeExpression
  | _ => None
  end.

Definition infixParseFns (t : TokenType) : option (Node -> Parser -> PResult) :=
  match t with
  | PLUS | MINUS | SLASH | ASTERISK | EQ | NOT_EQ | LT | GT =>
      Some parseInfixExpression
  | LPAREN => Some parseCallExpression
  | LBRACKET => Some parseIndexExpression
  | DOT => Some parseDotExpression
  | AND => Some parseAndExpression
  | _ => None
  end.

(** The loop of [parseExpression]. *)
Fixpoint infixLoop (n : nat) (precedence : Z) (leftExp : Node) (p : Parser)
    : PResult :=
  match n with
  | O => OutOfFuel
  | S n' =>
      if negb (peekTokenIs SEMICOLON p) && (precedence <? peekPrecedence p) then
        match infixParseFns (Type_ (peekToken p)) with
        | None => Ok (leftExp, p)
        | Some infix =>
            '(leftExp, p) <- infix leftExp (nextToken p);;
            infixLoop n' precedence leftExp p
        end
      else Ok (leftExp, p)
  end.

End Parselets.

Fixpoint parseExpression (fuel : nat) (precedence : Z) (p : Parser) : PResult :=
  match fuel with
  | O => OutOfFuel
  | S fuel' =>
      match prefixParseFns (parseExpression fuel') fuel' (Type_ (curToken p)) with
      | None => Ok (NilNode, noPrefixParseFnError (curToken p) p)
      | Some prefix =>
          '(leftExp, p) <- prefix p;;
          infixLoop (parseExpression fuel') fuel' fuel' precedence leftExp p
      end
  end.

Fixpoint programLoop (fuel : nat) (n : nat) (stmts : list Node) (p : Parser)
    : Outcome (list Node * Parser) :=
  match n with
  | O => OutOfFuel
  | S n' =>
      if curTokenIs EOF p then Ok (stmts, p) else
      '(stmt, p) <- parseStatement (parseExpression fuel) p;;
      let stmts := if is_nil stmt then stmts else stmts ++ [stmt] in
      programLoop fuel n' stmts (nextToken p)
  end.

Definition ParseProgram (fuel : nat) (p : Parser) : Outcome (Node * Parser) :=
  '(stmts, p) <- programLoop fuel fuel [] p;;
  Ok (Program stmts, p).

Definition Errors (p : Parser) : list string := errors p.

(** Lexing and parsing a source text, as [LoadFile] does. *)
Definition parse (fuel : nat) (src : string) : Outcome (Node * list string) :=
  '(program, p) <- ParseProgram fuel (New (lexer.New src));;
  Ok (program, Errors p).

End parser.

(** ** package object: run-time values and environments *)

Module object.

Inductive IntKind : Type := I8 | I16 | I32 | I64.

#[global] Instance IntKind_eq_dec : EqDecision IntKind.
Proof. solve_decision. Defined.

(** The dynamic types an [interface{}] holds in the evaluator: what the
    evaluator and the builtins of the repository create, and host values as
    far as the evaluator inspects them by reflection.
    - [VInt]: Go [int]; [VSized]: [int8] .. [int64] ([len] returns [int64]);
    - [VError]: an [error], with its message;
    - [VSlice]: [[]interface{}]; [VIntSlice]: [[]int] (from [range]);
    - [VMap]: [map[interface{}]interface{}], one entry per key;
    - [VBuiltin]: the [*object.Builtin] registered under a name;
    - [VStruct]: a host struct ([addr = None]) or a non-nil pointer to one;
    - [VNilPtr]: a nil pointer of a host type.
    A host type is a defined type: [%T] prints it as [pkg.name]. *)
#[local] Unset Elimination Schemes.

Inductive Value : Type :=
| VNil
| VInt (n : Z)
| VSized (k : IntKind) (n : Z)
| VBool (b : bool)
| VString (s : string)
| VError (msg : string)
| VSlice (xs : list Value)
| VIntSlice (xs : list Z)
| VMap (m : list (Value * Value))
| VBuiltin (name : string)
| VStruct (pkg name : string) (addr : option nat)
          (fields : list (string * Value))
| VNilPtr (pkg name : string).

#[local] Set Elimination Schemes.

(** [reflect.Kind]. *)
Inductive Kind : Type :=
| Invalid | KBool | KInt | KInt8 | KInt16 | KInt32 | KInt64 | KString
| KSlice | KMap | KPtr | KStruct.

#[global] Instance Kind_eq_dec : EqDecision Kind.
Proof. solve_decision. Defined.

Definition kind_of_IntKind (k : IntKind) : Kind :=
  match k with I8 => KInt8 | I16 => KInt16 | I32 => KInt32 | I64 => KInt64 end.

(** [reflect.ValueOf(v).Kind()] *)
Definition kindOf (v : Value) : Kind :=
  match v with
  | VNil => Invalid
  | VInt _ => KInt
  | VSized k _ => kind_of_IntKind k
  | VBool _ => KBool
  | VString _ => KString
  | VError _ | VBuiltin _ | VNilPtr _ _ => KPtr
  | VSlice _ | VIntSlice _ => KSlice
  | VMap _ => KMap
  | VStruct _ _ None _ => KStruct
  | VStruct _ _ (Some _) _ => KPtr
  end.

Definition kind_string (k : Kind) : string :=
  match k with
  | Invalid => "invalid" | KBool => "bool" | KInt => "int" | KInt8 => "int8"
  | KInt16 => "int16" | KInt32 => "int32" | KInt64 => "int64"
  | KString => "string" | KSlice => "slice" | KMap => "map" | KPtr => "ptr"
  | KStruct => "struct"
  end.

(** [fmt.Sprintf("%T", v)] *)
Definition typeName (v : Value) : string :=
  match v with
  | VNil => "<nil>"
  | VInt _ => "int"
  | VSized I8 _ => "int8"
  | VSized I16 _ => "int16"
  | VSized I32 _ => "int32"
  | VSized I64 _ => "int64"
  | VBool _ => "bool"
  | VString _ => "string"
  | VError _ => "*errors.errorString"
  | VSlice _ => "[]interface {}"
  | VIntSlice _ => "[]int"
  | VMap _ => "map[interface {}]interface {}"
  | VBuiltin _ => "*object.Builtin"
  | VStruct p t None _ => p +:+ "." +:+ t
  | VStruct p t (Some _) _ => "*" +:+ p +:+ "." +:+ t
  | VNilPtr p t => "*" +:+ p +:+ "." +:+ t
  end.

(** Whether a value can be a map key or an operand of [==] against a value
    of its own type without a run-time panic (slices and maps cannot). *)
Fixpoint comparable (v : Value) : bool :=
  match v with
  | VSlice _ | VIntSlice _ | VMap _ => false
  | VStruct _ _ None fields =>
      (fix all (l : list (string * Value)) : bool :=
         match l with
         | [] => true
         | (_, x) :: l' => comparable x && all l'
         end) fields
  | _ => true
  end.

(** [a == b] on two interface values whose dynamic types are comparable:
    equal dynamic type and equal value.  Pointers compare by address;
    errors are pointers whose address the model does not track, they are
    told apart by their message (the evaluator returns an error before it
    ever compares one). *)
Fixpoint sameValue (a b : Value) : bool :=
  match a, b with
  | VNil, VNil => true
  | VInt x, VInt y => x =? y
  | VSized k x, VSized k' y => bool_decide (k = k') && (x =? y)
  | VBool x, VBool y => Bool.eqb x y
  | VString x, VString y => String.eqb x y
  | VError x, VError y => String.eqb x y
  | VBuiltin x, VBuiltin y => String.eqb x y
  | VNilPtr p x, VNilPtr q y => String.eqb p q && String.eqb x y
  | VStruct p t (Some x) _, VStruct q t' (Some y) _ =>
      String.eqb p q && String.eqb t t' && Nat.eqb x y
  | VStruct p t None fs, VStruct q t' None fs' =>
      String.eqb p q && String.eqb t t' &&
      (fix all (l : list (string * Value)) (l' : list (string * Value)) : bool :=
         match l, l' with
         | [], [] => true
         | (_, x) :: r, (_, y) :: r' => sameValue x y && all r r'
         | _, _ => false
         end) fs fs'
  | _, _ => false
  end.

(** [a == b] on interface values: values of different dynamic types are
    unequal, values of one uncomparable type panic. *)
Definition goEq (a b : Value) : Outcome bool :=
  if String.eqb (typeName a) (typeName b) then
    if comparable a && comparable b then Ok (sameValue a b)
    else Panic ("runtime error: comparing uncomparable type " +:+ typeName a)
  else Ok false.

(** Go maps with [interface{}] keys, as lists with one entry per key. *)
Fixpoint mapLookup (m : list (Value * Value)) (k : Value) : option Value :=
  match m with
  | [] => None
  | (k', v) :: m' => if sameValue k' k then Some v else mapLookup m' k
  end.

Fixpoint mapReplace (m : list (Value * Value)) (k v : Value)
    : list (Value * Value) :=
  match m with
  | [] => []
  | (k', v') :: m' =>
      if sameValue k' k then (k', v) :: m' else (k', v') :: mapReplace m' k v
  end.

(** [m[k] = v] *)
Definition mapAssign (m : list (Value * Value)) (k v : Value)
    : Outcome (list (Value * Value)) :=
  if comparable k then
    Ok (match mapLookup m k with
        | Some _ => mapReplace m k v
        | None => m ++ [(k, v)]
        end)
  else Panic ("runtime error: hash of unhashable type " +:+ typeName k).

(** [reflect.ValueOf(m).MapIndex(reflect.ValueOf(k))]: [Ok None] is the
    invalid [reflect.Value] of a missing key.  The zero [reflect.Value] of a
    nil [k] is not assignable to the key type. *)
Definition MapIndex (m : list (Value * Value)) (k : Value)
    : Outcome (option Value) :=
  match k with
  | VNil => Panic "runtime error: invalid memory address or nil pointer dereference"
  | _ =>
      if comparable k then Ok (mapLookup m k)
      else Panic ("runtime error: hash of unhashable type " +:+ typeName k)
  end.

Record SectionContent : Type := mkSectionContent {
  sc_Token : Token;
  sc_Name : string;
  sc_Content : Value
}.

Record parentTemplate : Type := mkParentTemplate {
  Sections : gmap string SectionContent;
  From : string
}.

(** [*Environment].  [store] and [ExtendsFrom.Sections] are Go maps, that
    is references: a copy of the struct shares them.  The code that copies
    an environment ([CopyEnvironment], the by-value parameter of
    [LoadFile]) hands both maps back to its caller in the model. *)
#[local] Unset Elimination Schemes.

Inductive Environment : Type := mkEnvironment {
  store : gmap string Value;
  outer : option Environment;
  FileName : string;
  InExtends : bool;
  IsExtends : bool;
  InSection : bool;
  InDefine : bool;
  ExtendsFrom : parentTemplate
}.

#[local] Set Elimination Schemes.

Definition NewEnvironment : Environment :=
  mkEnvironment ∅ None EmptyString false false false false
                (mkParentTemplate ∅ EmptyString).

Fixpoint Get (e : Environment) (name : string) : option Value :=
  match store e !! name with
  | Some obj => Some obj
  | None =>
      match outer e with
      | Some o => Get o name
      | None => None
      end
  end.

Definition with_store (s : gmap string Value) (e : Environment) : Environment :=
  mkEnvironment s (outer e) (FileName e) (InExtends e) (IsExtends e)
                (InSection e) (InDefine e) (ExtendsFrom e).

Definition with_ExtendsFrom (x : parentTemplate) (e : Environment) : Environment :=
  mkEnvironment (store e) (outer e) (FileName e) (InExtends e) (IsExtends e)
                (InSection e) (InDefine e) x.

Definition with_Sections (m : gmap string SectionContent) (e : Environment)
    : Environment :=
  with_ExtendsFrom (mkParentTemplate m (From (ExtendsFrom e))) e.

Definition with_FileName (f : string) (e : Environment) : Environment :=
  mkEnvironment (store e) (outer e) f (InExtends e) (IsExtends e)
                (InSection e) (InDefine e) (ExtendsFrom e).

Definition with_InExtends (b : bool) (e : Environment) : Environment :=
  mkEnvironment (store e) (outer e) (FileName e) b (IsExtends e)
                (InSection e) (InDefine e) (ExtendsFrom e).

Definition with_IsExtends (b : bool) (e : Environment) : Environment :=
  mkEnvironment (store e) (outer e) (FileName e) (InExtends e) b
                (InSection e) (InDefine e) (ExtendsFrom e).

Definition Set_ (name : string) (val : Value) (e : Environment) : Environment :=
  with_store (<[name := val]> (store e)) e.

Definition Delete (name : string) (e : Environment) : Environment :=
  with_store (delete name (store e)) e.

(** [CopyEnvironment]: the new environment shares [env]'s store, so
    [newEnv.Set("sessions", s)] is also seen through [env]; the result is
    the new environment, whose [store] is that shared map. *)
Definition CopyEnvironment (env : Environment) : Environment :=
  let newEnv :=
    mkEnvironment (store env) (outer env) EmptyString false false false false
                  (ExtendsFrom env) in
  let s := match Get env "sessions" with Some v => v | None => VNil end in
  Set_ "sessions" s newEnv.

End object.

Import object.

(** ** What the engine takes from its host

    The file system, the process environment, the render cache, the
    builtins that call into the host framework ([route], [config], [asset]
    and those added by [LoadLambFuntions]), the fields of the struct
    [object.Builtin] (declared outside the packages modelled here) and the
    [fmt] output for values whose printed form shows addresses or depends on
    an unspecified order. *)

Inductive CacheEntry : Type :=
| CacheExpired                      (* older than GOVEL_LAMB_CACHE_TIME *)
| CacheFresh (content : string)
| CacheUnreadable (err : string).

Record World : Type := mkWorld {
  base_dir : string;                           (* GOVEL_LAMB_BASE_DIR *)
  cache_dir : string;                          (* GOVEL_LAMB_CACHE_DIR *)
  files : string -> option string;             (* os.ReadFile *)
  read_error : string -> string;               (* its error message *)
  cache_stat : string -> option CacheEntry;    (* os.Stat of a cache file *)
  host_builtins : string -> option (list Value -> Outcome Value);
  builtin_field : string -> string -> option Value;
  fmt_extern : Value -> string
}.

(** [fmt.Sprintf("%v", v)] *)
Fixpoint fmtV (w : World) (v : Value) : string :=
  match v with
  | VNil | VNilPtr _ _ => "<nil>"
  | VInt n | VSized _ n => fmt_d n
  | VBool true => "true"
  | VBool false => "false"
  | VString s => s
  | VError msg => msg
  | VSlice xs =>
      "[" +:+ ast.join " "
                ((fix all (l : list Value) : list string :=
                    match l with
                    | [] => []
                    | x :: l' => fmtV w x :: all l'
                    end) xs) +:+ "]"
  | VIntSlice xs => "[" +:+ ast.join " " (map fmt_d xs) +:+ "]"
  | VMap _ | VBuiltin _ | VStruct _ _ _ _ => fmt_extern w v
  end.

(** [fmt.Sprintf("%s", v)] *)
Definition fmtS (w : World) (v : Value) : string :=
  match v with
  | VString s => s
  | VError msg => msg
  | _ => fmt_extern w v
  end.

Definition isError (obj : Value) : bool :=
  match obj with VError _ => true | _ => false end.

Definition EvalFn : Type :=
  ast.Node -> Environment -> Outcome (Value * Environment).

(** ** package internal: the loader *)

Module internal.

Fixpoint ReplaceAll (s : string) (old : ascii) (new : ascii) : string :=
  match s with
  | EmptyString => EmptyString
  | String c s' =>
      String (if Ascii.eqb c old then new else c) (ReplaceAll s' old new)
  end.

(** What a call of [LoadFile] leaves behind: the returned error, the
    contents of the writer [out], and the two maps its by-value [env]
    shares with the caller's environment. *)
Record LoadResult : Type := mkLoadResult {
  lr_err : option string;
  lr_out : string;
  lr_store : gmap string Value;
  lr_sections : gmap string SectionContent
}.

Definition done (err : option string) (out : string) (env : Environment)
    : Outcome LoadResult :=
  Ok (mkLoadResult err out (store env) (Sections (ExtendsFrom env))).

(** [LoadFile].  [vars] is the map of template variables (nil is the empty
    map), [out] what has been written to the writer so far.  The write-back
    of the cache runs in a goroutine after the write to [out]; it changes
    neither [out] nor the result and is left out. *)
Definition LoadFile (w : World) (fuel : nat) (fileName : string)
    (vars : gmap string Value) (out : string) (evaluator : EvalFn)
    (env : Environment) : Outcome LoadResult :=
  let file := base_dir w +:+ ReplaceAll fileName "." "/" +:+ ".lamb.html" in
  let env := with_store (vars ∪ store env) env in
  let cache :=
    match vars !! "__cache" with
    | Some (VString s) => s
    | _ => EmptyString
    end in
  let cacheFile := cache_dir w +:+ "/" +:+ fileName in
  let run (_ : unit) : Outcome LoadResult :=
    let env := with_FileName file env in
    match files w file with
    | None => done (Some (read_error w file)) out env
    | Some content =>
        '(program, errs) <- parser.parse fuel content;;
        match errs with
        | e :: _ => done (Some (file +:+ ": " +:+ e +:+ str1 LF)) out env
        | [] =>
            '(evaluated, env) <- evaluator program env;;
            match evaluated with
            | VNil => done None out env
            | VError msg => done (Some msg) out env
            | _ => done None (out +:+ fmtS w evaluated) env
            end
        end
    end in
  match cache_stat w cacheFile with
  | Some entry =>
      if negb (String.eqb cache EmptyString) then
        match entry with
        | CacheExpired => run tt
        | CacheFresh content => done None (out +:+ content) env
        | CacheUnreadable err => done (Some err) out env
        end
      else run tt
  | None => run tt
  end.

End internal.

(** ** package evaluator *)

Module evaluator.

Import ast.

(** Go's [int] arithmetic wraps around in 64 bits. *)
Definition wrap (z : Z) : Z := (z + 2 ^ 63) mod 2 ^ 64 - 2 ^ 63.

Definition Result : Type := Outcome (Value * Environment).

Definition ret (v : Value) (env : Environment) : Result := Ok (v, env).

Definition newError (t : Token) (msg : string) : Value :=
  VError (fmt_d (token.Line t) +:+ ": " +:+ fmt_d (Col t) +:+ ": " +:+ msg).

Definition builtInError (msg : string) : Value := VError msg.

(** *** Builtins *)

Definition lenBuiltIn (args : list Value) : Outcome Value :=
  match args with
  | [a] =>
      match a with
      | VSlice xs => Ok (VSized I64 (Z.of_nat (length xs)))
      | VIntSlice xs => Ok (VSized I64 (Z.of_nat (length xs)))
      | VString s => Ok (VSized I64 (Z.of_nat (String.length s)))
      | _ => Ok (builtInError ("argument to `len` not supported, got "
                               +:+ typeName a))
      end
  | _ => Ok (builtInError ("wrong number of arguments in len. got="
                           +:+ fmt_d (Z.of_nat (length args)) +:+ ", want=1"))
  end.

Definition typeBuiltIn (args : list Value) : Outcome Value :=
  match args with
  | [arg] => Ok (VString (typeName arg))
  | _ => Ok (builtInError ("wrong number of arguments in type. got="
                           +:+ fmt_d (Z.of_nat (length args)) +:+ ", want=1"))
  end.

Definition mapKeyExists (args : list Value) : Outcome Value :=
  match args with
  | [m; k] =>
      match m with
      | VNil => Ok (VBool false)
      | VMap pairs =>
          r <- MapIndex pairs k;;
          Ok (VBool (match r with Some _ => true | None => false end))
      | _ => Ok (builtInError
                   ("argument to `map_key_exists` not supported, got "
                    +:+ typeName m +:+ ", want=map"))
      end
  | _ => Ok (builtInError ("wrong number of arguments in map_key_exists. got="
                           +:+ fmt_d (Z.of_nat (length args)) +:+ ", want=2"))
  end.

(** [start, start+1, .., end_]. *)
Definition upto (start end_ : Z) : list Z :=
  map (fun i => start + Z.of_nat i) (seq 0 (Z.to_nat (end_ - start + 1))).

(** [reflect.TypeOf(nil)] is nil, and [Kind] on it panics; the kind of
    [end_] is looked at only when [start] is an [int].  With
    [end_ = MaxInt] the loop [for startInt <= endInt] never ends; the
    process dies when memory runs out. *)
Definition rangeBuiltIn (args : list Value) : Outcome Value :=
  match args with
  | [start; end_] =>
      let unsupported :=
        Ok (builtInError ("argument to `range` not supported, got "
                          +:+ typeName start +:+ ", want=int")) in
      match start with
      | VNil => Panic "nil pointer dereference"
      | VInt startInt =>
          match end_ with
          | VNil => Panic "nil pointer dereference"
          | VInt endInt =>
              if endInt =? parser.max_int64 then Panic "out of memory"
              else Ok (VIntSlice (upto startInt endInt))
          | _ => unsupported
          end
      | _ => unsupported
      end
  | _ => Ok (builtInError ("wrong number of arguments in range. got="
                           +:+ fmt_d (Z.of_nat (length args)) +:+ ", want=2"))
  end.

(** The registry [Builtins]: the entries that live in the evaluator, and the
    host's ([route], [config], [asset], [LoadLambFuntions]). *)
Definition Builtins (w : World) (name : string)
    : option (list Value -> Outcome Value) :=
  if String.eqb name "len" then Some lenBuiltIn
  else if String.eqb name "type" then Some typeBuiltIn
  else if String.eqb name "map_key_exists" then Some mapKeyExists
  else if String.eqb name "range" then Some rangeBuiltIn
  else host_builtins w name.

(** *** Operators *)

Definition nativeBoolToBooleanObject (input : bool) : Value := VBool input.

Definition evalBangOperatorExpression (right_ : Value) : Value :=
  match right_ with
  | VBool true => VBool false
  | VBool false => VBool true
  | VNil => VBool true
  | _ => VBool false
  end.

(** A type assertion [x.(T)] panics when [x] does not hold a [T]. *)
Definition assertion_failed (v : Value) (type : string) : string :=
  "interface conversion: interface {} is " +:+ typeName v +:+ ", not "
  +:+ type.

Definition evalMinusPrefixOperatorExpression (right_ : Value) (t : Token)
    : Outcome Value :=
  if negb (String.eqb (typeName right_) "int") then
    Ok (newError t ("unknown operator: -" +:+ typeName right_))
  else
    match right_ with
    | VInt value => Ok (VInt (wrap (- value)))
    | _ => Panic (assertion_failed right_ "int")
    end.

Definition evalPrefixExpression (operator : string) (right_ : Value)
    (t : Token) : Outcome Value :=
  if String.eqb operator "!" then Ok (evalBangOperatorExpression right_)
  else if String.eqb operator "-" then
    evalMinusPrefixOperatorExpression right_ t
  else Ok (newError t ("unknown operator: " +:+ operator +:+ typeName right_)).

(** [isNumber]: the kinds [Int], [Int8], [Int16], [Int32], [Int64]. *)
Definition isNumber (num : Value) : Z * bool :=
  match num with
  | VInt n => (n, true)
  | VSized _ n => (n, true)
  | _ => (0, false)
  end.

(** Both operands have been converted to [int] by [isNumber].  Division by
    zero is a run-time panic. *)
Definition evalIntegerInfixExpression (operator : string)
    (leftVal rightVal : Z) (t : Token) : Outcome Value :=
  if String.eqb operator "+" then Ok (VInt (wrap (leftVal + rightVal)))
  else if String.eqb operator "-" then Ok (VInt (wrap (leftVal - rightVal)))
  else if String.eqb operator "*" then Ok (VInt (wrap (leftVal * rightVal)))
  else if String.eqb operator "/" then
    if rightVal =? 0 then Panic "runtime error: integer divide by zero"
    else Ok (VInt (wrap (leftVal ÷ rightVal)))
  else if String.eqb operator "<" then
    Ok (nativeBoolToBooleanObject (leftVal <? rightVal))
  else if String.eqb operator ">" then
    Ok (nativeBoolToBooleanObject (leftVal >? rightVal))
  else if String.eqb operator "==" then
    Ok (nativeBoolToBooleanObject (leftVal =? rightVal))
  else if String.eqb operator "!=" then
    Ok (nativeBoolToBooleanObject (negb (leftVal =? rightVal)))
  else Ok (newError t ("unknown operator: int " +:+ operator +:+ " int")).

Definition evalStringInfixExpression (operator : string) (left_ right_ : Value)
    (t : Token) : Outcome Value :=
  if negb (String.eqb operator "+") then
    Ok (newError t ("unknown operator: " +:+ typeName left_ +:+ " "
                    +:+ operator +:+ " " +:+ typeName right_))
  else
    match left_, right_ with
    | VString leftVal, VString rightVal => Ok (VString (leftVal +:+ rightVal))
    | VString _, _ => Panic (assertion_failed right_ "string")
    | _, _ => Panic (assertion_failed left_ "string")
    end.

(** [(v.Kind() == reflect.Ptr && v.IsNil()) || !v.IsValid()] *)
Definition nilPtrOrInvalid (v : Value) : bool :=
  match v with
  | VNil | VNilPtr _ _ => true
  | _ => false
  end.

(** [boolValue, isBool := v.(bool); isBool && !boolValue] *)
Definition isFalse (v : Value) : bool :=
  match v with
  | VBool false => true
  | _ => false
  end.

Definition evalInfixExpression (operator : string) (left_ right_ : Value)
    (t : Token) : Outcome Value :=
  let leftType := typeName left_ in
  let rightType := typeName right_ in
  let '(leftNumber, isLeftNumber) := isNumber left_ in
  let '(rightNumber, isRightNumber) := isNumber right_ in
  if isLeftNumber && isRightNumber then
    evalIntegerInfixExpression operator leftNumber rightNumber t
  else if String.eqb operator "==" then
    b <- goEq left_ right_;; Ok (nativeBoolToBooleanObject b)
  else if String.eqb operator "!=" then
    b <- goEq left_ right_;; Ok (nativeBoolToBooleanObject (negb b))
  else if String.eqb operator "and" then
    (* the test that follows the check of the left operand inspects
       [right], as the one after the check of the right operand does *)
    if nilPtrOrInvalid left_ then Ok (VBool false)
    else if isFalse right_ then Ok (VBool false)
    else if nilPtrOrInvalid right_ then Ok (VBool false)
    else if isFalse right_ then Ok (VBool false)
    else Ok (VBool true)
  else if String.eqb leftType "string" && String.eqb rightType "string" then
    evalStringInfixExpression operator left_ right_ t
  else if negb (String.eqb leftType rightType) then
    Ok (newError t ("type mismatch: " +:+ leftType +:+ " " +:+ operator
                    +:+ " " +:+ rightType))
  else
    Ok (newError t ("unknown operator: " +:+ leftType +:+ " " +:+ operator
                    +:+ " " +:+ rightType)).

Definition isTruthy (obj : Value) : bool :=
  match obj with
  | VNil => false
  | VBool true => true
  | VBool false => false
  | _ => true
  end.

(** *** Indexing *)

(** The elements [reflect] sees in a slice. *)
Definition sliceElements (array : Value) : option (list Value) :=
  match array with
  | VSlice xs => Some xs
  | VIntSlice xs => Some (map VInt xs)
  | _ => None
  end.

Definition evalArrayIndexExpression (array index : Value) : Outcome Value :=
  match sliceElements array, index with
  | Some elems, VInt id =>
      let max := Z.of_nat (length elems) - 1 in
      if (id <? 0) || (id >? max) then Ok VNil
      else match elems !! Z.to_nat id with
           | Some x => Ok x
           | None => Panic "reflect: slice index out of range"
           end
  | None, _ => Panic "reflect: call of reflect.Value.Len on a value that is no slice"
  | _, _ => Panic (assertion_failed index "int")
  end.

Definition evalMapIndexExpression (m index : Value) : Outcome Value :=
  match m with
  | VMap pairs =>
      value <- MapIndex pairs index;;
      Ok (match value with Some x => x | None => VNil end)
  | _ => Panic "reflect: call of reflect.Value.MapIndex on a value that is no map"
  end.

Definition evalIndexExpression (left_ index : Value) (t : Token)
    : Outcome Value :=
  let leftType := kindOf left_ in
  let indexType := kindOf index in
  if bool_decide (leftType = KSlice) && bool_decide (indexType = KInt) then
    evalArrayIndexExpression left_ index
  else if bool_decide (leftType = KMap) then
    evalMapIndexExpression left_ index
  else
    Ok (newError t ("index operator not supported: " +:+ kind_string leftType)).

(** *** Composition statements that do not recurse *)

Definition evalExtendsStatement (tok : Token) (from : string)
    (env : Environment) : Value * Environment :=
  if InExtends env || IsExtends env then
    (newError tok "nested extends are not allowed", env)
  else
    (VNil, with_ExtendsFrom (mkParentTemplate (Sections (ExtendsFrom env)) from)
             (with_InExtends true env)).

(** Whether a host field name is exported. *)
Definition exported (name : string) : bool :=
  match name with
  | String c _ => lexer.between "A" c "Z"
  | EmptyString => false
  end.

(** *** The builtins that read the host's configuration

    [config] and [asset] look a key up in the map that the framework's
    [GetKeyFromYAML] returns for the empty key; that value is the
    argument [yaml] here. *)

(** [strings.Split(s, sep)] for a separator of one byte. *)
Fixpoint Split (s : string) (sep : ascii) : list string :=
  match s with
  | EmptyString => [EmptyString]
  | String c s' =>
      if Ascii.eqb c sep then EmptyString :: Split s' sep
      else match Split s' sep with
           | seg :: rest => String c seg :: rest
           | [] => [str1 c]
           end
  end.

(** [lookForConfigKeys] calls itself on the key that is left after the
    first segment, joined again; [n] bounds the depth of the calls. *)
Fixpoint lookForConfigKeysLoop (n : nat) (m : list (Value * Value))
    (key : string) : Outcome (bool * Value) :=
  match n with
  | O => OutOfFuel
  | S n' =>
      match Split key "." with
      | [] => Ok (false, VString EmptyString)
      | [k] =>
          match mapLookup m (VString k) with
          | Some value => Ok (true, value)
          | None => Ok (false, VNil)
          end
      | k :: rest =>
          match mapLookup m (VString k) with
          | Some (VMap submap) => lookForConfigKeysLoop n' submap (join "." rest)
          | _ => Ok (false, VString k)
          end
      end
  end.

Definition lookForConfigKeys (m : list (Value * Value)) (key : string)
    : Outcome (bool * Value) :=
  lookForConfigKeysLoop (S (String.length key)) m key.




Section Recursive.

(** The host, the evaluator for the recursive calls, and the fuel handed to
    the parser of a loaded template. *)
Variable w : World.
Variable fuel : nat.
Variable Eval_ : EvalFn.

Fixpoint statementsLoop (stmts : list Node) (result : string)
    (env : Environment) : Result :=
  match stmts with
  | [] => ret (VString result) env
  | statement :: stmts' =>
      '(res, env) <- Eval_ statement env;;
      if isError res then ret res env
      else
        let result :=
          match res with
          | VNil => result
          | _ => result +:+ fmtV w res
          end in
        statementsLoop stmts' result env
  end.

Definition evalStatements (stmts : list Node) (env : Environment) : Result :=
  statementsLoop stmts EmptyString env.

Definition evalBlock (b : Block) (env : Environment) : Result :=
  Eval_ (BlockStatement b) env.

(** The loop of [evalProgram]: [inl] is its early return. *)
Fixpoint programLoop (stmts : list Node) (result : string)
    (env : Environment) : Outcome ((Value + string) * Environment) :=
  match stmts with
  | [] => Ok (inr result, env)
  | statement :: stmts' =>
      '(r, env) <- Eval_ statement env;;
      if isError r then
        Ok (inl (VString (FileName env +:+ ": " +:+ fmtV w r)), env)
      else
        let result :=
          match r with
          | VNil => result
          | _ => result +:+ fmtV w r
          end in
        programLoop stmts' result env
  end.

(** After the parent template has been rendered, any section left in the
    shared map is reported: the one Go's [range] yields first. *)
Definition evalProgram (stmts : list Node) (env : Environment) : Result :=
  '(r, env) <- programLoop stmts EmptyString env;;
  match r with
  | inl v => ret v env
  | inr result =>
      if InExtends env then
        let newEnv := with_IsExtends true (CopyEnvironment env) in
        lr <- internal.LoadFile w fuel (From (ExtendsFrom env)) ∅ EmptyString
                                Eval_ newEnv;;
        let env := with_Sections (internal.lr_sections lr)
                     (with_store (internal.lr_store lr) env) in
        let result := internal.lr_out lr in
        match internal.lr_err lr with
        | Some err => ret (VError err) env
        | None =>
            match map_to_list (Sections (ExtendsFrom env)) with
            | (_, section) :: _ =>
                ret (newError (sc_Token section)
                       ("section " +:+ sc_Name section +:+ " does not exist"))
                    env
            | [] => ret (VString result) env
            end
        end
      else ret (VString result) env
  end.

Definition evalIfExpression (condition : Node) (consequence : Block)
    (alternative : option Block) (env : Environment) : Result :=
  '(cond, env) <- Eval_ condition env;;
  if isError cond then ret cond env
  else if isTruthy cond then evalBlock consequence env
  else match alternative with
       | Some alt => evalBlock alt env
       | None => ret VNil env
       end.

Definition evalIdentifier (node : Ident) (env : Environment) : Value :=
  match Get env (ident_Value node) with
  | Some val => val
  | None =>
      match Builtins w (ident_Value node) with
      | Some _ => VBuiltin (ident_Value node)
      | None => newError (ident_Token node)
                  ("identifier not found: " +:+ ident_Value node)
      end
  end.

Fixpoint expressionsLoop (exps : list Node) (result : list Value)
    (env : Environment) : Outcome (list Value * Environment) :=
  match exps with
  | [] => Ok (result, env)
  | e :: exps' =>
      '(evaluated, env) <- Eval_ e env;;
      if isError evaluated then Ok ([evaluated], env)
      else expressionsLoop exps' (result ++ [evaluated]) env
  end.

Definition evalExpressions (exps : list Node) (env : Environment)
    : Outcome (list Value * Environment) :=
  expressionsLoop exps [] env.

(** [len(args) == 1 && isError(args[0])] *)
Definition singleError (args : list Value) : option Value :=
  match args with
  | [a] => if isError a then Some a else None
  | _ => None
  end.

Definition applyFunction (fn : Value) (args : list Value) (t : Token)
    : Outcome Value :=
  match fn with
  | VBuiltin name =>
      match Builtins w name with
      | Some f => f args
      | None => Panic "nil pointer dereference"
      end
  | _ => Ok (newError t ("not a function: " +:+ typeName fn))
  end.

Fixpoint mapLiteralLoop (pairs : list (Node * Node))
    (acc : list (Value * Value)) (env : Environment) : Result :=
  match pairs with
  | [] => ret (VMap acc) env
  | (keyNode, valueNode) :: pairs' =>
      '(key, env) <- Eval_ keyNode env;;
      if isError key then ret key env else
      '(value, env) <- Eval_ valueNode env;;
      if isError value then ret value env else
      acc <- mapAssign acc key value;;
      mapLiteralLoop pairs' acc env
  end.

Definition evalMapLiteral (pairs : list (Node * Node)) (env : Environment)
    : Result :=
  mapLiteralLoop pairs [] env.

(** The loop of [evalForExpression] over a slice, from index [i] on;
    [elems] are the elements still to visit.  [inl] is the early return. *)
Fixpoint forSliceLoop (value key : string) (block : Block)
    (elems : list Value) (i : Z) (out : string) (env : Environment)
    : Outcome ((Value + string) * Environment) :=
  match elems with
  | [] => Ok (inr out, env)
  | elem :: elems' =>
      let env := Set_ value elem env in
      let env := if String.eqb key EmptyString then env
                 else Set_ key (VInt i) env in
      '(res, env) <- evalBlock block env;;
      if isError res then Ok (inl res, env)
      else
        match res with
        | VString s => forSliceLoop value key block elems' (i + 1) (out +:+ s) env
        | _ => Panic "interface conversion: interface {} is not string"
        end
  end.

(** The loop over the keys of a map (Go visits them in an unspecified
    order, the model in the order of the entries). *)
Fixpoint forMapLoop (value key : string) (block : Block)
    (keys : list Value) (out : string) (env : Environment)
    : Outcome ((Value + string) * Environment) :=
  match keys with
  | [] => Ok (inr out, env)
  | elem :: keys' =>
      let env := Set_ value elem env in
      let env := if String.eqb key EmptyString then env
                 else Set_ key elem env in
      '(res, env) <- evalBlock block env;;
      if isError res then Ok (inl res, env)
      else
        match res with
        | VString s => forMapLoop value key block keys' (out +:+ s) env
        | _ => Panic "interface conversion: interface {} is not string"
        end
  end.

Definition evalForExpression (tok : Token) (key value : string) (in_ : Node)
    (block : Block) (env : Environment) : Result :=
  '(iter, env) <- Eval_ in_ env;;
  if isError iter then ret iter env else
  '(r, env) <-
    (match iter with
     | VMap pairs => forMapLoop value key block (map fst pairs) EmptyString env
     | VSlice xs => forSliceLoop value key block xs 0 EmptyString env
     | VIntSlice xs =>
         forSliceLoop value key block (map VInt xs) 0 EmptyString env
     | _ => Ok (inl (newError tok (typeName iter +:+ " is not iterable")), env)
     end);;
  match r with
  | inl v => ret v env
  | inr out =>
      let env := Delete value env in
      let env := if String.eqb key EmptyString then env else Delete key env in
      ret (VString out) env
  end.

(** Neither [InSection] nor [InDefine] is assigned anywhere in the
    repository. *)
Definition evalSectionStatement (tok : Token) (block : Block) (name : string)
    (env : Environment) : Result :=
  if negb (InExtends env) then
    ret (newError tok "section statement is only allowed in extends") env
  else if IsExtends env then
    ret (newError tok "section statement is only allowed with extends") env
  else if InSection env then
    ret (newError tok "section statement is not allowed in a section") env
  else
    '(content, env) <- evalBlock block env;;
    ret VNil (with_Sections
                (<[name := mkSectionContent tok name content]>
                   (Sections (ExtendsFrom env))) env).

Definition evalDefineStatement (tok : Token) (name : string) (content : Block)
    (env : Environment) : Result :=
  if InDefine env then
    ret (newError tok "nested defines are not allowed") env
  else
    match Sections (ExtendsFrom env) !! name with
    | Some section =>
        ret (sc_Content section)
            (with_Sections (delete name (Sections (ExtendsFrom env))) env)
    | None => evalBlock content env
    end.

Definition evalDotExpression (tok : Token) (left_ right_ : Ident)
    (env : Environment) : Result :=
  '(l, env) <- Eval_ (Identifier left_) env;;
  if isError l then ret l env else
  (* the struct itself, or the one a pointer points to *)
  let fields : Kind + (string -> option Value) :=
    match l with
    | VStruct _ _ _ fs => inr (fun name => token.assoc name fs)
    | VBuiltin b => inr (builtin_field w b)
    | VNilPtr _ _ => inl Invalid
    | _ => inl (kindOf l)
    end in
  match fields with
  | inl leftType =>
      ret (newError tok
             ("left side of dot expression must be a struct, got="
              +:+ kind_string leftType)) env
  | inr field =>
      match field (ident_Value right_) with
      | Some v =>
          if exported (ident_Value right_) then ret v env
          else Panic "reflect.Value.Interface: unexported field"
      | None =>
          ret (newError tok
                 ("field " +:+ ident_Value right_
                  +:+ " does not exist in struct " +:+ ident_Value left_)) env
      end
  end.

(** The loop of [evalIncludeStatement] over [vars.Pairs]: the values are
    evaluated in the caller's environment [env] and stored, unchecked, in
    the new one. *)
Fixpoint includeLoop (pairs : list (Node * Node)) (newEnv : Environment)
    (env : Environment) : Outcome (Environment * Environment) :=
  match pairs with
  | [] => Ok (newEnv, env)
  | (key, value) :: pairs' =>
      name <- String_ key;;
      '(v, env) <- Eval_ value env;;
      includeLoop pairs' (Set_ name v newEnv) env
  end.

Definition includeEnvironment (vars : Node) (tok : Token) (env : Environment)
    : Outcome ((Value + Environment) * Environment) :=
  let newEnv := NewEnvironment in
  match vars with
  | NilNode => Ok (inr newEnv, env)
  | MapLiteral _ pairs =>
      '(newEnv, env) <- includeLoop pairs newEnv env;;
      Ok (inr newEnv, env)
  | _ =>
      got <- TokenLiteral vars;;
      Ok (inl (newError tok ("vars in include must be a map, got=" +:+ got)),
          env)
  end.

Definition evalIncludeStatement (tok : Token) (file : string) (vars : Node)
    (env : Environment) : Result :=
  '(r, env) <- includeEnvironment vars tok env;;
  match r with
  | inl v => ret v env
  | inr newEnv =>
      lr <- internal.LoadFile w fuel file ∅ EmptyString Eval_ newEnv;;
      match internal.lr_err lr with
      | Some err => ret (VError err) env
      | None => ret (VString (internal.lr_out lr)) env
      end
  end.

(** The type switch of [Eval]. *)
Definition evalNode (node : Node) (env : Environment) : Result :=
  match node with
  | Program stmts => evalProgram stmts env
  | ExpressionStatement _ e => Eval_ e env
  | IntegerLiteral _ value => ret (VInt value) env
  | Boolean _ value => ret (nativeBoolToBooleanObject value) env
  | PrefixExpression tok operator r =>
      '(right_, env) <- Eval_ r env;;
      if isError right_ then ret right_ env else
      v <- evalPrefixExpression operator right_ tok;;
      ret v env
  | InfixExpression tok l operator r =>
      '(left_, env) <- Eval_ l env;;
      if isError left_ then ret left_ env else
      '(right_, env) <- Eval_ r env;;
      if isError right_ then ret right_ env else
      v <- evalInfixExpression operator left_ right_ tok;;
      ret v env
  | BlockStatement (mkBlock _ stmts) => evalStatements stmts env
  | IfExpression _ c consequence alt => evalIfExpression c consequence alt env
  | VarStatement _ name value =>
      '(val, env) <- Eval_ value env;;
      if isError val then ret val env
      else ret VNil (Set_ (ident_Value name) val env)
  | NilVarStatement => Panic "nil pointer dereference"
  | Identifier i => ret (evalIdentifier i env) env
  | CallExpression tok f arguments =>
      '(function, env) <- Eval_ f env;;
      if isError function then ret function env else
      '(args, env) <- evalExpressions arguments env;;
      match singleError args with
      | Some e => ret e env
      | None => v <- applyFunction function args tok;; ret v env
      end
  | StringLiteral tok value closed =>
      if negb closed then ret (newError tok "unclosed string literal") env
      else ret (VString value) env
  | ArrayLiteral _ elems =>
      '(elements, env) <- evalExpressions elems env;;
      match singleError elements with
      | Some e => ret e env
      | None => ret (VSlice elements) env
      end
  | IndexExpression tok l i =>
      '(left_, env) <- Eval_ l env;;
      if isError left_ then ret left_ env else
      '(index, env) <- Eval_ i env;;
      if isError index then ret index env else
      v <- evalIndexExpression left_ index tok;;
      ret v env
  | MapLiteral _ pairs => evalMapLiteral pairs env
  | ForExpression tok key value in_ block =>
      evalForExpression tok key value in_ block env
  | ExtendsStatement tok from => Ok (evalExtendsStatement tok from env)
  | SectionStatement tok block name => evalSectionStatement tok block name env
  | DefineStatement tok name content => evalDefineStatement tok name content env
  | DotExpression tok l r => evalDotExpression tok l r env
  | IncludeStatement tok file vars => evalIncludeStatement tok file vars env
  | HtmlLiteral _ value => ret (VString value) env
  | NilNode => ret VNil env
  end.

End Recursive.

(** [Eval] ([Eval] alone is reserved in Rocq): one unit of fuel per call. *)
Fixpoint Eval_ (w : World) (fuel : nat) (node : Node) (env : Environment)
    : Result :=
  match fuel with
  | O => OutOfFuel
  | S fuel' => evalNode w fuel' (Eval_ w fuel') node env
  end.

End evaluator.

(** ** The driver

    [Render] builds the variables, calls [LoadFile] on a new environment and
    panics on an error; [render] is that call, with the writer starting
    empty. *)
Definition render (w : World) (fuel : nat) (file : string)
    (vars : gmap string Value) : Outcome internal.LoadResult :=
  internal.LoadFile w fuel file vars EmptyString (evaluator.Eval_ w fuel)
                    NewEnvironment.

(** ** package lamb: setting the engine up *)

Module lamb.

(** [os.Setenv] refuses a value with a [NUL] byte; [Init] drops the error. *)
Fixpoint has_nul (s : string) : bool :=
  match s with
  | EmptyString => false
  | String c s' => Ascii.eqb c NUL || has_nul s'
  end.

Definition Setenv (key value : string) (environ : gmap string string)
    : gmap string string :=
  if has_nul value then environ else <[key := value]> environ.

Section Init.

(** [time.ParseDuration], giving the nanoseconds, and [Duration.String]. *)
Variable ParseDuration : string -> option Z.
Variable DurationString : Z -> string.

(** [Init]: the returned error and the process environment it leaves.
    [config] and the maps below it are [map[interface{}]interface{}]. *)
Definition Init (config : list (Value * Value))
    (environ : gmap string string) : option string * gmap string string :=
  match mapLookup config (VString "lamb") with
  | None | Some VNil => (Some "lamb: missing config", environ)
  | Some (VMap lambConfig) =>
      match mapLookup lambConfig (VString "dir") with
      | None => (Some "lamb: missing config: dir", environ)
      | Some (VString dir) =>
          match mapLookup lambConfig (VString "cache") with
          | None => (None, Setenv "GOVEL_LAMB_BASE_DIR" dir environ)
          | Some (VMap cacheMap) =>
              let '(dir', dirExists) :=
                match mapLookup cacheMap (VString "dir") with
                | Some v => (v, true)
                | None => (VNil, false)
                end in
              match dir' with
              | VString d =>
                  let d := if negb dirExists then ".cache" else d in
                  match mapLookup cacheMap (VString "time") with
                  | None => (Some "lamb: cache: missing config: time", environ)
                  | Some (VString cacheTime) =>
                      match ParseDuration cacheTime with
                      | None =>
                          (Some "lamb: cache: time must be a valid duration",
                           environ)
                      | Some cacheTimeDuration =>
                          let environ := Setenv "GOVEL_LAMB_CACHE_DIR" d environ in
                          let environ :=
                            Setenv "GOVEL_LAMB_CACHE_TIME"
                                   (DurationString cacheTimeDuration) environ in
                          (None, Setenv "GOVEL_LAMB_BASE_DIR" dir environ)
                      end
                  | Some _ => (Some "lamb: cache: time must be a string", environ)
                  end
              | _ => (Some "lamb: cache: dir must be a string", environ)
              end
          | Some _ =>
              (Some "lamb: cache must be a map[interface{}]interface{}", environ)
          end
      | Some _ => (Some "lamb: dir must be a string", environ)
      end
  | Some v =>
      (Some ("lamb: config must be a map[interface{}]interface{} but got "
             +:+ typeName v), environ)
  end.

End Init.

(** [LoadLambFuntions] adds to the registry [evaluator.Builtins]; [funcs]
    lists the entries of the Go map in the order its [range] visits them.
    The result is the registry the call leaves and the message of its
    panic, if it panics. *)
Fixpoint LoadLambFuntions {B : Type} (funcs : list (string * B))
    (Builtins : gmap string B) : gmap string B * option string :=
  match funcs with
  | [] => (Builtins, None)
  | (k, f) :: funcs' =>
      match Builtins !! k with
      | Some _ =>
          (Builtins, Some ("lamb: function " +:+ k +:+ " already exists"))
      | None => LoadLambFuntions funcs' (<[k := f]> Builtins)
      end
  end.

End lamb.

Import evaluator.

(** * Notions used to state the properties *)

Definition min_int64 : Z := - 2 ^ 63.

(** The values of Go's [int]. *)
Definition is_int (z : Z) : Prop := min_int64 <= z <= parser.max_int64.

(** A host that offers the given template files (path and content) and
    nothing else: no cache entry, no builtin of its own. *)
Definition plain_host (fs : list (string * string)) : World :=
  mkWorld EmptyString ".cache"
          (fun f => token.assoc f fs)
          (fun f => "open " +:+ f +:+ ": no such file or directory")
          (fun _ => None) (fun _ => None) (fun _ _ => None)
          (fun _ => EmptyString).

(** The operands [and] treats as absent or false. *)
Definition falsy (v : Value) : bool := nilPtrOrInvalid v || isFalse v.

(** A string without a dot. *)
Fixpoint dotless (s : string) : bool :=
  match s with
  | EmptyString => true
  | String c s' => negb (Ascii.eqb c ".") && dotless s'
  end.

(** The elements of a sequence value. *)
Definition elements (v : Value) : list Value :=
  match sliceElements v with
  | Some xs => xs
  | None => []
  end.

(** [fold] of [+:+] over the pieces of an output. *)
Definition concatenation (l : list string) : string :=
  fold_right String.append EmptyString l.

(** The environment [env_i] in which an iteration of [for key, value in xs]
    runs the body, in the words of the specification: [key] is bound to the
    index [i] and [value] to the element, everything else is as in [env]. *)
Definition bound_for (key value : string) (i : Z) (elem : Value)
    (env env_i : Environment) : Prop :=
  store env_i !! key = Some (VInt i)
  /\ store env_i !! value = Some elem
  /\ (forall name, name <> key -> name <> value ->
        store env_i !! name = store env !! name)
  /\ env_i = with_store (store env_i) env.

(** [body_runs ev key value block i xs env outs env']: starting in [env],
    the body [block] is evaluated once per element of [xs], in order, the
    first with index [i]; each run returns a string, [outs] lists them in
    order, and the last run leaves [env']. *)
Inductive body_runs (ev : EvalFn) (key value : string) (block : ast.Block)
    : Z -> list Value -> Environment -> list string -> Environment -> Prop :=
| body_runs_nil (i : Z) (env : Environment) :
    body_runs ev key value block i [] env [] env
| body_runs_cons (i : Z) (elem : Value) (elems : list Value)
    (env env_i env' env'' : Environment) (s : string) (outs : list string) :
    bound_for key value i elem env env_i ->
    ev (ast.BlockStatement block) env_i = Ok (VString s, env') ->
    body_runs ev key value block (i + 1) elems env' outs env'' ->
    body_runs ev key value block i (elem :: elems) env (s :: outs) env''.

(** A string-literal key of a map literal, with the node paired to it. *)
Definition Keyed : Type := Token * string * bool * ast.Node.

Definition key_node (kv : Keyed) : ast.Node :=
  let '(tok, value, closed, _) := kv in ast.StringLiteral tok value closed.

(** The name [include] binds for the key: the literal of its token. *)
Definition key_name (kv : Keyed) : string :=
  let '(tok, _, _, _) := kv in Literal tok.

Definition keyed_pair (kv : Keyed) : ast.Node * ast.Node :=
  (key_node kv, kv.2).

(** [values_evaluated ev ns env vs env']: the nodes [ns] are evaluated in
    order, starting in [env]; [vs] are their results (errors included) and
    [env'] is the environment after the last. *)
Inductive values_evaluated (ev : EvalFn)
    : list ast.Node -> Environment -> list Value -> Environment -> Prop :=
| values_evaluated_nil (env : Environment) :
    values_evaluated ev [] env [] env
| values_evaluated_cons (n : ast.Node) (ns : list ast.Node)
    (env env' env'' : Environment) (v : Value) (vs : list Value) :
    ev n env = Ok (v, env') ->
    values_evaluated ev ns env' vs env'' ->
    values_evaluated ev (n :: ns) env (v :: vs) env''.

(** A string that starts with a quote character, as the literal of every
    [STRING] token does, and a string of identifier letters. *)
Definition quoted (s : string) : bool :=
  match s with
  | String c _ => Ascii.eqb c DQUOTE || Ascii.eqb c SQUOTE
  | EmptyString => false
  end.

Fixpoint letters (s : string) : bool :=
  match s with
  | EmptyString => true
  | String c s' => lexer.isLetter c && letters s'
  end.

(** The path [LoadFile] reads for a template name. *)
Definition template_path (w : World) (fileName : string) : string :=
  base_dir w +:+ internal.ReplaceAll fileName "." "/" +:+ ".lamb.html".

(** [fails_at ev stmts env msg env']: evaluated in order from [env], the
    statements before some statement of [stmts] return no error, and that
    statement returns the error [msg], leaving [env']. *)
Inductive fails_at (ev : EvalFn)
    : list ast.Node -> Environment -> string -> Environment -> Prop :=
| fails_here (s : ast.Node) (rest : list ast.Node) (env env' : Environment)
    (msg : string) :
    ev s env = Ok (VError msg, env') ->
    fails_at ev (s :: rest) env msg env'
| fails_later (s : ast.Node) (rest : list ast.Node)
    (env env1 env' : Environment) (r : Value) (msg : string) :
    ev s env = Ok (r, env1) -> isError r = false ->
    fails_at ev rest env1 msg env' ->
    fails_at ev (s :: rest) env msg env'.

(** The bytes the lexer has not read yet. *)
Definition unread (l : lexer.Lexer) : nat :=
  (String.length (lexer.input l) - lexer.readPosition l)%nat.

(** The lexer's invariant: [position] never passes [readPosition], and a
    current byte other than [NUL] is the byte of the input at [position]. *)
Definition lexer_ok (l : lexer.Lexer) : Prop :=
  (lexer.position l <= lexer.readPosition l)%nat
  /\ (lexer.ch l <> NUL ->
      String.get (lexer.position l) (lexer.input l) = Some (lexer.ch l)).

(** What holds of a token and the lexer that has produced it: the
    invariant, and quotes around the literal of a [STRING] token. *)
Definition token_ok (r : Token * lexer.Lexer) : Prop :=
  lexer_ok r.2 /\ (Type_ r.1 = STRING -> quoted (Literal r.1) = true).

(** An anchor token for nodes built by hand. *)
Definition at_ (line col : Z) : Token := mkToken NOTYPE EmptyString col line.

(** What an evaluation leaves as it is in an environment: the enclosing
    scope, the file name and the flags [IsExtends], [InSection] and
    [InDefine]; [InExtends] is only ever raised. *)
Definition same_frame (env env' : Environment) : Prop :=
  outer env' = outer env
  /\ FileName env' = FileName env
  /\ IsExtends env' = IsExtends env
  /\ InSection env' = InSection env
  /\ InDefine env' = InDefine env
  /\ (InExtends env = true -> InExtends env' = true).

(** What the value of a statement adds to the output of its block. *)
Definition rendered (w : World) (v : Value) : string :=
  match v with
  | VNil => EmptyString
  | _ => fmtV w v
  end.

(** The environment in which [for key, value in m] over a map runs its
    body for the key [k] ([key] is empty in the form with one name). *)
Definition bind_key (key value : string) (k : Value) (env : Environment)
    : Environment :=
  if String.eqb key EmptyString then Set_ value k env
  else Set_ key k (Set_ value k env).

(** [key_runs ev key value block keys env outs env']: starting in [env],
    the body is evaluated once per element of [keys], in order, in the
    environment [bind_key] gives; each run returns a string, [outs] lists
    them, and the last run leaves [env']. *)
Inductive key_runs (ev : EvalFn) (key value : string) (block : ast.Block)
    : list Value -> Environment -> list string -> Environment -> Prop :=
| key_runs_nil (env : Environment) :
    key_runs ev key value block [] env [] env
| key_runs_cons (k : Value) (keys : list Value)
    (env env' env'' : Environment) (s : string) (outs : list string) :
    ev (ast.BlockStatement block) (bind_key key value k env)
      = Ok (VString s, env') ->
    key_runs ev key value block keys env' outs env'' ->
    key_runs ev key value block (k :: keys) env (s :: outs) env''.

(** A template without code: no [NUL] byte and no opening [{?]. *)
Fixpoint html_only (s : string) : bool :=
  match s with
  | EmptyString => true
  | String c s' =>
      negb (Ascii.eqb c NUL)
      && negb (Ascii.eqb c "{"
               && match s' with
                  | String d _ => Ascii.eqb d "?"
                  | EmptyString => false
                  end)
      && html_only s'
  end.

(** The line and column the lexer is at after the byte [c], from the line
    and column before it: a newline starts a line at column 0, a tab
    counts for four columns. *)
Definition advance (c : ascii) (pos : Z * Z) : Z * Z :=
  if Ascii.eqb c LF then (pos.1 + 1, 0)
  else if Ascii.eqb c TAB then (pos.1, pos.2 + 4)
  else (pos.1, pos.2 + 1).

(** One [HTML] token per byte of [s], read from the position [pos] on. *)
Fixpoint html_tokens (pos : Z * Z) (s : string) : list Token :=
  match s with
  | EmptyString => []
  | String c s' =>
      let pos' := advance c pos in
      mkToken HTML (string_of_byte c) pos'.2 pos'.1 :: html_tokens pos' s'
  end.

(** The position after the whole of [s], and the one the lexer reports at
    the end of the input (there column 0 is turned into column 1). *)
Fixpoint position_after (pos : Z * Z) (s : string) : Z * Z :=
  match s with
  | EmptyString => pos
  | String c s' => position_after (advance c pos) s'
  end.

Definition end_token (s : string) : Token :=
  let pos := position_after (1, 0) s in
  mkToken EOF EmptyString (if pos.2 =? 0 then 1 else pos.2) pos.1.

(** The statement the parser builds from an [HTML] token. *)
Definition html_statement (tok : Token) : ast.Node :=
  ast.ExpressionStatement tok (ast.StringLiteral tok (Literal tok) false).

(** The number of newlines among the first [n] bytes of [s]. *)
Fixpoint newlines (s : string) (n : nat) : Z :=
  match n, s with
  | S n', String c s' => (if Ascii.eqb c LF then 1 else 0) + newlines s' n'
  | _, _ => 0
  end.

(** The lexer after [k] calls of [NextToken]. *)
Fixpoint lexer_after (k : nat) (l : lexer.Lexer) : lexer.Lexer :=
  match k with
  | O => l
  | S k' => lexer_after k' (lexer.NextToken l).2
  end.

(** The bytes the lexer still has to turn into tokens: the unread ones and
    the current one, unless that is [NUL]. *)
Definition pending (l : lexer.Lexer) : nat :=
  (unread l + (if Ascii.eqb (lexer.ch l) NUL then 0 else 1))%nat.

(** The name a composition statement carries: the parent of [extends],
    the file of [include], the name of [section] and of [define]. *)
Definition name_of (n : ast.Node) : option string :=
  match n with
  | ast.ExtendsStatement _ from => Some from
  | ast.IncludeStatement _ file _ => Some file
  | ast.SectionStatement _ _ name => Some name
  | ast.DefineStatement _ name _ => Some name
  | _ => None
  end.

(** The lexer in HTML mode on the byte [c], between [pre] and [rest], and
    the lexer at the end of the input [s]. *)
Definition html_state (pre : string) (c : ascii) (rest : string)
    (pos : Z * Z) : lexer.Lexer :=
  lexer.mkLexer (pre +:+ String c rest) (String.length pre)
                (S (String.length pre)) pos.1 pos.2 c false.

Definition end_state (s : string) (p : nat) (pos : Z * Z) : lexer.Lexer :=
  lexer.mkLexer s p (String.length s) pos.1 (if pos.2 =? 0 then 1 else pos.2)
                NUL false.

(** The parser with the token of the byte [c] as its current token. *)
Definition html_parser (pre : string) (c : ascii) (rest : string)
    (pos : Z * Z) : parser.Parser :=
  let next := lexer.NextToken (lexer.readChar (html_state pre c rest pos)) in
  parser.mkParser next.2 [] (mkToken HTML (string_of_byte c) pos.2 pos.1) next.1.

(** What a call of [NextToken] achieves: the token is [EOF], or fewer
    bytes are pending than [m]. *)
Definition advances (m : nat) (r : Token * lexer.Lexer) : Prop :=
  Type_ r.1 = EOF \/ (pending r.2 < m)%nat.

(** * Properties *)

(** ** Integers *)

Lemma wrap_is_int (z : Z) : is_int (wrap z).
Proof.
  unfold is_int, wrap, min_int64, parser.max_int64.
  pose proof (Z.mod_pos_bound (z + 2 ^ 63) (2 ^ 64)). lia.
Qed.

Lemma wrap_small (z : Z) : is_int z -> wrap z = z.
Proof.
  unfold is_int, wrap, min_int64, parser.max_int64. intros H.
  rewrite Z.mod_small by lia. lia.
Qed.

Lemma quot_is_int (l r : Z) :
  is_int l -> is_int r -> r <> 0 -> ~ (l = min_int64 /\ r = -1) ->
  is_int (l ÷ r).
Proof.
  unfold is_int, min_int64, parser.max_int64. intros Hl Hr Hr0 Hov.
  assert (Habs : Z.abs (l ÷ r) <= Z.abs l).
  { rewrite <- Z.quot_abs by lia.
    apply Z.quot_le_upper_bound; [lia|].
    nia. }
  destruct (Z.eq_dec l (- 2 ^ 63)) as [->|Hl'].
  - destruct (Z.eq_dec r 1) as [->|Hr1].
    + rewrite Z.quot_1_r. lia.
    + assert (Hr2 : 2 <= Z.abs r) by lia.
      assert (Z.abs (- 2 ^ 63 ÷ r) <= 2 ^ 62).
      { rewrite <- Z.quot_abs by lia.
        apply Z.quot_le_upper_bound; [lia|].
        change (Z.abs (- 2 ^ 63)) with (2 * 2 ^ 62). nia. }
      lia.
  - lia.
Qed.

(** C10 (as amended).  On 64-bit integers [l] and [r] with [r <> 0], [l / r]
    returns the quotient truncated towards zero, reduced to 64 bits: it is
    the mathematical quotient except for the most negative integer divided
    by [-1], which gives the dividend back.  The divisor must not be zero:
    on a zero divisor the evaluator panics, it returns no error value. *)
Theorem division_truncates (lv rv : Value) (l r : Z) (t : Token) :
  isNumber lv = (l, true) -> isNumber rv = (r, true) ->
  is_int l -> is_int r -> r <> 0 ->
  evalInfixExpression "/" lv rv t = Ok (VInt (wrap (l ÷ r)))
  /\ (~ (l = min_int64 /\ r = -1) -> wrap (l ÷ r) = l ÷ r)
  /\ (l = min_int64 -> r = -1 -> wrap (l ÷ r) = l)
  /\ evalInfixExpression "/" lv (VInt 0) t
     = Panic "runtime error: integer divide by zero".
Proof.
  intros Hl Hr Il Ir Hr0.
  unfold evalInfixExpression. rewrite Hl, Hr. cbn [andb isNumber].
  unfold evalIntegerInfixExpression. cbn [String.eqb Ascii.eqb Bool.eqb].
  destruct (Z.eqb_spec r 0) as [|_]; [contradiction|].
  repeat split.
  - intros Hov. apply wrap_small, quot_is_int; assumption.
  - intros -> ->. reflexivity.
Qed.

Lemma division_truncates_witness :
  is_int 7 /\ is_int (-2) /\ -2 <> 0 /\
  evalInfixExpression "/" (VInt 7) (VSized I64 (-2)) (at_ 1 1) = Ok (VInt (-3)).
Proof.
  assert (I7 : is_int 7) by (unfold is_int, min_int64, parser.max_int64; lia).
  assert (I2 : is_int (-2)) by (unfold is_int, min_int64, parser.max_int64; lia).
  assert (N2 : -2 <> 0) by lia.
  split; [exact I7|]. split; [exact I2|]. split; [exact N2|].
  exact (proj1 (division_truncates (VInt 7) (VSized I64 (-2)) 7 (-2) (at_ 1 1)
                  eq_refl eq_refl I7 I2 N2)).
Defined.

(** C10 as stated fails at the most negative integer divided by [-1]: the
    truncated quotient is [2^63], the evaluator returns [-2^63]. *)
Lemma division_overflow_counterexample :
  is_int min_int64 /\ is_int (-1) /\ -1 <> 0 /\
  evalInfixExpression "/" (VInt min_int64) (VInt (-1)) (at_ 1 1)
    <> Ok (VInt (min_int64 ÷ -1)).
Proof.
  repeat split; try (unfold is_int, min_int64, parser.max_int64; lia).
  vm_compute. discriminate.
Qed.

(** ** Type names *)

Lemma qualified_name_dot (p t s : string) :
  dotless s = true -> String.eqb (p +:+ "." +:+ t) s = false.
Proof.
  revert s. induction p as [|a p IH]; intros [|c s] Hs; try reflexivity.
  - change (Ascii.eqb "." c && String.eqb t s = false).
    cbn [dotless] in Hs. apply andb_prop in Hs as [Hc _].
    rewrite Ascii.eqb_sym. apply negb_true_iff in Hc. rewrite Hc. reflexivity.
  - change (Ascii.eqb a c && String.eqb (p +:+ "." +:+ t) s = false).
    cbn [dotless] in Hs. apply andb_prop in Hs as [_ Hs].
    rewrite (IH s Hs). apply andb_false_r.
Qed.

Lemma typeName_int (v : Value) :
  String.eqb (typeName v) "int" = match v with VInt _ => true | _ => false end.
Proof.
  destruct v as [| | [] | | | | | | | | ? ? [] |]; try reflexivity;
    cbn [typeName]; try (apply qualified_name_dot; reflexivity);
    cbn; apply andb_false_l.
Qed.

(** ** Prefix minus *)

(** C7 (as amended).  Unary minus is defined on the values of Go type [int]
    and on no other: it returns the negation reduced to 64 bits.  Every
    other operand, the integers of the widths [int8] to [int64] among them,
    gives the error [unknown operator: -T], [T] the operand's type. *)
Theorem minus_on_int_only (v : Value) (t : Token) :
  evalMinusPrefixOperatorExpression v t =
    match v with
    | VInt n => Ok (VInt (wrap (- n)))
    | _ => Ok (newError t ("unknown operator: -" +:+ typeName v))
    end.
Proof.
  unfold evalMinusPrefixOperatorExpression. rewrite typeName_int.
  destruct v; reflexivity.
Qed.

(** C7 as stated fails on the 64-bit integer that [len] returns: the
    template [-len([5])] renders the error, not [-1]. *)
Lemma minus_len_counterexample :
  lenBuiltIn [VSlice [VInt 5]] = Ok (VSized I64 1)
  /\ isNumber (VSized I64 1) = (1, true)
  /\ evalPrefixExpression "-" (VSized I64 1) (at_ 1 4)
     = Ok (VError "1: 4: unknown operator: -int64")
  /\ (internal.lr_out <$>
        match render (plain_host [("t.lamb.html", "{? -len([5]) ?}")]) 20
                     "t" ∅ with
        | Ok lr => Some lr
        | _ => None
        end)
     = Some "t.lamb.html: 1: 4: unknown operator: -int64".
Proof. repeat split; vm_compute; reflexivity. Qed.

(** ** The operator [and] *)

(** C5 (as amended).  When the left operand evaluates to a value that is
    not an error, the right operand is evaluated as well, whatever the left
    value is, [false] and nil included: there is no short-circuit, and the
    environment is the one the right operand leaves.  An error of the right
    operand is the result.  Otherwise two integers give the error
    [unknown operator: int and int]; otherwise, when the left operand is
    not [false], the result is [true] if neither operand is nil, a nil
    pointer or [false], and [false] if one is. *)
Theorem and_evaluates_both (w : World) (fuel : nat) (t : Token)
    (ln rn : ast.Node) (env env1 env2 : Environment) (lv rv : Value) :
  Eval_ w fuel ln env = Ok (lv, env1) -> isError lv = false ->
  Eval_ w fuel rn env1 = Ok (rv, env2) ->
  exists v,
    Eval_ w (S fuel) (ast.InfixExpression t ln "and" rn) env = Ok (v, env2)
    /\ (isError rv = true -> v = rv)
    /\ (isError rv = false ->
        (isNumber lv).2 && (isNumber rv).2 = true ->
        v = newError t "unknown operator: int and int")
    /\ (isError rv = false ->
        (isNumber lv).2 && (isNumber rv).2 = false ->
        lv <> VBool false ->
        v = VBool (negb (falsy lv) && negb (falsy rv))).
Proof.
  intros Hl Hle Hr.
  exists (if isError rv then rv
          else if (isNumber lv).2 && (isNumber rv).2
               then newError t "unknown operator: int and int"
               else VBool (negb (nilPtrOrInvalid lv) && negb (falsy rv))).
  split; [|split; [|split]].
  - cbn [Eval_ evalNode].
    rewrite Hl. cbn [obind]. rewrite Hle, Hr. cbn [obind].
    destruct (isError rv) eqn:Hre; [reflexivity|].
    unfold evalInfixExpression.
    destruct (isNumber lv) as [l bl] eqn:Hnl, (isNumber rv) as [r br] eqn:Hnr.
    cbn [snd].
    destruct (bl && br) eqn:Hb; [reflexivity|].
    cbn [String.eqb Ascii.eqb Bool.eqb obind].
    unfold falsy.
    destruct (nilPtrOrInvalid lv), (isFalse rv), (nilPtrOrInvalid rv);
      reflexivity.
  - intros ->. reflexivity.
  - intros -> ->. reflexivity.
  - intros -> -> Hnf.
    assert (Hf : isFalse lv = false)
      by (destruct lv as [| | | [] | | | | | | | |]; try reflexivity;
          congruence).
    unfold falsy. rewrite Hf, orb_false_r. reflexivity.
Qed.

Lemma and_evaluates_both_witness :
  let w := plain_host [] in
  let t := at_ 1 1 in
  let x := ast.Identifier (ast.mkIdent (at_ 1 14) "x") in
  Eval_ w 1 (ast.Boolean t false) NewEnvironment
    = Ok (VBool false, NewEnvironment)
  /\ isError (VBool false) = false
  /\ Eval_ w 1 x NewEnvironment
     = Ok (VError "1: 14: identifier not found: x", NewEnvironment)
  /\ Eval_ w 2 (ast.InfixExpression t (ast.Boolean t false) "and" x)
           NewEnvironment
     = Ok (VError "1: 14: identifier not found: x", NewEnvironment).
Proof.
  intros w t x.
  assert (H1 : Eval_ w 1 (ast.Boolean t false) NewEnvironment
               = Ok (VBool false, NewEnvironment)) by reflexivity.
  assert (H2 : Eval_ w 1 x NewEnvironment
               = Ok (VError "1: 14: identifier not found: x", NewEnvironment))
    by reflexivity.
  split; [exact H1|]. split; [reflexivity|]. split; [exact H2|].
  destruct (and_evaluates_both w 1 t _ _ _ _ _ _ _ H1 eq_refl H2)
    as (v & He & Hv & _).
  rewrite He, (Hv eq_refl). reflexivity.
Defined.

(** C5 as stated fails on two truthy integers, which give an error, and on
    a nil left operand, after which the right operand is still evaluated
    (here to the error of an unbound name). *)
Lemma and_counterexample :
  evalInfixExpression "and" (VInt 1) (VInt 2) (at_ 1 6)
    = Ok (VError "1: 6: unknown operator: int and int")
  /\ (let w := plain_host [] in
      let t := at_ 1 1 in
      let nil_ := ast.IfExpression t (ast.Boolean t false)
                                   (ast.mkBlock t []) None in
      let x := ast.Identifier (ast.mkIdent (at_ 1 9) "x") in
      Eval_ w 3 nil_ NewEnvironment = Ok (VNil, NewEnvironment)
      /\ Eval_ w 3 (ast.InfixExpression t nil_ "and" x) NewEnvironment
         = Ok (VError "1: 9: identifier not found: x", NewEnvironment)).
Proof. repeat split; vm_compute; reflexivity. Qed.

(** ** Indexing *)

Lemma kindOf_slice (v : Value) :
  kindOf v = KSlice -> (exists xs, v = VSlice xs) \/ (exists xs, v = VIntSlice xs).
Proof.
  destruct v as [| | [] | | | | | | | | ? ? [] |]; try discriminate; eauto.
Qed.

Lemma kindOf_int (v : Value) : kindOf v = KInt -> exists i, v = VInt i.
Proof.
  destruct v as [| | [] | | | | | | | | ? ? [] |]; try discriminate; eauto.
Qed.

Lemma kindOf_map (v : Value) : kindOf v = KMap -> exists m, v = VMap m.
Proof.
  destruct v as [| | [] | | | | | | | | ? ? [] |]; try discriminate; eauto.
Qed.




(** ** Nesting of the composition forms *)

(** C6, evaluated on the code.  After an [extends] has run, a second one is
    rejected.  A [section] inside the block of a [section], and a [define]
    inside the content of a [define], are not: the flags [InSection] and
    [InDefine] that guard them are never set, so the inner form takes
    effect and the outer one returns without an error. *)
Theorem nesting_of_section_and_define (w : World) (fuel : nat)
    (t1 t2 t3 : Token) (p q a b : string) :
  let env1 := (evalExtendsStatement t1 p NewEnvironment).2 in
  let parent := with_IsExtends true NewEnvironment in
  evalExtendsStatement t2 q env1
    = (newError t2 "nested extends are not allowed", env1)
  /\ Eval_ w (S (S (S (S fuel))))
       (ast.SectionStatement t2
          (ast.mkBlock t2 [ast.SectionStatement t3 (ast.mkBlock t3 []) b]) a)
       env1
     = Ok (VNil,
           with_Sections
             (<[a := mkSectionContent t2 a (VString EmptyString)]>
                (<[b := mkSectionContent t3 b (VString EmptyString)]> ∅))
             env1)
  /\ Eval_ w (S (S (S (S fuel))))
       (ast.DefineStatement t2 a
          (ast.mkBlock t2 [ast.DefineStatement t3 b (ast.mkBlock t3 [])]))
       parent
     = Ok (VString EmptyString, parent).
Proof.
  intros env1 parent. repeat split.
Qed.

(** The same on a template: the inner [section('b')] is stored among the
    sections, and no statement evaluates to the error of a nested
    section. *)
Lemma nested_section_template :
  let src := "{? extends('p') ?}{? section('a') ?}{? section('b') ?}{? endsection ?}{? endsection ?}" in
  let w := plain_host [] in
  exists e s rest env1 env2,
    parser.parse 20 src = Ok (ast.Program (e :: s :: rest), [])
    /\ Eval_ w 20 e NewEnvironment = Ok (VNil, env1)
    /\ Eval_ w 20 s env1 = Ok (VNil, env2)
    /\ sc_Content <$> (Sections (ExtendsFrom env2) !! "'b'")
       = Some (VString EmptyString).
Proof.
  intros src w. do 5 eexists.
  split; [vm_compute; reflexivity|].
  split; [vm_compute; reflexivity|].
  split; vm_compute; reflexivity.
Qed.

(** ** Iteration *)

Lemma append_assoc (a b c : string) : (a +:+ b) +:+ c = a +:+ (b +:+ c).
Proof.
  induction a as [|x a IH]; [reflexivity|].
  change (String x ((a +:+ b) +:+ c) = String x (a +:+ (b +:+ c))).
  now f_equal.
Qed.

Lemma append_empty_r (a : string) : a +:+ EmptyString = a.
Proof.
  induction a as [|x a IH]; [reflexivity|].
  change (String x (a +:+ EmptyString) = String x a). now f_equal.
Qed.

Lemma eqb_empty_false (s : string) :
  s <> EmptyString -> String.eqb s EmptyString = false.
Proof. intros H. now apply String.eqb_neq. Qed.

Lemma bound_for_Set (key value : string) (i : Z) (elem : Value)
    (env : Environment) :
  key <> value ->
  bound_for key value i elem env (Set_ key (VInt i) (Set_ value elem env)).
Proof.
  intros Hkv. unfold bound_for, Set_. destruct env; cbn.
  repeat split.
  - apply lookup_insert_eq.
  - rewrite lookup_insert_ne by congruence. apply lookup_insert_eq.
  - intros name Hk Hv. rewrite !lookup_insert_ne by congruence. reflexivity.
Qed.

Lemma bound_for_unique (key value : string) (i : Z) (elem : Value)
    (env env_i : Environment) :
  bound_for key value i elem env env_i ->
  env_i = Set_ key (VInt i) (Set_ value elem env).
Proof.
  intros (Hk & Hv & Hrest & Heq). rewrite Heq.
  unfold Set_, with_store. destruct env; cbn in *.
  f_equal. apply map_eq. intros name.
  destruct (decide (name = key)) as [->|Hnk].
  - rewrite lookup_insert_eq. exact Hk.
  - rewrite lookup_insert_ne by congruence.
    destruct (decide (name = value)) as [->|Hnv].
    + rewrite lookup_insert_eq. exact Hv.
    + rewrite lookup_insert_ne by congruence. now apply Hrest.
Qed.

Lemma body_runs_length (ev : EvalFn) (key value : string) (block : ast.Block)
    (i : Z) (xs : list Value) (env env' : Environment) (outs : list string) :
  body_runs ev key value block i xs env outs env' -> length outs = length xs.
Proof. induction 1; cbn; congruence. Qed.

Lemma forSliceLoop_runs (ev : EvalFn) (key value : string) (block : ast.Block) :
  key <> EmptyString ->
  forall xs i out env outs env',
    body_runs ev key value block i xs env outs env' ->
    forSliceLoop ev value key block xs i out env
    = Ok (inr (out +:+ concatenation outs), env').
Proof.
  intros Hk xs i out env outs env' H. revert out.
  induction H as [i env | i elem elems env env_i env' env'' s outs Hb He _ IH];
    intros out.
  - cbn. now rewrite append_empty_r.
  - cbn [forSliceLoop]. rewrite (eqb_empty_false _ Hk).
    rewrite <- (bound_for_unique _ _ _ _ _ _ Hb).
    unfold evalBlock. rewrite He. cbn [obind isError].
    rewrite IH. cbn [concatenation fold_right]. now rewrite append_assoc.
Qed.

Lemma forSliceLoop_completes (ev : EvalFn) (key value : string)
    (block : ast.Block) :
  key <> EmptyString -> key <> value ->
  forall xs i out env out' env',
    forSliceLoop ev value key block xs i out env = Ok (inr out', env') ->
    exists outs,
      body_runs ev key value block i xs env outs env'
      /\ out' = out +:+ concatenation outs.
Proof.
  intros Hk Hkv xs. induction xs as [|elem elems IH]; intros i out env out' env'.
  - cbn. intros [= <- <-]. exists []. split; [constructor|].
    cbn. now rewrite append_empty_r.
  - cbn [forSliceLoop]. rewrite (eqb_empty_false _ Hk). unfold evalBlock.
    destruct (ev _ _) as [[res env1]| |] eqn:He; cbn [obind]; try discriminate.
    destruct (isError res) eqn:Hres; [discriminate|].
    destruct res; try discriminate.
    intros Hloop. apply IH in Hloop as (outs & Hruns & ->).
    exists (s :: outs). split.
    + econstructor; [apply (bound_for_Set _ _ _ _ _ Hkv) | exact He | exact Hruns].
    + cbn [concatenation fold_right]. now rewrite append_assoc.
Qed.

(** C8 (as amended).  In [for key, value in xs], with two distinct names and
    [xs] a sequence of [n] elements, the loop returns a string exactly when
    every run of the body does: then the body has been evaluated [n] times,
    run [i] with [key] bound to [i] and [value] to [xs[i]], the result is
    the concatenation of the runs' strings in order, and both names are
    absent from the store afterwards. *)
Theorem for_over_sequence (w : World) (fuel : nat) (tok : Token)
    (key value : string) (in_ : ast.Node) (block : ast.Block)
    (env env1 : Environment) (xs : Value) :
  key <> EmptyString -> key <> value ->
  Eval_ w fuel in_ env = Ok (xs, env1) -> kindOf xs = KSlice ->
  forall out env',
    Eval_ w (S fuel) (ast.ForExpression tok key value in_ block) env
      = Ok (VString out, env')
    <-> exists outs envn,
          body_runs (Eval_ w fuel) key value block 0 (elements xs) env1
                    outs envn
          /\ length outs = length (elements xs)
          /\ out = concatenation outs
          /\ env' = Delete key (Delete value envn)
          /\ store env' !! key = None
          /\ store env' !! value = None.
Proof.
  intros Hk Hkv Hin Hkind out env'.
  assert (Hloop : Eval_ w (S fuel) (ast.ForExpression tok key value in_ block) env
          = ('(r, env) <- forSliceLoop (Eval_ w fuel) value key block
                            (elements xs) 0 EmptyString env1;;
             match r with
             | inl v => ret v env
             | inr out => ret (VString out) (Delete key (Delete value env))
             end)).
  { cbn [Eval_ evalNode]. unfold evalForExpression. rewrite Hin. cbn [obind].
    rewrite (eqb_empty_false _ Hk).
    destruct (kindOf_slice _ Hkind) as [[ys ->]|[ys ->]]; reflexivity. }
  rewrite Hloop. clear Hloop. split.
  - destruct (forSliceLoop _ _ _ _ _ _ _ _) as [[[v|o] envn]| |] eqn:Hl;
      cbn [obind ret]; try discriminate.
    + intros [= -> <-].
      (* the early return is an error, never a string *)
      exfalso. clear -Hl. revert Hl.
      generalize (elements xs) 0 EmptyString env1.
      intros l. induction l as [|elem elems IH]; intros i o e; cbn [forSliceLoop].
      * discriminate.
      * destruct (String.eqb key EmptyString);
          (destruct (evalBlock _ _ _) as [[res e1]| |]; cbn [obind];
           try discriminate;
           destruct (isError res) eqn:Hres;
           [intros [= -> _]; discriminate Hres
           |destruct res; try discriminate; apply IH]).
    + intros [= <- <-].
      apply (forSliceLoop_completes _ _ _ _ Hk Hkv) in Hl as (outs & Hruns & ->).
      exists outs, envn. repeat split; try assumption.
      * eapply body_runs_length, Hruns.
      * unfold Delete; cbn. apply lookup_delete_eq.
      * unfold Delete; cbn. rewrite lookup_delete_ne by congruence.
        apply lookup_delete_eq.
  - intros (outs & envn & Hruns & _ & -> & -> & _).
    rewrite (forSliceLoop_runs _ _ _ _ Hk _ _ _ _ _ _ Hruns). reflexivity.
Qed.

Lemma for_over_sequence_witness :
  let w := plain_host [] in
  let t := at_ 1 1 in
  let name x := ast.ExpressionStatement t (ast.Identifier (ast.mkIdent t x)) in
  let in_ := ast.ArrayLiteral t [ast.IntegerLiteral t 10; ast.IntegerLiteral t 20] in
  let block := ast.mkBlock t [name "k"; name "v"] in
  "k" <> EmptyString /\ "k" <> "v"
  /\ Eval_ w 3 in_ NewEnvironment = Ok (VSlice [VInt 10; VInt 20], NewEnvironment)
  /\ kindOf (VSlice [VInt 10; VInt 20]) = KSlice
  /\ exists outs envn,
       body_runs (Eval_ w 3) "k" "v" block 0 [VInt 10; VInt 20]
                 NewEnvironment outs envn
       /\ length outs = 2%nat
       /\ "010120" = concatenation outs
       /\ NewEnvironment = Delete "k" (Delete "v" envn)
       /\ store NewEnvironment !! "k" = None
       /\ store NewEnvironment !! "v" = None.
Proof.
  intros w t name in_ block.
  assert (H1 : "k" <> EmptyString) by discriminate.
  assert (H2 : "k" <> "v") by discriminate.
  assert (H3 : Eval_ w 3 in_ NewEnvironment
               = Ok (VSlice [VInt 10; VInt 20], NewEnvironment)) by reflexivity.
  assert (H4 : kindOf (VSlice [VInt 10; VInt 20]) = KSlice) by reflexivity.
  split; [exact H1|]. split; [exact H2|]. split; [exact H3|]. split; [exact H4|].
  apply (proj1 (for_over_sequence w 3 t "k" "v" in_ block NewEnvironment
                  NewEnvironment _ H1 H2 H3 H4 "010120" NewEnvironment)).
  vm_compute. reflexivity.
Defined.

(** C8 as stated fails when a run of the body is an error: over the two
    elements of [[10, 20]] the body, an unbound name, is evaluated once, the
    loop returns its error and [k] and [v] stay bound.  It also fails when
    both names are the same: the one name is bound to the index. *)
Lemma for_counterexample :
  let w := plain_host [] in
  let t := at_ 1 1 in
  let name x := ast.ExpressionStatement t (ast.Identifier (ast.mkIdent t x)) in
  let in_ := ast.ArrayLiteral t [ast.IntegerLiteral t 10; ast.IntegerLiteral t 20] in
  (exists env',
      Eval_ w 4 (ast.ForExpression t "k" "v" in_ (ast.mkBlock t [name "x"]))
            NewEnvironment
      = Ok (VError "1: 1: identifier not found: x", env')
      /\ store env' !! "k" = Some (VInt 0)
      /\ store env' !! "v" = Some (VInt 10))
  /\ Eval_ w 4 (ast.ForExpression t "x" "x" in_ (ast.mkBlock t [name "x"]))
           NewEnvironment
     = Ok (VString "01", NewEnvironment).
Proof.
  intros w t name in_. split.
  - eexists. split; [vm_compute; reflexivity|]. split; vm_compute; reflexivity.
  - vm_compute. reflexivity.
Qed.

(** ** Inclusion *)

Lemma values_evaluated_length (ev : EvalFn) (ns : list ast.Node)
    (env env' : Environment) (vs : list Value) :
  values_evaluated ev ns env vs env' -> length vs = length ns.
Proof. induction 1; cbn; congruence. Qed.

Lemma String_key_node (kv : Keyed) : ast.String_ (key_node kv) = Ok (key_name kv).
Proof. destruct kv as [[[tok value] closed] n]. reflexivity. Qed.

Lemma includeLoop_keyed (ev : EvalFn) (kvs : list Keyed) :
  forall newEnv env vs env',
    values_evaluated ev (map snd kvs) env vs env' ->
    includeLoop ev (map keyed_pair kvs) newEnv env
    = Ok (with_store
            (list_to_map (reverse (zip (map key_name kvs) vs)) ∪ store newEnv)
            newEnv, env').
Proof.
  induction kvs as [|kv kvs IH]; intros newEnv env vs env' H;
    inversion H; subst; clear H.
  - cbn. rewrite (left_id_L ∅ (∪)). now destruct newEnv.
  - cbn [map includeLoop keyed_pair]. rewrite String_key_node. cbn [obind].
    match goal with He : ev _ _ = _ |- _ => rewrite He end. cbn [obind].
    match goal with Hv : values_evaluated _ _ _ _ _ |- _ =>
      rewrite (IH _ _ _ _ Hv) end.
    do 2 f_equal. unfold with_store, Set_. destruct newEnv.
    cbn [store outer FileName InExtends IsExtends InSection InDefine ExtendsFrom].
    f_equal.
    change (zip (key_name kv :: map key_name kvs) (v :: vs0))
      with ((key_name kv, v) :: zip (map key_name kvs) vs0).
    rewrite reverse_cons, list_to_map_app.
    cbn [list_to_map foldr uncurry]. rewrite insert_empty.
    rewrite <- (assoc_L (∪)). f_equal.
    now rewrite insert_union_singleton_l.
Qed.

Lemma Get_unfold (e : Environment) (name : string) :
  Get e name = match store e !! name with
               | Some obj => Some obj
               | None => match outer e with
                         | Some o => Get o name
                         | None => None
                         end
               end.
Proof. destruct e. reflexivity. Qed.

Lemma quoted_not_letters (s x : string) :
  quoted s = true -> letters x = true -> x <> s.
Proof.
  intros Hq Hl ->. destruct s as [|c s]; [discriminate|].
  cbn in Hq, Hl. apply andb_prop in Hl as [Hl _].
  apply orb_prop in Hq as [Hq|Hq]; apply Ascii.eqb_eq in Hq; subst c;
    discriminate.
Qed.

(** C4 (as amended).  For an [include] whose second argument is a map
    literal with string-literal keys, the values are evaluated in order in
    the caller's environment and the sub-template is loaded with a new
    environment that has no outer scope, no flag set, and a store binding
    exactly the literals of the key tokens, each to the value evaluated for
    it (an error value included; the last pair wins for a repeated key).
    The literal of a string token keeps its quotes, so none of these names
    can be spelled by an identifier of the sub-template. *)
Theorem include_binds_key_literals (w : World) (fuel : nat) (tok t : Token)
    (file : string) (kvs : list Keyed) (env env' : Environment)
    (vs : list Value) :
  values_evaluated (Eval_ w fuel) (map snd kvs) env vs env' ->
  exists newEnv,
    includeEnvironment (Eval_ w fuel)
                       (ast.MapLiteral t (map keyed_pair kvs)) tok env
      = Ok (inr newEnv, env')
    /\ Eval_ w (S fuel)
             (ast.IncludeStatement tok file
                (ast.MapLiteral t (map keyed_pair kvs))) env
       = (lr <- internal.LoadFile w fuel file ∅ EmptyString (Eval_ w fuel)
                                  newEnv;;
          match internal.lr_err lr with
          | Some err => ret (VError err) env'
          | None => ret (VString (internal.lr_out lr)) env'
          end)
    /\ newEnv = with_store (store newEnv) NewEnvironment
    /\ store newEnv = list_to_map (reverse (zip (map key_name kvs) vs))
    /\ dom (store newEnv) = list_to_set (map key_name kvs)
    /\ (Forall (fun kv => quoted (key_name kv) = true) kvs ->
        forall x, letters x = true -> Get newEnv x = None).
Proof.
  intros Hvs.
  pose proof (includeLoop_keyed _ kvs NewEnvironment _ _ _ Hvs) as Hloop.
  set (newEnv := with_store _ NewEnvironment) in Hloop.
  assert (Hstore : store newEnv
                   = list_to_map (reverse (zip (map key_name kvs) vs))).
  { subst newEnv. cbn. apply (right_id_L ∅ (∪)). }
  assert (Hdom : dom (store newEnv) = list_to_set (map key_name kvs)).
  { rewrite Hstore, dom_list_to_map_L, fmap_reverse.
    rewrite fst_zip.
    - apply set_eq. intros x.
      rewrite !elem_of_list_to_set, elem_of_reverse. reflexivity.
    - rewrite (values_evaluated_length _ _ _ _ _ Hvs), !length_map.
      apply Nat.le_refl. }
  exists newEnv. repeat split.
  - unfold includeEnvironment. rewrite Hloop. reflexivity.
  - cbn [Eval_ evalNode]. unfold evalIncludeStatement, includeEnvironment.
    rewrite Hloop. reflexivity.
  - exact Hstore.
  - exact Hdom.
  - intros Hq x Hx.
    assert (Hnone : store newEnv !! x = None).
    { apply not_elem_of_dom. rewrite Hdom, elem_of_list_to_set.
      intros Hin. apply list_elem_of_fmap in Hin as (kv & -> & Hkv).
      rewrite Forall_forall in Hq.
      exact (quoted_not_letters _ _ (Hq kv Hkv) Hx eq_refl). }
    assert (Hout : outer newEnv = None) by reflexivity.
    rewrite Get_unfold, Hnone, Hout. reflexivity.
Qed.

Lemma include_binds_key_literals_witness :
  let w := plain_host [] in
  let t := at_ 1 1 in
  let k := mkToken STRING "'name'" 20 1 in
  let kvs : list Keyed := [(k, "'name'", false, ast.IntegerLiteral t 5)] in
  values_evaluated (Eval_ w 1) (map snd kvs) NewEnvironment [VInt 5]
                   NewEnvironment
  /\ exists newEnv,
       includeEnvironment (Eval_ w 1) (ast.MapLiteral t (map keyed_pair kvs)) t
                          NewEnvironment
       = Ok (inr newEnv, NewEnvironment)
       /\ store newEnv = list_to_map [("'name'", VInt 5)]
       /\ dom (store newEnv) = list_to_set ["'name'"].
Proof.
  intros w t k kvs.
  assert (H : values_evaluated (Eval_ w 1) (map snd kvs) NewEnvironment
                               [VInt 5] NewEnvironment).
  { eapply values_evaluated_cons; [reflexivity | constructor]. }
  split; [exact H|].
  destruct (include_binds_key_literals w 1 t t "'row'" kvs _ _ _ H)
    as (newEnv & H1 & _ & _ & H4 & H5 & _).
  exists newEnv. split; [exact H1|]. split; [exact H4|exact H5].
Defined.

(** C4 as stated fails on [include('row', {'name': 5})]: the new
    environment binds the token literal ['name'], quotes included, and the
    identifier [name] of the sub-template is not found. *)
Lemma include_counterexample :
  let w := plain_host [("'row'.lamb.html", "{? name ?}")] in
  exists t tok file vars rest newEnv,
    parser.parse 20 "{? include('row', {'name': 5}) ?}"
      = Ok (ast.Program
              (ast.ExpressionStatement t (ast.IncludeStatement tok file vars)
               :: rest), [])
    /\ includeEnvironment (Eval_ w 20) vars tok NewEnvironment
       = Ok (inr newEnv, NewEnvironment)
    /\ map_to_list (store newEnv) = [("'name'", VInt 5)]
    /\ Get newEnv "name" = None
    /\ Eval_ w 20 (ast.IncludeStatement tok file vars) NewEnvironment
       = Ok (VString "'row'.lamb.html: 1: 4: identifier not found: name",
             NewEnvironment).
Proof.
  intros w. do 6 eexists.
  split; [vm_compute; reflexivity|].
  split; [vm_compute; reflexivity|].
  repeat split; vm_compute; reflexivity.
Qed.

(** ** The loader *)

Lemma LoadFile_plain (w : World) (fuel : nat) (fileName out src : string)
    (ev : EvalFn) (env : Environment) (program : ast.Node) :
  files w (template_path w fileName) = Some src ->
  parser.parse fuel src = Ok (program, []) ->
  internal.LoadFile w fuel fileName ∅ out ev env
  = ('(evaluated, env') <-
       ev program (with_FileName (template_path w fileName) env);;
     match evaluated with
     | VNil => internal.done None out env'
     | VError msg => internal.done (Some msg) out env'
     | _ => internal.done None (out +:+ fmtS w evaluated) env'
     end).
Proof.
  intros Hf Hp. unfold internal.LoadFile, template_path in *.
  rewrite lookup_empty. cbn [String.eqb negb].
  rewrite Hf, Hp. cbn [obind].
  rewrite (left_id_L ∅ (∪)).
  assert (He : with_store (store env) env = env) by now destruct env.
  rewrite He.
  destruct (cache_stat w _); reflexivity.
Qed.

Lemma programLoop_fails (w : World) (ev : EvalFn) (stmts : list ast.Node)
    (env env' : Environment) (msg : string) :
  fails_at ev stmts env msg env' ->
  forall result,
    evaluator.programLoop w ev stmts result env
    = Ok (inl (VString (FileName env' +:+ ": " +:+ msg)), env').
Proof.
  induction 1 as [s rest env env' msg He
                 | s rest env env1 env' r msg He Hr _ IH]; intros result;
    cbn [evaluator.programLoop]; rewrite He; cbn [obind].
  - reflexivity.
  - rewrite Hr. apply IH.
Qed.

(** C2, evaluated on the code.  When a statement of a template evaluates to
    an error, [evalProgram] formats the file name and the message into a
    string; the type test for an error in [LoadFile] does not hold of it, so
    the driver writes the message to the writer and reports success.  What
    the earlier statements rendered is not written. *)
Theorem statement_error_is_written (w : World) (n : nat)
    (fileName src : string) (stmts : list ast.Node) (msg : string)
    (env' : Environment) :
  files w (template_path w fileName) = Some src ->
  parser.parse (S n) src = Ok (ast.Program stmts, []) ->
  fails_at (Eval_ w n) stmts
           (with_FileName (template_path w fileName) NewEnvironment) msg env' ->
  render w (S n) fileName ∅
  = Ok (internal.mkLoadResult None (FileName env' +:+ ": " +:+ msg)
          (store env') (Sections (ExtendsFrom env'))).
Proof.
  intros Hf Hp Hfail. unfold render.
  rewrite (LoadFile_plain _ _ _ _ _ _ _ _ Hf Hp).
  cbn [Eval_ evalNode]. unfold evalProgram.
  rewrite (programLoop_fails _ _ _ _ _ _ Hfail). reflexivity.
Qed.

Lemma statement_error_is_written_witness :
  let w := plain_host [("t.lamb.html", "{? x ?}")] in
  let tx := mkToken IDENT "x" 4 1 in
  let te := mkToken EOC EmptyString 7 1 in
  let stmts :=
    [ast.ExpressionStatement tx (ast.Identifier (ast.mkIdent tx "x"));
     ast.ExpressionStatement te (ast.StringLiteral te EmptyString false)] in
  let env' := with_FileName "t.lamb.html" NewEnvironment in
  files w (template_path w "t") = Some "{? x ?}"
  /\ parser.parse 20 "{? x ?}" = Ok (ast.Program stmts, [])
  /\ fails_at (Eval_ w 19) stmts
              (with_FileName (template_path w "t") NewEnvironment)
              "1: 4: identifier not found: x" env'
  /\ render w 20 "t" ∅
     = Ok (internal.mkLoadResult None
             "t.lamb.html: 1: 4: identifier not found: x" ∅ ∅).
Proof.
  intros w tx te stmts env'.
  assert (Hf : files w (template_path w "t") = Some "{? x ?}") by reflexivity.
  assert (Hp : parser.parse 20 "{? x ?}" = Ok (ast.Program stmts, []))
    by (vm_compute; reflexivity).
  assert (Hfail : fails_at (Eval_ w 19) stmts
             (with_FileName (template_path w "t") NewEnvironment)
             "1: 4: identifier not found: x" env')
    by (apply fails_here; vm_compute; reflexivity).
  split; [exact Hf|]. split; [exact Hp|]. split; [exact Hfail|].
  exact (statement_error_is_written w 19 "t" _ _ _ _ Hf Hp Hfail).
Defined.

(** ** String literals and HTML *)

(** Whatever token it is built from, the node that [parseStringLiteral],
    [parseHtml] and [parseEndOfCode] return evaluates to the error
    [unclosed string literal]: no parselet sets [Closed]. *)
Lemma parsed_literal_unclosed (w : World) (fuel : nat) (p : parser.Parser)
    (env : Environment) (parselet : parser.Parser -> parser.PResult) :
  parselet = parser.parseStringLiteral \/ parselet = parser.parseHtml
  \/ parselet = parser.parseEndOfCode ->
  exists node,
    parselet p = Ok (node, p)
    /\ Eval_ w (S fuel) node env
       = Ok (newError (parser.curToken p) "unclosed string literal", env).
Proof.
  intros [-> | [-> | ->]]; eexists; split; reflexivity.
Qed.

(** C1, evaluated on the code.  The node built for a byte of HTML is a
    string literal whose [Closed] flag is false, and it evaluates to an
    error; the template [<h1>Hi</h1>] renders that error's message, not its
    own text. *)
Theorem html_is_not_passed_through (w : World) (n : nat) (fileName : string) :
  files w (template_path w fileName) = Some "<h1>Hi</h1>" ->
  render w (12 + n) fileName ∅
  = Ok (internal.mkLoadResult None
          (template_path w fileName +:+ ": 1: 1: unclosed string literal")
          ∅ ∅)
  /\ forall (p : parser.Parser) (fuel : nat) (env : Environment),
       exists node,
         parser.parseHtml p = Ok (node, p)
         /\ Eval_ w (S fuel) node env
            = Ok (newError (parser.curToken p) "unclosed string literal", env).
Proof.
  intros Hf. split.
  - eassert (Hp : parser.parse (12 + n) "<h1>Hi</h1>" = Ok (_, []))
      by (vm_compute; reflexivity).
    unfold render. rewrite (LoadFile_plain _ _ _ _ _ _ _ _ Hf Hp).
    reflexivity.
  - intros p fuel env. apply parsed_literal_unclosed. tauto.
Qed.

Lemma html_is_not_passed_through_witness :
  let w := plain_host [("t.lamb.html", "<h1>Hi</h1>")] in
  files w (template_path w "t") = Some "<h1>Hi</h1>"
  /\ render w 12 "t" ∅
     = Ok (internal.mkLoadResult None
             "t.lamb.html: 1: 1: unclosed string literal" ∅ ∅).
Proof.
  intros w. split; [reflexivity|].
  exact (proj1 (html_is_not_passed_through w 0 "t" eq_refl)).
Defined.

(** C3, evaluated on the code.  The lexer reads ['abc'], closed by its
    matching quote, as one [STRING] token; the parser builds the literal
    with [Closed] false, as for every string token, and the template renders
    the message of [unclosed string literal]. *)
Theorem closed_string_is_unclosed (w : World) (n : nat) (fileName : string) :
  files w (template_path w fileName) = Some "{? 'abc' ?}" ->
  (Literal <$> head (lexer.tokens 1 (lexer.New "{? 'abc' ?}"))) = Some "'abc'"
  /\ render w (4 + n) fileName ∅
     = Ok (internal.mkLoadResult None
             (template_path w fileName +:+ ": 1: 4: unclosed string literal")
             ∅ ∅)
  /\ forall (p : parser.Parser) (fuel : nat) (env : Environment),
       exists node,
         parser.parseStringLiteral p = Ok (node, p)
         /\ Eval_ w (S fuel) node env
            = Ok (newError (parser.curToken p) "unclosed string literal", env).
Proof.
  intros Hf. split; [reflexivity|]. split.
  - eassert (Hp : parser.parse (4 + n) "{? 'abc' ?}" = Ok (_, []))
      by (vm_compute; reflexivity).
    unfold render. rewrite (LoadFile_plain _ _ _ _ _ _ _ _ Hf Hp).
    reflexivity.
  - intros p fuel env. apply parsed_literal_unclosed. tauto.
Qed.

Lemma closed_string_is_unclosed_witness :
  let w := plain_host [("t.lamb.html", "{? 'abc' ?}")] in
  files w (template_path w "t") = Some "{? 'abc' ?}"
  /\ render w 4 "t" ∅
     = Ok (internal.mkLoadResult None
             "t.lamb.html: 1: 4: unclosed string literal" ∅ ∅).
Proof.
  intros w. split; [reflexivity|].
  exact (proj1 (proj2 (closed_string_is_unclosed w 0 "t" eq_refl))).
Defined.

(** ** The lexer *)

Section LexerLoops.

Import lexer.
Local Open Scope nat_scope.

Lemma readChar_input (l : Lexer) : input (readChar l) = input l.
Proof.
  unfold readChar. destruct (_ <=? _); [reflexivity|].
  destruct (Ascii.eqb _ LF); [reflexivity|].
  destruct (Ascii.eqb _ TAB); reflexivity.
Qed.

Lemma readChar_readPosition (l : Lexer) :
  readPosition (readChar l)
  = if String.length (input l) <=? readPosition l then readPosition l
    else S (readPosition l).
Proof.
  unfold readChar. destruct (_ <=? _); [reflexivity|].
  destruct (Ascii.eqb _ LF); [reflexivity|].
  destruct (Ascii.eqb _ TAB); reflexivity.
Qed.

Lemma readChar_eof (l : Lexer) :
  String.length (input l) <= readPosition l -> ch (readChar l) = NUL.
Proof.
  intros H. unfold readChar.
  destruct (Nat.leb_spec (String.length (input l)) (readPosition l));
    [reflexivity|lia].
Qed.

Lemma readChar_unread (l : Lexer) :
  unread (readChar l)
  = if String.length (input l) <=? readPosition l then 0 else unread l - 1.
Proof.
  unfold unread. rewrite readChar_input, readChar_readPosition.
  destruct (Nat.leb_spec (String.length (input l)) (readPosition l)); lia.
Qed.

Lemma readChar_unread_le (l : Lexer) : unread (readChar l) <= unread l.
Proof. rewrite readChar_unread. destruct (_ <=? _); lia. Qed.

Lemma readWhile_stop (cond : ascii -> bool) (n : nat) (l : Lexer) :
  cond (ch l) = false -> readWhile n cond l = l.
Proof. intros H. destruct n; cbn; [reflexivity | now rewrite H]. Qed.

Lemma readWhile_enough (cond : ascii -> bool) :
  cond NUL = false ->
  forall n l m, unread l < n -> n <= m ->
    readWhile m cond l = readWhile n cond l.
Proof.
  intros Hnul n. induction n as [|n IH]; intros l m Hu Hle; [lia|].
  destruct m as [|m]; [lia|]. cbn [readWhile].
  destruct (cond (ch l)); [|reflexivity].
  destruct (Nat.leb_spec (String.length (input l)) (readPosition l)) as [He|He].
  - rewrite !readWhile_stop; try reflexivity;
      now rewrite (readChar_eof _ He).
  - apply IH; [|lia]. rewrite readChar_unread.
    destruct (Nat.leb_spec (String.length (input l)) (readPosition l));
      unfold unread in *; lia.
Qed.

Lemma readWhile_unread (cond : ascii -> bool) (n : nat) (l : Lexer) :
  unread (readWhile n cond l) <= unread l
  /\ input (readWhile n cond l) = input l.
Proof.
  revert l. induction n as [|n IH]; intros l; cbn [readWhile]; [auto|].
  destruct (cond (ch l)); [|auto].
  destruct (IH (readChar l)) as [H1 H2]. rewrite H2, readChar_input.
  pose proof (readChar_unread_le l). split; [lia|reflexivity].
Qed.

Lemma readUntil_enough (c : ascii) :
  forall n l m, unread l < n -> n <= m ->
    readUntil m c l = readUntil n c l.
Proof.
  intros n. induction n as [|n IH]; intros l m Hu Hle; [lia|].
  destruct m as [|m]; [lia|]. cbn [readUntil].
  destruct (Ascii.eqb (ch (readChar l)) c || Ascii.eqb (ch (readChar l)) NUL)
    eqn:Hstop; [reflexivity|].
  apply IH; [|lia]. rewrite readChar_unread.
  destruct (Nat.leb_spec (String.length (input l)) (readPosition l)) as [He|He];
    [|unfold unread in *; lia].
  rewrite (readChar_eof _ He) in Hstop. cbn in Hstop.
  now rewrite orb_true_r in Hstop.
Qed.

Lemma commentLoop_enough :
  forall n l m, unread l + 2 <= n -> n <= m ->
    commentLoop m l = commentLoop n l.
Proof.
  intros n. induction n as [|n IH]; intros l m Hu Hle; [lia|].
  destruct m as [|m]; [lia|]. cbn [commentLoop].
  destruct (Ascii.eqb (ch l) "#" || Ascii.eqb (ch l) NUL); [reflexivity|].
  destruct (Nat.leb_spec (String.length (input l)) (readPosition l)) as [He|He].
  - destruct n as [|n]; [lia|]. destruct m as [|m]; [lia|].
    cbn [commentLoop]. rewrite (readChar_eof _ He). reflexivity.
  - apply IH; [|lia]. rewrite readChar_unread.
    destruct (Nat.leb_spec (String.length (input l)) (readPosition l));
      unfold unread in *; lia.
Qed.

Lemma commentLoop_unread (n : nat) (l : Lexer) :
  unread (commentLoop n l) <= unread l.
Proof.
  revert l. induction n as [|n IH]; intros l; cbn [commentLoop]; [lia|].
  destruct (_ || _).
  - apply readChar_unread_le.
  - pose proof (IH (readChar l)). pose proof (readChar_unread_le l). lia.
Qed.

Lemma commentLoop_eof (n : nat) (l : Lexer) :
  String.length (input l) <= readPosition l -> ch l = NUL ->
  ch (commentLoop (S n) l) = NUL.
Proof.
  intros He Hc. cbn [commentLoop]. rewrite Hc.
  change (ch (readChar l) = NUL). now apply readChar_eof.
Qed.

(** [tokenStep] calls [again] only after a comment. *)
Lemma tokenStep_ext (r1 r2 : Lexer -> Token * Lexer) (l : Lexer) :
  (forall l0, htmlToken l = inr l0 -> ch (skipWhitespace l0) = "#"%char ->
     r1 (readComment (skipWhitespace l0)) = r2 (readComment (skipWhitespace l0))) ->
  tokenStep r1 l = tokenStep r2 l.
Proof.
  intros H. unfold tokenStep.
  destruct (htmlToken l) as [r|l0]; [reflexivity|].
  specialize (H l0 eq_refl). cbv zeta.
  destruct (Ascii.eqb_spec (ch (skipWhitespace l0)) "#") as [Hs|Hs].
  - rewrite (H Hs). reflexivity.
  - reflexivity.
Qed.

Lemma htmlToken_unread (l l0 : Lexer) :
  htmlToken l = inr l0 ->
  unread l0 <= unread l /\ (ch l = NUL -> l0 = l).
Proof.
  unfold htmlToken. destruct (Ascii.eqb_spec (ch l) NUL) as [Hc|Hc].
  - rewrite andb_false_r. intros [= <-]. auto.
  - destruct (negb (inCode l) && negb false); [|intros [= <-]; split; [lia|tauto]].
    destruct (_ && _); [|discriminate]. intros [= <-]. split; [|tauto].
    pose proof (readChar_unread_le (readChar (set_inCode true l))).
    pose proof (readChar_unread_le (set_inCode true l)).
    change (unread (set_inCode true l)) with (unread l) in *. lia.
Qed.

(** At the end of the input no comment follows: the bound is not used. *)
Lemma codeToken_nul (l : Lexer) (n m : nat) :
  ch l = NUL -> codeToken n l = codeToken m l.
Proof.
  intros Hc. destruct n, m; cbn [codeToken]; apply tokenStep_ext;
    intros l0 Hh Hs; exfalso;
    destruct (htmlToken_unread _ _ Hh) as [_ Hl]; rewrite (Hl Hc) in Hs;
    unfold skipWhitespace in Hs;
    rewrite readWhile_stop in Hs by (now rewrite Hc);
    rewrite Hc in Hs; discriminate.
Qed.

Lemma codeToken_enough :
  forall n l m, unread l < n -> n <= m -> codeToken m l = codeToken n l.
Proof.
  intros n. induction n as [|n IH]; intros l m Hu Hle; [lia|].
  destruct m as [|m]; [lia|]. cbn [codeToken].
  apply tokenStep_ext. intros l0 Hh Hs.
  destruct (htmlToken_unread _ _ Hh) as [Hu0 _].
  set (l1 := skipWhitespace l0) in *.
  assert (Hu1 : unread l1 <= unread l0) by apply readWhile_unread.
  destruct (Nat.leb_spec (String.length (input l1)) (readPosition l1)) as [He|He].
  - apply codeToken_nul. unfold readComment.
    assert (Hr : rounds l1 = S (String.length (input l1) + 1))
      by (unfold rounds; lia).
    rewrite Hr. apply commentLoop_eof.
    + rewrite readChar_input, readChar_readPosition.
      destruct (Nat.leb_spec (String.length (input l1)) (readPosition l1)); lia.
    + now apply readChar_eof.
  - apply IH; [|lia]. unfold readComment.
    pose proof (commentLoop_unread (rounds l1) (readChar l1)) as Hc.
    rewrite readChar_unread in Hc.
    destruct (Nat.leb_spec (String.length (input l1)) (readPosition l1));
      unfold unread in *; lia.
Qed.

(** X29.  The loops of the lexer end: none of them runs more rounds than
    the input has bytes, plus two, so that a larger bound than [rounds]
    gives the same result.  ([readWhile] is the loop of
    [skipWhitespace], [readIdentifier] and [readNumber], [readUntil] that of
    [readString], [commentLoop] that of [readComment], [codeToken] is
    [NextToken].) *)
Theorem lexer_loops_terminate (l : Lexer) (k : nat) :
  (forall cond, cond NUL = false ->
     readWhile (rounds l + k) cond l = readWhile (rounds l) cond l)
  /\ (forall c, readUntil (rounds l + k) c l = readUntil (rounds l) c l)
  /\ commentLoop (rounds l + k) l = commentLoop (rounds l) l
  /\ codeToken (rounds l + k) l = NextToken l.
Proof.
  assert (Hu : unread l < rounds l) by (unfold unread, rounds; lia).
  repeat split.
  - intros cond Hc. apply readWhile_enough; [assumption|assumption|lia].
  - intros c. apply readUntil_enough; [assumption|lia].
  - apply commentLoop_enough; [unfold unread, rounds in *; lia|lia].
  - apply codeToken_enough; [assumption|lia].
Qed.

End LexerLoops.

Section LexerTokens.

Import lexer.
Local Open Scope nat_scope.

Lemma get_in_bounds (s : string) (n : nat) :
  n < String.length s -> String.get n s = Some (byte_at s n).
Proof.
  unfold byte_at. revert n. induction s as [|a s IH]; intros n Hn; cbn in Hn.
  - lia.
  - destruct n as [|n]; cbn; [reflexivity|]. apply IH. lia.
Qed.

Lemma substring_head (s : string) (n m : nat) (c : ascii) :
  String.get n s = Some c ->
  exists rest, String.substring n (S m) s = String c rest.
Proof.
  revert n. induction s as [|a s IH]; intros n Hg; [discriminate|].
  destruct n as [|n]; cbn in *.
  - injection Hg as ->. eauto.
  - now apply IH.
Qed.

Lemma lexer_ok_readChar (l : Lexer) :
  lexer_ok l ->
  lexer_ok (readChar l) /\ position l <= position (readChar l).
Proof.
  intros [Hp Hc]. unfold lexer_ok, readChar.
  destruct (Nat.leb_spec (String.length (input l)) (readPosition l)) as [He|He].
  - cbn. repeat split; [assumption | congruence | lia].
  - assert (Hg := get_in_bounds _ _ He).
    destruct (Ascii.eqb _ LF); [|destruct (Ascii.eqb _ TAB)]; cbn;
      repeat split; auto.
Qed.

Lemma lexer_ok_set_inCode (b : bool) (l : Lexer) :
  lexer_ok l -> lexer_ok (set_inCode b l).
Proof. intros H. exact H. Qed.

Lemma lexer_ok_readWhile (cond : ascii -> bool) (n : nat) (l : Lexer) :
  lexer_ok l -> lexer_ok (readWhile n cond l).
Proof.
  revert l. induction n as [|n IH]; intros l H; cbn [readWhile]; [assumption|].
  destruct (cond (ch l)); [|assumption]. now apply IH, lexer_ok_readChar.
Qed.

Lemma lexer_ok_readUntil (c : ascii) (n : nat) (l : Lexer) :
  lexer_ok l ->
  lexer_ok (readUntil n c l)
  /\ input (readUntil n c l) = input l
  /\ position l <= position (readUntil n c l).
Proof.
  revert l. induction n as [|n IH]; intros l H; cbn [readUntil]; [auto|].
  destruct (lexer_ok_readChar l H) as [H1 H2].
  destruct (_ || _).
  - rewrite readChar_input. auto.
  - destruct (IH _ H1) as (H3 & H4 & H5). rewrite H4, readChar_input.
    split; [assumption|]. split; [reflexivity|lia].
Qed.

Lemma lexer_ok_commentLoop (n : nat) (l : Lexer) :
  lexer_ok l -> lexer_ok (commentLoop n l).
Proof.
  revert l. induction n as [|n IH]; intros l H; cbn [commentLoop]; [assumption|].
  destruct (_ || _); [|apply IH]; now apply lexer_ok_readChar.
Qed.

Lemma LookUpIdent_not_STRING (s : string) : LookUpIdent s <> STRING.
Proof.
  unfold LookUpIdent, keywords. cbn [assoc].
  repeat (destruct (String.eqb s _); [discriminate|]). discriminate.
Qed.

Lemma readString_quoted (q : ascii) (l : Lexer) :
  lexer_ok l -> ch l = q -> q = DQUOTE \/ q = SQUOTE ->
  token_ok ((readString q l).1, readChar (readString q l).2).
Proof.
  intros Hok Hc Hq. unfold readString, token_ok. cbn [fst snd Literal].
  destruct (lexer_ok_readUntil q (rounds l) l Hok) as (H1 & H2 & H3).
  split; [now apply lexer_ok_readChar|]. intros _.
  unfold slice. rewrite H2.
  replace (S (position l) - 1) with (position l) by lia.
  replace (position (readUntil (rounds l) q l) + 1 - position l)
    with (S (position (readUntil (rounds l) q l) - position l)) by lia.
  destruct Hok as [_ Hget].
  assert (Hn : ch l <> NUL).
  { intros E. rewrite Hc in E.
    destruct Hq as [Hq|Hq]; rewrite Hq in E; discriminate E. }
  destruct (substring_head _ _ (position (readUntil (rounds l) q l) - position l)
              _ (Hget Hn)) as [rest ->].
  rewrite Hc. destruct Hq as [Hq|Hq]; rewrite Hq; reflexivity.
Qed.

Lemma if_token_ok (c : bool) (a b : Token * Lexer) :
  (c = true -> token_ok a) -> (c = false -> token_ok b) ->
  token_ok (if c then a else b).
Proof. destruct c; auto. Qed.

Lemma tokenStep_ok (again : Lexer -> Token * Lexer) (l : Lexer) :
  lexer_ok l -> (forall l', lexer_ok l' -> token_ok (again l')) ->
  token_ok (tokenStep again l).
Proof.
  intros Hok Hagain.
  assert (Hr : forall l0 t lit col line, lexer_ok l0 -> t <> STRING ->
                 token_ok (mkToken t lit col line, readChar l0)).
  { intros l0 t lit col line H0 Ht. split; [now apply lexer_ok_readChar|].
    cbn. congruence. }
  unfold tokenStep, htmlToken.
  destruct (negb (inCode l) && negb (Ascii.eqb (ch l) NUL)).
  1: destruct (Ascii.eqb (ch l) "{" && Ascii.eqb (peekChar l) "?").
  2: { apply Hr; [assumption|discriminate]. }
  all: match goal with
       | |- context [skipWhitespace ?x] =>
           assert (H1 : lexer_ok (skipWhitespace x))
             by (apply lexer_ok_readWhile;
                 repeat first [assumption | apply lexer_ok_readChar
                              | apply lexer_ok_set_inCode]);
           generalize dependent (skipWhitespace x)
       end; intros l1 H1; cbv zeta;
    repeat (apply if_token_ok; intros ?);
    try (apply Hr; [assumption|discriminate]);
    try (apply Hr; [now apply lexer_ok_readChar|discriminate]).
  all: try (split; [apply lexer_ok_readChar, lexer_ok_readChar,
                      lexer_ok_set_inCode; assumption
                   | cbn; discriminate]).
  all: try (match goal with
            | H : Ascii.eqb (ch ?x) ?q = true, Hx : lexer_ok ?x
              |- context [readString ?q ?x] =>
                apply Ascii.eqb_eq in H;
                pose proof (readString_quoted q x Hx H) as Hs;
                destruct (readString q x); apply Hs; auto
            end).
  all: try (apply Hagain; unfold readComment;
            now apply lexer_ok_commentLoop, lexer_ok_readChar).
  all: unfold readIdentifier, readNumber; cbv beta iota zeta;
    (split; [now apply lexer_ok_readWhile|]); cbn [fst Type_];
    first [discriminate | intros Hty; now apply LookUpIdent_not_STRING in Hty].
Qed.

Lemma codeToken_ok (n : nat) (l : Lexer) :
  lexer_ok l -> token_ok (codeToken n l).
Proof.
  revert l. induction n as [|n IH]; intros l H; cbn [codeToken];
    apply tokenStep_ok; try assumption.
  intros l' H'. split; [assumption|discriminate].
Qed.

Lemma lexer_ok_New (inp : string) : lexer_ok (New inp).
Proof.
  apply lexer_ok_readChar. split; [reflexivity|]. intros H. now elim H.
Qed.

(** X28.  Every [STRING] token of an input has a literal that starts with
    a quote: [readString] keeps the opening quote in the literal.  The
    names [include] binds for string-literal keys are therefore none an
    identifier can spell. *)
Theorem string_tokens_quoted (inp : string) (k : nat) :
  Forall (fun tok => Type_ tok = STRING -> quoted (Literal tok) = true)
         (tokens k (New inp)).
Proof.
  generalize (lexer_ok_New inp). generalize (New inp).
  induction k as [|k IH]; intros l H; cbn [tokens]; [constructor|].
  unfold NextToken. pose proof (codeToken_ok (rounds l) l H) as [H1 H2].
  destruct (codeToken (rounds l) l) as [t l']. constructor; [exact H2|].
  now apply IH.
Qed.

End LexerTokens.

(** ** The paths next to the failing ones *)

(** X30.  The evaluator passes text through where the parser does not
    lead it: a program of [HtmlLiteral] statements, the node type declared
    for HTML and handled by [Eval], renders the concatenation of their
    texts. *)
Lemma html_literals_pass_through (w : World) (fuel : nat)
    (lits : list (Token * string)) (env : Environment) :
  InExtends env = false ->
  Eval_ w (S (S (S fuel)))
        (ast.Program
           (map (fun '(tok, s) =>
                   ast.ExpressionStatement tok (ast.HtmlLiteral tok s)) lits))
        env
  = Ok (VString (concatenation (map snd lits)), env).
Proof.
  intros Hext. cbn [Eval_ evalNode]. unfold evalProgram.
  assert (Hloop : forall result,
            evaluator.programLoop w (Eval_ w (S (S fuel)))
              (map (fun '(tok, s) =>
                      ast.ExpressionStatement tok (ast.HtmlLiteral tok s)) lits)
              result env
            = Ok (inr (result +:+ concatenation (map snd lits)), env)).
  { induction lits as [|[tok s] lits IH]; intros result.
    - cbn. now rewrite append_empty_r.
    - cbn [map evaluator.programLoop]. cbn [Eval_ evalNode ret obind isError].
      rewrite IH. cbn [fmtV snd concatenation fold_right].
      now rewrite append_assoc. }
  rewrite Hloop. cbn [obind]. rewrite Hext. reflexivity.
Qed.

(** The error of a parent template that cannot be read is an error value:
    [LoadFile] returns it to the driver and writes nothing. *)
Lemma missing_parent_aborts :
  render (plain_host [("t.lamb.html", "{? extends('p') ?}")]) 20 "t" ∅
  = Ok (internal.mkLoadResult
          (Some "open 'p'.lamb.html: no such file or directory")
          EmptyString {["sessions" := VNil]} ∅).
Proof. vm_compute. reflexivity. Qed.

(** * Further properties of the code *)

(** ** Environments *)

Lemma Get_Set_eq (env : Environment) (name : string) (val : Value) :
  Get (Set_ name val env) name = Some val.
Proof. rewrite Get_unfold. cbn. now rewrite lookup_insert_eq. Qed.

(** X1.  [Set] followed by [Get] of the same name gives the value back,
    whatever was bound before; [Delete] removes the binding of the
    environment's own store only, so that [Get] then answers from the
    enclosing scope; every other name is looked up as before. *)
Theorem Get_after_Set_and_Delete (env : Environment) (name : string)
    (val : Value) :
  Get (Set_ name val env) name = Some val
  /\ Get (Delete name env) name
     = match outer env with Some o => Get o name | None => None end
  /\ forall other, other <> name ->
       Get (Set_ name val env) other = Get env other
       /\ Get (Delete name env) other = Get env other.
Proof.
  split; [|split].
  - apply Get_Set_eq.
  - rewrite Get_unfold. cbn. now rewrite lookup_delete_eq.
  - intros other Hne.
    rewrite (Get_unfold (Set_ name val env)), (Get_unfold (Delete name env)),
      (Get_unfold env).
    cbn. rewrite lookup_insert_ne, lookup_delete_ne by congruence. split; reflexivity.
Qed.

(** X2.  [CopyEnvironment] gives an environment that answers every lookup
    as the original does, except that [sessions] is always bound in its own
    store: to what the original finds for it, or to nil.  The parent
    template and its sections are taken over; the file name and the flags
    start from zero. *)
Theorem CopyEnvironment_lookup (env : Environment) :
  let newEnv := CopyEnvironment env in
  store newEnv !! "sessions" = Some (default VNil (Get env "sessions"))
  /\ (forall name, name <> "sessions" -> Get newEnv name = Get env name)
  /\ ExtendsFrom newEnv = ExtendsFrom env
  /\ outer newEnv = outer env
  /\ FileName newEnv = EmptyString
  /\ InExtends newEnv = false /\ IsExtends newEnv = false
  /\ InSection newEnv = false /\ InDefine newEnv = false.
Proof.
  cbn zeta. unfold CopyEnvironment. repeat split.
  - cbn. rewrite lookup_insert_eq. now destruct (Get env "sessions").
  - intros name Hne. rewrite (Get_unfold (Set_ _ _ _) name), (Get_unfold env name).
    cbn. rewrite lookup_insert_ne by congruence. reflexivity.
Qed.

(** ** Operators *)

(** X3.  [!] and the test of [if] agree on every value: [!e] is true
    exactly when [if e] takes its [else] branch. *)
Theorem bang_agrees_with_if (w : World) (fuel : nat) (tok tok' : Token)
    (c : ast.Node) (consequence alternative : ast.Block)
    (env env' : Environment) (v : Value) :
  Eval_ w fuel c env = Ok (v, env') -> isError v = false ->
  Eval_ w (S fuel) (ast.PrefixExpression tok "!" c) env
    = Ok (VBool (negb (isTruthy v)), env')
  /\ Eval_ w (S fuel)
           (ast.IfExpression tok' c consequence (Some alternative)) env
     = Eval_ w fuel
             (ast.BlockStatement
                (if isTruthy v then consequence else alternative)) env'.
Proof.
  intros He Hv. split.
  - cbn [Eval_ evalNode]. rewrite He. cbn [obind]. rewrite Hv.
    destruct v as [| | |[|]| | | | | | | |]; reflexivity.
  - cbn [Eval_ evalNode]. unfold evalIfExpression. rewrite He. cbn [obind].
    rewrite Hv. unfold evalBlock. destruct (isTruthy v); reflexivity.
Qed.

Lemma bang_agrees_with_if_witness :
  let w := plain_host [] in
  let t := at_ 1 1 in
  let b := ast.mkBlock t [] in
  Eval_ w 1 (ast.IntegerLiteral t 0) NewEnvironment = Ok (VInt 0, NewEnvironment)
  /\ isError (VInt 0) = false
  /\ Eval_ w 2 (ast.PrefixExpression t "!" (ast.IntegerLiteral t 0))
           NewEnvironment
     = Ok (VBool false, NewEnvironment).
Proof.
  intros w t b.
  assert (H1 : Eval_ w 1 (ast.IntegerLiteral t 0) NewEnvironment
               = Ok (VInt 0, NewEnvironment)) by reflexivity.
  assert (H2 : isError (VInt 0) = false) by reflexivity.
  split; [exact H1|]. split; [exact H2|].
  exact (proj1 (bang_agrees_with_if w 1 t t (ast.IntegerLiteral t 0) b b
                  NewEnvironment NewEnvironment (VInt 0) H1 H2)).
Defined.

(** X4.  [!=] is the negation of [==] on every pair of operands: where
    [==] returns a boolean [!=] returns the other one, and where [==]
    panics (two operands of one uncomparable type) so does [!=]. *)
Theorem not_equal_negates_equal (left_ right_ : Value) (t : Token) :
  evalInfixExpression "!=" left_ right_ t
  = match evalInfixExpression "==" left_ right_ t with
    | Ok (VBool b) => Ok (VBool (negb b))
    | other => other
    end
  /\ exists r, evalInfixExpression "==" left_ right_ t = r
       /\ match r with Ok (VBool _) | Panic _ => True | _ => False end.
Proof.
  unfold evalInfixExpression.
  destruct (isNumber left_) as [x bl], (isNumber right_) as [y br].
  destruct (bl && br).
  - split; [reflexivity|]. eexists. split; [reflexivity|]. exact I.
  - cbn [String.eqb Ascii.eqb Bool.eqb].
    unfold goEq. destruct (String.eqb (typeName left_) (typeName right_));
      [destruct (comparable left_ && comparable right_)|]; cbn;
      (split; [reflexivity|]; eexists; split; [reflexivity|]; exact I).
Qed.

Lemma typeName_string (v : Value) :
  String.eqb (typeName v) "string"
  = match v with VString _ => true | _ => false end.
Proof.
  destruct v as [| | [] | | | | | | | | ? ? [] |]; try reflexivity;
    cbn [typeName]; try (apply qualified_name_dot; reflexivity);
    cbn; apply andb_false_l.
Qed.

(** X5.  An infix expression panics in two cases only: a division of two
    integers by zero, and [==] or [!=] on two operands of one type that Go
    cannot compare (slices, maps, structs that hold them).  In every other
    case it returns a value; the type assertions of the string and the
    integer case never fail. *)
Theorem infix_panics_only (operator : string) (left_ right_ : Value)
    (t : Token) (msg : string) :
  evalInfixExpression operator left_ right_ t = Panic msg ->
  (operator = "/" /\ (isNumber left_).2 = true /\ isNumber right_ = (0, true)
   /\ msg = "runtime error: integer divide by zero")
  \/ ((operator = "==" \/ operator = "!=")
      /\ typeName left_ = typeName right_
      /\ comparable left_ && comparable right_ = false
      /\ msg = "runtime error: comparing uncomparable type " +:+ typeName left_).
Proof.
  unfold evalInfixExpression.
  destruct (isNumber left_) as [x bl] eqn:Hl, (isNumber right_) as [y br] eqn:Hr.
  assert (Hgo : forall k : bool -> Value,
            (b <- goEq left_ right_;; Ok (k b)) = Panic msg ->
            typeName left_ = typeName right_
            /\ comparable left_ && comparable right_ = false
            /\ msg = "runtime error: comparing uncomparable type "
                     +:+ typeName left_).
  { intros k. unfold goEq.
    destruct (String.eqb_spec (typeName left_) (typeName right_)) as [He|He];
      [|discriminate].
    destruct (comparable left_ && comparable right_); [discriminate|].
    cbn. intros [= <-]. auto. }
  destruct (bl && br) eqn:Hb.
  - apply andb_prop in Hb as [-> ->]. unfold evalIntegerInfixExpression.
    destruct (String.eqb_spec operator "+"); [discriminate|].
    destruct (String.eqb_spec operator "-"); [discriminate|].
    destruct (String.eqb_spec operator "*"); [discriminate|].
    destruct (String.eqb_spec operator "/") as [->|?].
    + destruct (Z.eqb_spec y 0) as [->|?]; [|discriminate].
      intros [= <-]. left. auto.
    + repeat (destruct (String.eqb operator _); [discriminate|]). discriminate.
  - destruct (String.eqb_spec operator "==") as [->|?];
      [intros H; right; split; [auto|now apply (Hgo _ H)]|].
    destruct (String.eqb_spec operator "!=") as [->|?];
      [intros H; right; split; [auto|now apply (Hgo _ H)]|].
    destruct (String.eqb operator "and").
    { destruct (nilPtrOrInvalid left_); [discriminate|].
      destruct (isFalse right_); [discriminate|].
      destruct (nilPtrOrInvalid right_); discriminate. }
    rewrite !typeName_string.
    destruct (negb (String.eqb (typeName left_) (typeName right_))).
    all: destruct left_; cbn [andb]; try discriminate.
    all: destruct right_; cbn [andb]; try discriminate.
    all: unfold evalStringInfixExpression; destruct (negb _); discriminate.
Qed.


Lemma infix_panics_only_witness :
  evalInfixExpression "/" (VInt 1) (VInt 0) (at_ 1 1)
    = Panic "runtime error: integer divide by zero"
  /\ ((isNumber (VInt 0) = (0, true)) \/ typeName (VInt 1) = typeName (VInt 0)).
Proof.
  assert (H : evalInfixExpression "/" (VInt 1) (VInt 0) (at_ 1 1)
              = Panic "runtime error: integer divide by zero") by reflexivity.
  split; [exact H|].
  destruct (infix_panics_only "/" (VInt 1) (VInt 0) (at_ 1 1) _ H)
    as [(_ & _ & H0 & _)|(_ & H0 & _)]; [left; exact H0|right; exact H0].
Defined.

(** X6.  Operators other than [==], [!=] and [and], on operands that are
    not both integers: two strings are concatenated by [+] and refused by
    every other operator; operands of two different types are a [type
    mismatch]; operands of one type other than string are an [unknown
    operator].  The errors name the operand types and carry the position
    of the operator. *)
Theorem infix_on_other_operands (operator : string) (left_ right_ : Value)
    (t : Token) :
  operator <> "==" -> operator <> "!=" -> operator <> "and" ->
  (isNumber left_).2 && (isNumber right_).2 = false ->
  evalInfixExpression operator left_ right_ t
  = Ok (match left_, right_ with
        | VString a, VString b =>
            if String.eqb operator "+" then VString (a +:+ b)
            else newError t ("unknown operator: string " +:+ operator
                             +:+ " string")
        | _, _ =>
            if String.eqb (typeName left_) (typeName right_) then
              newError t ("unknown operator: " +:+ typeName left_ +:+ " "
                          +:+ operator +:+ " " +:+ typeName right_)
            else
              newError t ("type mismatch: " +:+ typeName left_ +:+ " "
                          +:+ operator +:+ " " +:+ typeName right_)
        end).
Proof.
  intros H1 H2 H3 Hn. unfold evalInfixExpression.
  destruct (isNumber left_) as [x bl], (isNumber right_) as [y br].
  cbn [snd] in Hn. rewrite Hn.
  destruct (String.eqb_spec operator "=="); [contradiction|].
  destruct (String.eqb_spec operator "!="); [contradiction|].
  destruct (String.eqb_spec operator "and"); [contradiction|].
  rewrite !typeName_string.
  destruct left_; cbn [andb];
    try (destruct (String.eqb _ _); reflexivity).
  destruct right_; cbn [andb];
    try (destruct (String.eqb _ _); reflexivity).
  unfold evalStringInfixExpression. destruct (String.eqb operator "+"); reflexivity.
Qed.

Lemma infix_on_other_operands_witness :
  "+" <> "==" /\ "+" <> "!=" /\ "+" <> "and"
  /\ (isNumber (VString "a")).2 && (isNumber (VInt 1)).2 = false
  /\ evalInfixExpression "+" (VString "a") (VInt 1) (at_ 1 3)
     = Ok (VError "1: 3: type mismatch: string + int").
Proof.
  assert (H1 : "+" <> "==") by discriminate.
  assert (H2 : "+" <> "!=") by discriminate.
  assert (H3 : "+" <> "and") by discriminate.
  assert (H4 : (isNumber (VString "a")).2 && (isNumber (VInt 1)).2 = false)
    by reflexivity.
  split; [exact H1|]. split; [exact H2|]. split; [exact H3|]. split; [exact H4|].
  exact (infix_on_other_operands "+" (VString "a") (VInt 1) (at_ 1 3)
           H1 H2 H3 H4).
Defined.

(** X7.  [+], [-] and [*] on two integers of any of the widths [int],
    [int8] .. [int64] return a Go [int]: the exact result reduced to 64
    bits, which is the exact result whenever that fits.  The comparisons
    return the boolean of the mathematical comparison. *)
Theorem integer_arithmetic (left_ right_ : Value) (x y : Z) (t : Token) :
  isNumber left_ = (x, true) -> isNumber right_ = (y, true) ->
  evalInfixExpression "+" left_ right_ t = Ok (VInt (wrap (x + y)))
  /\ evalInfixExpression "-" left_ right_ t = Ok (VInt (wrap (x - y)))
  /\ evalInfixExpression "*" left_ right_ t = Ok (VInt (wrap (x * y)))
  /\ evalInfixExpression "<" left_ right_ t = Ok (VBool (x <? y))
  /\ evalInfixExpression ">" left_ right_ t = Ok (VBool (y <? x))
  /\ evalInfixExpression "==" left_ right_ t = Ok (VBool (x =? y))
  /\ evalInfixExpression "!=" left_ right_ t = Ok (VBool (negb (x =? y)))
  /\ forall z, is_int (wrap z) /\ (wrap z - z) mod 2 ^ 64 = 0
               /\ (is_int z -> wrap z = z).
Proof.
  intros Hl Hr. unfold evalInfixExpression. rewrite Hl, Hr. cbn [andb].
  unfold evalIntegerInfixExpression. cbn [String.eqb Ascii.eqb Bool.eqb].
  repeat split; try apply wrap_is_int.
  - now rewrite Z.gtb_ltb.
  - unfold wrap.
    replace ((z + 2 ^ 63) mod 2 ^ 64 - 2 ^ 63 - z)
      with (- ((z + 2 ^ 63) - (z + 2 ^ 63) mod 2 ^ 64)) by lia.
    rewrite (Z.div_mod (z + 2 ^ 63) (2 ^ 64)) at 1 by lia.
    replace (- (2 ^ 64 * ((z + 2 ^ 63) / 2 ^ 64) + (z + 2 ^ 63) mod 2 ^ 64
                - (z + 2 ^ 63) mod 2 ^ 64))
      with ((- ((z + 2 ^ 63) / 2 ^ 64)) * 2 ^ 64) by lia.
    apply Z.mod_mul. lia.
  - apply wrap_small.
Qed.

Lemma integer_arithmetic_witness :
  isNumber (VSized I8 100) = (100, true) /\ isNumber (VInt 28) = (28, true)
  /\ evalInfixExpression "+" (VSized I8 100) (VInt 28) (at_ 1 1)
     = Ok (VInt 128).
Proof.
  split; [reflexivity|]. split; [reflexivity|].
  exact (proj1 (integer_arithmetic (VSized I8 100) (VInt 28) 100 28 (at_ 1 1)
                  eq_refl eq_refl)).
Defined.

(** ** Builtins *)

Lemma upto_length (a b : Z) : Z.of_nat (length (upto a b)) = Z.max 0 (b - a + 1).
Proof. unfold upto. rewrite length_map, length_seq. lia. Qed.

Lemma upto_lookup (a b : Z) (i : nat) :
  Z.of_nat i <= b - a -> upto a b !! i = Some (a + Z.of_nat i).
Proof.
  intros Hi. unfold upto. rewrite list_lookup_fmap.
  rewrite lookup_seq_lt by lia. reflexivity.
Qed.

(** X8.  [range(a, b)] is the sequence of the integers from [a] to [b],
    both included, and the empty sequence when [a > b]: [len] of it is
    [b - a + 1] (or 0), as an [int64], and its element at index [i] is
    [a + i]; an index outside [0 .. b - a] gives nil. *)
Theorem range_len_index (a b : Z) (t : Token) :
  b <> parser.max_int64 ->
  exists xs,
    rangeBuiltIn [VInt a; VInt b] = Ok (VIntSlice xs)
    /\ lenBuiltIn [VIntSlice xs] = Ok (VSized I64 (Z.max 0 (b - a + 1)))
    /\ forall i,
         evalIndexExpression (VIntSlice xs) (VInt i) t
         = Ok (if (0 <=? i) && (i <=? b - a) then VInt (a + i) else VNil).
Proof.
  intros Hb. exists (upto a b). split; [|split].
  - cbn. destruct (Z.eqb_spec b parser.max_int64); [contradiction|reflexivity].
  - cbn. now rewrite upto_length.
  - intros i. unfold evalIndexExpression. cbn [kindOf bool_decide andb].
    rewrite !bool_decide_eq_true_2 by reflexivity. cbn [andb].
    unfold evalArrayIndexExpression. cbn [sliceElements].
    rewrite length_map, upto_length.
    destruct (Z.ltb_spec i 0) as [Hi|Hi].
    + cbn [orb]. destruct (Z.leb_spec 0 i); [lia|]. reflexivity.
    + cbn [orb]. destruct (Z.leb_spec 0 i); [|lia]. cbn [andb].
      destruct (Z.gtb_spec i (Z.max 0 (b - a + 1) - 1)) as [Hg|Hg];
        destruct (Z.leb_spec i (b - a)) as [Hl|Hl]; try lia; try reflexivity.
      rewrite list_lookup_fmap.
      rewrite (upto_lookup a b (Z.to_nat i)) by lia.
      cbn. now rewrite Z2Nat.id by lia.
Qed.

Lemma range_len_index_witness :
  3 <> parser.max_int64
  /\ exists xs,
       rangeBuiltIn [VInt 1; VInt 3] = Ok (VIntSlice xs)
       /\ lenBuiltIn [VIntSlice xs] = Ok (VSized I64 3)
       /\ evalIndexExpression (VIntSlice xs) (VInt 2) (at_ 1 1) = Ok (VInt 3).
Proof.
  assert (H : 3 <> parser.max_int64) by discriminate.
  split; [exact H|].
  destruct (range_len_index 1 3 (at_ 1 1) H) as (xs & Hr & Hl & Hi).
  exists xs. split; [exact Hr|]. split; [exact Hl|]. exact (Hi 2).
Defined.

(** ** Maps *)

Lemma sameValue_refl (v : Value) : comparable v = true -> sameValue v v = true.
Proof.
  revert v. fix IH 1. intros v. destruct v as [| | | | | | | | | |p t [a|] fs|];
    cbn [comparable sameValue]; intros Hc; try discriminate;
    try reflexivity;
    try apply Z.eqb_refl; try apply String.eqb_refl.
  - rewrite bool_decide_eq_true_2 by reflexivity. apply Z.eqb_refl.
  - now destruct b.
  - now rewrite !String.eqb_refl, Nat.eqb_refl.
  - rewrite !String.eqb_refl. cbn [andb].
    induction fs as [|[n x] fs IHfs]; [reflexivity|].
    apply andb_prop in Hc as [Hx Hfs]. rewrite (IH x Hx). cbn [andb].
    apply IHfs, Hfs.
  - now rewrite !String.eqb_refl.
Qed.

Lemma sameValue_sym : forall a b : Value, sameValue a b = sameValue b a.
Proof.
  fix IH 1. intros a b.
  destruct a as [| | | | | | | | | |p t [x|] fs|],
           b as [| | | | | | | | | |q t' [y|] fs'|];
    cbn [sameValue]; try reflexivity.
  - apply Z.eqb_sym.
  - f_equal; [|apply Z.eqb_sym].
    destruct (decide (k = k0)) as [->|Hk].
    + now rewrite !bool_decide_eq_true_2.
    + rewrite !bool_decide_eq_false_2; congruence.
  - now destruct b, b0.
  - apply String.eqb_sym.
  - apply String.eqb_sym.
  - apply String.eqb_sym.
  - now rewrite (String.eqb_sym p), (String.eqb_sym t), (Nat.eqb_sym x).
  - rewrite (String.eqb_sym p), (String.eqb_sym t). f_equal.
    revert fs'. induction fs as [|[n u] fs IHfs]; intros [|[n' u'] fs'];
      try reflexivity.
    rewrite (IH u u'). f_equal. apply IHfs.
  - now rewrite (String.eqb_sym pkg), (String.eqb_sym name).
Qed.

Lemma sameValue_trans :
  forall a b c : Value,
    sameValue a b = true -> sameValue b c = true -> sameValue a c = true.
Proof.
  fix IH 1. intros a b c.
  destruct a as [| | | | | | | | | |p t [x|] fs|],
           b as [| | | | | | | | | |q t' [y|] fs'|];
    cbn [sameValue]; try discriminate;
    destruct c as [| | | | | | | | | |r t'' [z|] fs''|];
    cbn [sameValue]; try discriminate; try reflexivity.
  - rewrite !Z.eqb_eq. congruence.
  - rewrite !andb_true_iff, !bool_decide_eq_true, !Z.eqb_eq.
    intros [-> ->] [-> ->]. auto.
  - destruct b, b0, b1; auto.
  - rewrite !String.eqb_eq. congruence.
  - rewrite !String.eqb_eq. congruence.
  - rewrite !String.eqb_eq. congruence.
  - rewrite !andb_true_iff, !String.eqb_eq, !Nat.eqb_eq.
    intros [[-> ->] ->] [[-> ->] ->]. auto.
  - rewrite !andb_true_iff, !String.eqb_eq.
    intros [[-> ->] H1] [[-> ->] H2]. split; [auto|].
    revert fs' fs'' H1 H2.
    induction fs as [|[n u] fs IHfs]; intros [|[n' u'] fs'] [|[n'' u''] fs''];
      try discriminate; try reflexivity.
    rewrite !andb_true_iff. intros [Hu H1] [Hu' H2]. split.
    + exact (IH u u' u'' Hu Hu').
    + exact (IHfs fs' fs'' H1 H2).
  - rewrite !andb_true_iff, !String.eqb_eq. intros [-> ->] [-> ->]. auto.
Qed.

Lemma mapLookup_replace (m : list (Value * Value)) (k v : Value) :
  is_Some (mapLookup m k) -> mapLookup (mapReplace m k v) k = Some v.
Proof.
  induction m as [|[k' v'] m IH]; cbn [mapLookup mapReplace].
  - intros [? [=]].
  - destruct (sameValue k' k) eqn:E; cbn [mapLookup]; rewrite E; auto.
Qed.

Lemma mapLookup_replace_other (m : list (Value * Value)) (k v k2 : Value) :
  sameValue k k2 = false ->
  mapLookup (mapReplace m k v) k2 = mapLookup m k2.
Proof.
  intros Hne. induction m as [|[k' v'] m IH]; cbn [mapLookup mapReplace];
    [reflexivity|].
  destruct (sameValue k' k) eqn:E; cbn [mapLookup].
  - assert (E2 : sameValue k' k2 = false).
    { destruct (sameValue k' k2) eqn:E2; [|reflexivity].
      rewrite <- Hne. symmetry. apply (sameValue_trans k k' k2); [|exact E2].
      now rewrite sameValue_sym. }
    now rewrite E2.
  - now rewrite IH.
Qed.

Lemma mapLookup_app (m : list (Value * Value)) (k v k2 : Value) :
  mapLookup (m ++ [(k, v)]) k2
  = match mapLookup m k2 with
    | Some x => Some x
    | None => if sameValue k k2 then Some v else None
    end.
Proof.
  induction m as [|[k' v'] m IH]; cbn [mapLookup app]; [reflexivity|].
  destruct (sameValue k' k2); [reflexivity|apply IH].
Qed.

(** X9.  A map assignment [m[k] = v] (the way a map literal is built, with
    a key that is no error) followed by a look-up: indexing with [k] gives
    [v], [map_key_exists] answers true, and every key that differs from [k]
    is looked up as before; the number of entries grows by one exactly when
    [k] was not a key. *)
Theorem map_assign_then_index (m m' : list (Value * Value)) (k v : Value)
    (t : Token) :
  mapAssign m k v = Ok m' -> k <> VNil -> isError k = false ->
  evalIndexExpression (VMap m') k t = Ok v
  /\ mapKeyExists [VMap m'; k] = Ok (VBool true)
  /\ (forall k2, sameValue k k2 = false -> mapLookup m' k2 = mapLookup m k2)
  /\ length m' = match mapLookup m k with
                 | Some _ => length m
                 | None => S (length m)
                 end.
Proof.
  unfold mapAssign. destruct (comparable k) eqn:Hc; [|discriminate].
  intros [= <-] Hn _.
  assert (Hl : mapLookup (match mapLookup m k with
                          | Some _ => mapReplace m k v
                          | None => m ++ [(k, v)]
                          end) k = Some v).
  { destruct (mapLookup m k) eqn:E.
    - apply mapLookup_replace. rewrite E. eauto.
    - rewrite mapLookup_app, E, sameValue_refl by assumption. reflexivity. }
  split; [|split; [|split]].
  - unfold evalIndexExpression. cbn [kindOf bool_decide andb].
    rewrite bool_decide_eq_false_2 by discriminate. cbn [andb].
    rewrite bool_decide_eq_true_2 by reflexivity.
    unfold evalMapIndexExpression, MapIndex. rewrite Hc, Hl.
    destruct k; try reflexivity. congruence.
  - cbn [mapKeyExists]. unfold MapIndex. rewrite Hc, Hl.
    destruct k; try reflexivity. congruence.
  - intros k2 Hne. destruct (mapLookup m k) eqn:E.
    + now apply mapLookup_replace_other.
    + rewrite mapLookup_app, Hne. now destruct (mapLookup m k2).
  - destruct (mapLookup m k) eqn:E.
    + clear. induction m as [|[k' v'] m IH]; cbn [mapReplace]; [reflexivity|].
      destruct (sameValue k' k); cbn [length]; congruence.
    + rewrite length_app. cbn. lia.
Qed.

Lemma map_assign_then_index_witness :
  mapAssign [(VString "a", VInt 1)] (VString "a") (VInt 2)
    = Ok [(VString "a", VInt 2)]
  /\ VString "a" <> VNil /\ isError (VString "a") = false
  /\ evalIndexExpression (VMap [(VString "a", VInt 2)]) (VString "a") (at_ 1 1)
     = Ok (VInt 2).
Proof.
  assert (H1 : mapAssign [(VString "a", VInt 1)] (VString "a") (VInt 2)
               = Ok [(VString "a", VInt 2)]) by reflexivity.
  assert (H2 : VString "a" <> VNil) by discriminate.
  split; [exact H1|]. split; [exact H2|]. split; [reflexivity|].
  exact (proj1 (map_assign_then_index _ _ _ _ (at_ 1 1) H1 H2 eq_refl)).
Defined.

(** X10.  [map_key_exists(m, k)] and [m[k]] agree: when the builtin
    answers false the index expression gives nil, when it answers true the
    index expression gives the value stored under [k], and the builtin
    panics (a nil or unhashable key) exactly when the index expression
    does, with the same message. *)
Theorem map_key_exists_agrees_with_index (m : list (Value * Value))
    (k : Value) (t : Token) :
  (exists b v,
      mapKeyExists [VMap m; k] = Ok (VBool b)
      /\ evalIndexExpression (VMap m) k t = Ok v
      /\ (b = false -> mapLookup m k = None /\ v = VNil)
      /\ (b = true -> mapLookup m k = Some v))
  \/ (exists msg,
        mapKeyExists [VMap m; k] = Panic msg
        /\ evalIndexExpression (VMap m) k t = Panic msg).
Proof.
  unfold evalIndexExpression. cbn [kindOf bool_decide andb mapKeyExists].
  rewrite bool_decide_eq_false_2 by discriminate. cbn [andb].
  rewrite bool_decide_eq_true_2 by reflexivity.
  unfold evalMapIndexExpression.
  destruct (MapIndex m k) as [[v|]| |] eqn:E; cbn [obind].
  - left. exists true, v. repeat split; try discriminate.
    intros _. unfold MapIndex in E.
    destruct k; try discriminate; destruct (comparable _); congruence.
  - left. exists false, VNil. repeat split; try discriminate.
    unfold MapIndex in E.
    destruct k; try discriminate; destruct (comparable _); congruence.
  - right. eauto.
  - exfalso. unfold MapIndex in E.
    destruct k; try discriminate; destruct (comparable _); discriminate.
Qed.

(** ** What evaluation leaves untouched *)

Lemma same_frame_refl (env : Environment) : same_frame env env.
Proof. unfold same_frame. tauto. Qed.

Lemma same_frame_trans (e1 e2 e3 : Environment) :
  same_frame e1 e2 -> same_frame e2 e3 -> same_frame e1 e3.
Proof.
  unfold same_frame. intros (?&?&?&?&?&?) (?&?&?&?&?&?).
  repeat split; try congruence. auto.
Qed.

Lemma same_frame_store (env : Environment) (s : gmap string Value) :
  same_frame env (with_store s env).
Proof. unfold same_frame. cbn. tauto. Qed.

Lemma same_frame_Sections (env : Environment)
    (s : gmap string SectionContent) :
  same_frame env (with_Sections s env).
Proof. unfold same_frame. cbn. tauto. Qed.

Lemma same_frame_Set (env : Environment) (name : string) (val : Value) :
  same_frame env (Set_ name val env).
Proof. apply same_frame_store. Qed.

Lemma same_frame_Delete (env : Environment) (name : string) :
  same_frame env (Delete name env).
Proof. apply same_frame_store. Qed.

Section Frame.

Variable w : World.
Variable fuel : nat.
Variable ev : EvalFn.
Hypothesis ev_frame :
  forall node env v env', ev node env = Ok (v, env') -> same_frame env env'.

Local Ltac through H :=
  let G := fresh in
  intros G; (eapply same_frame_trans; [eapply ev_frame; exact H|]); revert G.

Local Ltac through_Set :=
  let G := fresh in
  intros G; (eapply same_frame_trans; [apply same_frame_Set|]); revert G.

Local Ltac run E :=
  match goal with
  | |- context [obind ?c _] =>
      destruct c as [[? ?]| |] eqn:E; cbn [obind]; try discriminate
  end.

Lemma statementsLoop_frame (stmts : list ast.Node) :
  forall result env v env',
    statementsLoop w ev stmts result env = Ok (v, env') -> same_frame env env'.
Proof.
  induction stmts as [|s stmts IH]; intros result env v env'; cbn [statementsLoop].
  - intros [= _ <-]. apply same_frame_refl.
  - run E. through E. destruct (isError _).
    + intros [= _ <-]. apply same_frame_refl.
    + apply IH.
Qed.

Lemma programLoop_frame (stmts : list ast.Node) :
  forall result env r env',
    evaluator.programLoop w ev stmts result env = Ok (r, env') ->
    same_frame env env'.
Proof.
  induction stmts as [|s stmts IH]; intros result env r env';
    cbn [evaluator.programLoop].
  - intros [= _ <-]. apply same_frame_refl.
  - run E. through E. destruct (isError _).
    + intros [= _ <-]. apply same_frame_refl.
    + apply IH.
Qed.

Lemma expressionsLoop_frame (exps : list ast.Node) :
  forall result env vs env',
    expressionsLoop ev exps result env = Ok (vs, env') -> same_frame env env'.
Proof.
  induction exps as [|e exps IH]; intros result env vs env'; cbn [expressionsLoop].
  - intros [= _ <-]. apply same_frame_refl.
  - run E. through E. destruct (isError _).
    + intros [= _ <-]. apply same_frame_refl.
    + apply IH.
Qed.

Lemma mapLiteralLoop_frame (pairs : list (ast.Node * ast.Node)) :
  forall acc env v env',
    mapLiteralLoop ev pairs acc env = Ok (v, env') -> same_frame env env'.
Proof.
  induction pairs as [|[k x] pairs IH]; intros acc env v env';
    cbn [mapLiteralLoop].
  - intros [= _ <-]. apply same_frame_refl.
  - run E. through E. destruct (isError _).
    { intros [= _ <-]. apply same_frame_refl. }
    run E'. through E'. destruct (isError _).
    { intros [= _ <-]. apply same_frame_refl. }
    destruct (mapAssign _ _ _); cbn [obind]; try discriminate. apply IH.
Qed.

Lemma forSliceLoop_frame (value key : string) (block : ast.Block)
    (elems : list Value) :
  forall i out env r env',
    forSliceLoop ev value key block elems i out env = Ok (r, env') ->
    same_frame env env'.
Proof.
  induction elems as [|x elems IH]; intros i out env r env'; cbn [forSliceLoop].
  - intros [= _ <-]. apply same_frame_refl.
  - unfold evalBlock. run E.
    destruct (String.eqb key EmptyString);
      [through_Set|through_Set; through_Set]; through E;
      (destruct (isError _);
       [intros [= _ <-]; apply same_frame_refl
       |destruct v; try discriminate; apply IH]).
Qed.

Lemma forMapLoop_frame (value key : string) (block : ast.Block)
    (keys : list Value) :
  forall out env r env',
    forMapLoop ev value key block keys out env = Ok (r, env') ->
    same_frame env env'.
Proof.
  induction keys as [|x keys IH]; intros out env r env'; cbn [forMapLoop].
  - intros [= _ <-]. apply same_frame_refl.
  - unfold evalBlock. run E.
    destruct (String.eqb key EmptyString);
      [through_Set|through_Set; through_Set]; through E;
      (destruct (isError _);
       [intros [= _ <-]; apply same_frame_refl
       |destruct v; try discriminate; apply IH]).
Qed.

Lemma includeLoop_frame (pairs : list (ast.Node * ast.Node)) :
  forall newEnv env newEnv' env',
    includeLoop ev pairs newEnv env = Ok (newEnv', env') -> same_frame env env'.
Proof.
  induction pairs as [|[k x] pairs IH]; intros newEnv env newEnv' env';
    cbn [includeLoop].
  - intros [= _ <-]. apply same_frame_refl.
  - destruct (ast.String_ k); cbn [obind]; try discriminate.
    run E. through E. apply IH.
Qed.

Lemma includeEnvironment_frame (vars : ast.Node) (tok : Token)
    (env env' : Environment) (r : Value + Environment) :
  includeEnvironment ev vars tok env = Ok (r, env') -> same_frame env env'.
Proof.
  unfold includeEnvironment.
  destruct vars; try (intros [= _ <-]; apply same_frame_refl);
    try (destruct (ast.TokenLiteral _); cbn [obind]; try discriminate;
         intros [= _ <-]; apply same_frame_refl).
  destruct (includeLoop _ _ _ _) as [[newEnv e1]| |] eqn:E; cbn [obind];
    try discriminate.
  intros [= _ <-]. eapply includeLoop_frame, E.
Qed.

Lemma evalNode_frame (node : ast.Node) (env env' : Environment) (v : Value) :
  evalNode w fuel ev node env = Ok (v, env') -> same_frame env env'.
Proof.
  destruct node; cbn [evalNode]; unfold ret.
  - (* nil *) intros [= _ <-]. apply same_frame_refl.
  - discriminate.
  - (* Program *)
    unfold evalProgram.
    destruct (evaluator.programLoop _ _ _ _ _) as [[[x|result] e1]| |] eqn:E;
      cbn [obind]; try discriminate; apply programLoop_frame in E.
    + unfold ret. intros [= _ <-]. exact E.
    + destruct (InExtends e1); unfold ret.
      * destruct (internal.LoadFile _ _ _ _ _ _ _) as [lr| |]; cbn [obind];
          try discriminate.
        assert (Hf : same_frame env
                       (with_Sections (internal.lr_sections lr)
                          (with_store (internal.lr_store lr) e1))).
        { eapply same_frame_trans; [exact E|].
          eapply same_frame_trans; [apply same_frame_store|].
          apply same_frame_Sections. }
        destruct (internal.lr_err lr); [intros [= _ <-]; exact Hf|].
        destruct (map_to_list _) as [|[? ?] ?]; intros [= _ <-]; exact Hf.
      * intros [= _ <-]. exact E.
  - (* VarStatement *)
    run E. through E. destruct (isError _); intros [= _ <-].
    + apply same_frame_refl.
    + apply same_frame_store.
  - (* Identifier *) intros [= _ <-]. apply same_frame_refl.
  - (* ExpressionStatement *) apply ev_frame.
  - (* IntegerLiteral *) intros [= _ <-]. apply same_frame_refl.
  - (* PrefixExpression *)
    run E. through E. destruct (isError _).
    + intros [= _ <-]. apply same_frame_refl.
    + destruct (evalPrefixExpression _ _ _); cbn [obind]; try discriminate.
      intros [= _ <-]. apply same_frame_refl.
  - (* InfixExpression *)
    run E. through E. destruct (isError _).
    { intros [= _ <-]. apply same_frame_refl. }
    run E'. through E'. destruct (isError _).
    { intros [= _ <-]. apply same_frame_refl. }
    destruct (evalInfixExpression _ _ _ _); cbn [obind]; try discriminate.
    intros [= _ <-]. apply same_frame_refl.
  - (* Boolean *) intros [= _ <-]. apply same_frame_refl.
  - (* IfExpression *)
    unfold evalIfExpression. run E. through E. destruct (isError _).
    { intros [= _ <-]. apply same_frame_refl. }
    unfold evalBlock. destruct (isTruthy _); [apply ev_frame|].
    destruct Alternative; [apply ev_frame|].
    intros [= _ <-]. apply same_frame_refl.
  - (* BlockStatement *)
    destruct b. apply statementsLoop_frame.
  - (* CallExpression *)
    run E. through E. destruct (isError _).
    { intros [= _ <-]. apply same_frame_refl. }
    unfold evalExpressions.
    destruct (expressionsLoop _ _ _ _) as [[args e2]| |] eqn:E'; cbn [obind];
      try discriminate.
    apply expressionsLoop_frame in E'.
    destruct (singleError args); [intros [= _ <-]; exact E'|].
    destruct (applyFunction _ _ _ _); cbn [obind]; try discriminate.
    intros [= _ <-]. exact E'.
  - (* StringLiteral *)
    destruct (negb Closed); intros [= _ <-]; apply same_frame_refl.
  - (* ArrayLiteral *)
    unfold evalExpressions.
    destruct (expressionsLoop _ _ _ _) as [[args e2]| |] eqn:E'; cbn [obind];
      try discriminate.
    apply expressionsLoop_frame in E'.
    destruct (singleError args); intros [= _ <-]; exact E'.
  - (* IndexExpression *)
    run E. through E. destruct (isError _).
    { intros [= _ <-]. apply same_frame_refl. }
    run E'. through E'. destruct (isError _).
    { intros [= _ <-]. apply same_frame_refl. }
    destruct (evalIndexExpression _ _ _); cbn [obind]; try discriminate.
    intros [= _ <-]. apply same_frame_refl.
  - (* MapLiteral *) apply mapLiteralLoop_frame.
  - (* ForExpression *)
    unfold evalForExpression. run E. through E. destruct (isError _).
    { intros [= _ <-]. apply same_frame_refl. }
    match goal with
    | |- context [obind ?c _] =>
        assert (Hl : forall r e2, c = Ok (r, e2) -> same_frame e e2)
    end.
    { intros r e2. destruct v0; try (intros [= _ <-]; apply same_frame_refl).
      - apply forSliceLoop_frame.
      - apply forSliceLoop_frame.
      - apply forMapLoop_frame. }
    match goal with
    | |- context [obind ?c _] =>
        destruct c as [[r e2]| |]; cbn [obind]; try discriminate
    end.
    specialize (Hl r e2 eq_refl).
    intros G. eapply same_frame_trans; [exact Hl|]. revert G.
    destruct r; unfold ret; intros [= _ <-]; [apply same_frame_refl|].
    destruct (String.eqb Key EmptyString); [apply same_frame_Delete|].
    eapply same_frame_trans; apply same_frame_Delete.
  - (* ExtendsStatement *)
    unfold evalExtendsStatement. destruct (_ || _); intros [= _ <-].
    + apply same_frame_refl.
    + unfold same_frame. cbn. tauto.
  - (* SectionStatement *)
    unfold evalSectionStatement.
    destruct (negb _); [intros [= _ <-]; apply same_frame_refl|].
    destruct (IsExtends env); [intros [= _ <-]; apply same_frame_refl|].
    destruct (InSection env); [intros [= _ <-]; apply same_frame_refl|].
    unfold evalBlock. run E. through E. unfold ret. intros [= _ <-].
    apply same_frame_Sections.
  - (* DefineStatement *)
    unfold evalDefineStatement.
    destruct (InDefine env); [intros [= _ <-]; apply same_frame_refl|].
    destruct (_ !! _); [intros [= _ <-]; apply same_frame_Sections|].
    apply ev_frame.
  - (* DotExpression *)
    unfold evalDotExpression. run E. through E. destruct (isError _).
    { intros [= _ <-]. apply same_frame_refl. }
    match goal with
    | |- context [match ?f with inl _ => _ | inr _ => _ end] => destruct f
    end; unfold ret; [intros [= _ <-]; apply same_frame_refl|].
    destruct (_ (ast.ident_Value Right)); [|intros [= _ <-]; apply same_frame_refl].
    destruct (exported _); [|discriminate].
    intros [= _ <-]. apply same_frame_refl.
  - (* IncludeStatement *)
    unfold evalIncludeStatement.
    destruct (includeEnvironment _ _ _ _) as [[r e1]| |] eqn:E; cbn [obind];
      try discriminate.
    apply includeEnvironment_frame in E. unfold ret.
    destruct r as [x|newEnv].
    + intros [= _ <-]. exact E.
    + destruct (internal.LoadFile _ _ _ _ _ _ _) as [lr| |]; cbn [obind];
        try discriminate.
      destruct (internal.lr_err lr); intros [= _ <-]; exact E.
  - (* HtmlLiteral *) intros [= _ <-]. apply same_frame_refl.
Qed.

End Frame.

(** X11.  Evaluating a node changes nothing of an environment but its
    store, its sections, the name of the parent template and the flag
    [InExtends], which is only ever raised: the enclosing scope, the file
    name and the flags [IsExtends], [InSection] and [InDefine] are after
    the evaluation what they were before.  No node opens a scope, and no
    node raises [InSection] or [InDefine]. *)
Theorem Eval_keeps_frame (w : World) (fuel : nat) (node : ast.Node)
    (env env' : Environment) (v : Value) :
  Eval_ w fuel node env = Ok (v, env') ->
  outer env' = outer env
  /\ FileName env' = FileName env
  /\ IsExtends env' = IsExtends env
  /\ InSection env' = InSection env
  /\ InDefine env' = InDefine env
  /\ (InExtends env = true -> InExtends env' = true).
Proof.
  change (Eval_ w fuel node env = Ok (v, env') -> same_frame env env').
  revert node env v env'. induction fuel as [|n IH]; intros node env v env';
    cbn [Eval_]; [discriminate|].
  apply evalNode_frame. exact IH.
Qed.

Lemma Eval_keeps_frame_witness :
  let w := plain_host [] in
  let t := at_ 1 1 in
  let node :=
    ast.Program
      [ast.ExpressionStatement t
         (ast.SectionStatement t
            (ast.mkBlock t [ast.ExpressionStatement t (ast.IntegerLiteral t 1)])
            "a")] in
  let env := with_InExtends true NewEnvironment in
  exists env',
    Eval_ w 6 node env
      = Ok (VError "open .lamb.html: no such file or directory", env')
    /\ InSection env' = false /\ outer env' = None.
Proof.
  intros w t node env. eexists. split; [vm_compute; reflexivity|].
  match goal with
  | |- InSection ?e = _ /\ _ =>
      assert (H : Eval_ w 6 node env
                  = Ok (VError "open .lamb.html: no such file or directory", e))
        by (vm_compute; reflexivity);
      destruct (Eval_keeps_frame w 6 node env e _ H) as (Ho & _ & _ & Hs & _)
  end.
  split; [exact Hs|exact Ho].
Defined.

(** ** Blocks, variables, loops over maps, sections *)

Lemma statementsLoop_values (w : World) (ev : EvalFn) (stmts : list ast.Node)
    (env env' : Environment) (vs : list Value) :
  values_evaluated ev stmts env vs env' ->
  Forall (fun v => isError v = false) vs ->
  forall result,
    statementsLoop w ev stmts result env
    = Ok (VString (result +:+ concatenation (map (rendered w) vs)), env').
Proof.
  induction 1 as [env|n ns env env1 env2 v vs He _ IH]; intros Hok result.
  - cbn. now rewrite append_empty_r.
  - apply Forall_cons in Hok as [Hv Hvs].
    cbn [statementsLoop]. rewrite He. cbn [obind]. rewrite Hv.
    rewrite (IH Hvs). cbn [map concatenation fold_right].
    unfold rendered at 2. destruct v; rewrite ?append_assoc; reflexivity.
Qed.

Lemma statementsLoop_fails (w : World) (ev : EvalFn) (stmts : list ast.Node)
    (env env' : Environment) (msg : string) :
  fails_at ev stmts env msg env' ->
  forall result,
    statementsLoop w ev stmts result env = Ok (VError msg, env').
Proof.
  induction 1 as [s rest env env' msg He
                 | s rest env env1 env' r msg He Hr _ IH]; intros result;
    cbn [statementsLoop]; rewrite He; cbn [obind].
  - reflexivity.
  - rewrite Hr. apply IH.
Qed.

(** X12.  The value of a block is the concatenation, in order, of what its
    statements evaluate to, each printed as [%v] does and nil adding
    nothing; the environment is threaded through the statements.  When a
    statement evaluates to an error the block ends there: its value is
    that error, and the output of the statements before it is dropped. *)
Theorem block_output (w : World) (fuel : nat) (tok : Token)
    (stmts : list ast.Node) (env env' : Environment) :
  (forall vs,
      values_evaluated (Eval_ w fuel) stmts env vs env' ->
      Forall (fun v => isError v = false) vs ->
      Eval_ w (S fuel) (ast.BlockStatement (ast.mkBlock tok stmts)) env
      = Ok (VString (concatenation (map (rendered w) vs)), env'))
  /\ (forall msg,
        fails_at (Eval_ w fuel) stmts env msg env' ->
        Eval_ w (S fuel) (ast.BlockStatement (ast.mkBlock tok stmts)) env
        = Ok (VError msg, env')).
Proof.
  split.
  - intros vs Hvs Hok. cbn [Eval_ evalNode]. unfold evalStatements.
    now rewrite (statementsLoop_values _ _ _ _ _ _ Hvs Hok).
  - intros msg Hf. cbn [Eval_ evalNode]. unfold evalStatements.
    now rewrite (statementsLoop_fails _ _ _ _ _ _ Hf).
Qed.

Lemma block_output_witness :
  let w := plain_host [] in
  let t := at_ 1 1 in
  let x := ast.mkIdent t "x" in
  let stmts :=
    [ast.VarStatement t x (ast.IntegerLiteral t 4);
     ast.ExpressionStatement t (ast.Identifier x);
     ast.ExpressionStatement t (ast.Boolean t true)] in
  Eval_ w 3 (ast.BlockStatement (ast.mkBlock t stmts)) NewEnvironment
  = Ok (VString "4true", Set_ "x" (VInt 4) NewEnvironment).
Proof.
  intros w t x stmts.
  apply (proj1 (block_output w 2 t stmts NewEnvironment
                  (Set_ "x" (VInt 4) NewEnvironment))
           [VNil; VInt 4; VBool true]).
  - repeat (econstructor; [vm_compute; reflexivity|]). constructor.
  - repeat constructor.
Defined.

(** X13.  [var x = e] evaluates [e]; an error is returned and binds
    nothing; any other value is bound to [x] in the environment the
    statement is evaluated in, and the statement itself renders nothing.
    From then on the identifier [x] evaluates to that value, also when [x]
    is the name of a builtin: variables are looked up first. *)
Theorem var_then_identifier (w : World) (fuel : nat) (tok tok' : Token)
    (name : ast.Ident) (value : ast.Node) (env env1 : Environment) (v : Value) :
  Eval_ w fuel value env = Ok (v, env1) ->
  Eval_ w (S fuel) (ast.VarStatement tok name value) env
    = (if isError v then Ok (v, env1)
       else Ok (VNil, Set_ (ast.ident_Value name) v env1))
  /\ forall fuel',
       Eval_ w (S fuel')
             (ast.Identifier (ast.mkIdent tok' (ast.ident_Value name)))
             (Set_ (ast.ident_Value name) v env1)
       = Ok (v, Set_ (ast.ident_Value name) v env1).
Proof.
  intros He. split.
  - cbn [Eval_ evalNode]. rewrite He. cbn [obind]. now destruct (isError v).
  - intros fuel'. cbn [Eval_ evalNode]. unfold evalIdentifier, ret.
    cbn [ast.ident_Value].
    now rewrite Get_Set_eq.
Qed.

Lemma var_then_identifier_witness :
  let w := plain_host [] in
  let t := at_ 1 1 in
  Eval_ w 1 (ast.IntegerLiteral t 7) NewEnvironment = Ok (VInt 7, NewEnvironment)
  /\ Eval_ w 2 (ast.VarStatement t (ast.mkIdent t "len") (ast.IntegerLiteral t 7))
           NewEnvironment
     = Ok (VNil, Set_ "len" (VInt 7) NewEnvironment)
  /\ Eval_ w 1 (ast.Identifier (ast.mkIdent t "len"))
           (Set_ "len" (VInt 7) NewEnvironment)
     = Ok (VInt 7, Set_ "len" (VInt 7) NewEnvironment).
Proof.
  intros w t.
  assert (H : Eval_ w 1 (ast.IntegerLiteral t 7) NewEnvironment
              = Ok (VInt 7, NewEnvironment)) by reflexivity.
  split; [exact H|].
  destruct (var_then_identifier w 1 t t (ast.mkIdent t "len")
              (ast.IntegerLiteral t 7) NewEnvironment NewEnvironment (VInt 7) H)
    as [H1 H2].
  split; [exact H1|exact (H2 0%nat)].
Defined.

Lemma forMapLoop_runs (ev : EvalFn) (key value : string) (block : ast.Block) :
  forall keys out env outs env',
    key_runs ev key value block keys env outs env' ->
    forMapLoop ev value key block keys out env
    = Ok (inr (out +:+ concatenation outs), env').
Proof.
  intros keys out env outs env' H. revert out.
  induction H as [env | k keys env env' env'' s outs He _ IH]; intros out.
  - cbn. now rewrite append_empty_r.
  - cbn [forMapLoop]. unfold bind_key in He. unfold evalBlock.
    destruct (String.eqb key EmptyString); rewrite He; cbn [obind isError];
      rewrite IH; cbn [concatenation fold_right]; now rewrite append_assoc.
Qed.

Lemma forMapLoop_result (ev : EvalFn) (key value : string) (block : ast.Block) :
  forall keys out env r env',
    forMapLoop ev value key block keys out env = Ok (r, env') ->
    match r with
    | inl v => isError v = true
    | inr out' =>
        exists outs,
          key_runs ev key value block keys env outs env'
          /\ out' = out +:+ concatenation outs
    end.
Proof.
  intros keys. induction keys as [|k keys IH]; intros out env r env'.
  - cbn. intros [= <- <-]. exists []. split; [constructor|].
    cbn. now rewrite append_empty_r.
  - cbn [forMapLoop]. unfold evalBlock.
    destruct (ev _ (if String.eqb key EmptyString then _ else _))
      as [[res env1]| |] eqn:He; cbn [obind]; try discriminate.
    destruct (isError res) eqn:Hres; [intros [= <- _]; exact Hres|].
    destruct res; try discriminate.
    intros Hloop. apply IH in Hloop. destruct r as [v|out']; [exact Hloop|].
    destruct Hloop as (outs & Hruns & ->).
    exists (s :: outs). split.
    + econstructor; [|exact Hruns]. unfold bind_key. exact He.
    + cbn [concatenation fold_right]. now rewrite append_assoc.
Qed.

(** X14.  A [for] loop over a map runs its body once per key and binds the
    loop names to the keys only: in the form [for k, v in m] both [k] and
    [v] are bound to the key, in the form [for v in m] the one name is; the
    values stored in the map are bound to no name.  The loop returns a
    string exactly when every run of the body does; the result is then the
    concatenation of the runs' strings, and the loop names are deleted from
    the store.  (The keys are visited in the order of the model's entries;
    Go leaves the order open.) *)
Theorem for_over_map (w : World) (fuel : nat) (tok : Token)
    (key value : string) (in_ : ast.Node) (block : ast.Block)
    (env env1 : Environment) (pairs : list (Value * Value)) :
  Eval_ w fuel in_ env = Ok (VMap pairs, env1) ->
  forall out env',
    Eval_ w (S fuel) (ast.ForExpression tok key value in_ block) env
      = Ok (VString out, env')
    <-> exists outs envn,
          key_runs (Eval_ w fuel) key value block (map fst pairs) env1
                   outs envn
          /\ out = concatenation outs
          /\ env' = (if String.eqb key EmptyString then Delete value envn
                     else Delete key (Delete value envn)).
Proof.
  intros Hin out env'.
  cbn [Eval_ evalNode]. unfold evalForExpression. rewrite Hin.
  cbn [obind isError]. split.
  - destruct (forMapLoop _ _ _ _ _ _ _) as [[[v|o] envn]| |] eqn:Hl;
      cbn [obind ret]; try discriminate; apply forMapLoop_result in Hl.
    + intros [= -> _]. discriminate Hl.
    + intros [= <- <-]. destruct Hl as (outs & Hruns & ->).
      exists outs, envn. auto.
  - intros (outs & envn & Hruns & -> & ->).
    rewrite (forMapLoop_runs _ _ _ _ _ _ _ _ _ Hruns). reflexivity.
Qed.

Lemma for_over_map_witness :
  let w := plain_host [] in
  let t := at_ 1 1 in
  let name x := ast.ExpressionStatement t (ast.Identifier (ast.mkIdent t x)) in
  let in_ :=
    ast.MapLiteral t [(ast.IntegerLiteral t 1, ast.IntegerLiteral t 50)] in
  let block := ast.mkBlock t [name "k"; name "v"] in
  Eval_ w 4 in_ NewEnvironment = Ok (VMap [(VInt 1, VInt 50)], NewEnvironment)
  /\ Eval_ w 5 (ast.ForExpression t "k" "v" in_ block) NewEnvironment
     = Ok (VString "11", NewEnvironment).
Proof.
  intros w t name in_ block.
  assert (H : Eval_ w 4 in_ NewEnvironment
              = Ok (VMap [(VInt 1, VInt 50)], NewEnvironment)) by reflexivity.
  split; [exact H|].
  apply (proj2 (for_over_map w 4 t "k" "v" in_ block NewEnvironment
                  NewEnvironment _ H "11" NewEnvironment)).
  exists ["11"], (Set_ "k" (VInt 1) (Set_ "v" (VInt 1) NewEnvironment)).
  split; [|split].
  - econstructor; [vm_compute; reflexivity|constructor].
  - reflexivity.
  - vm_compute. reflexivity.
Defined.

(** X15.  A section fills one [define].  In a child template (after
    [extends], outside the parent) a [section] statement evaluates its
    block and stores the result, an error included, under its name; it
    renders nothing.  A [define] of that name then returns the stored
    result instead of its own content and removes the section, so that a
    second [define] of the name evaluates its own content. *)
Theorem section_fills_one_define (w : World) (fuel : nat) (tok tok' : Token)
    (name : string) (block content : ast.Block) (env env1 penv : Environment)
    (c : Value) :
  InExtends env = true -> IsExtends env = false -> InSection env = false ->
  Eval_ w fuel (ast.BlockStatement block) env = Ok (c, env1) ->
  InDefine penv = false ->
  Sections (ExtendsFrom penv)
    = <[name := mkSectionContent tok name c]> (Sections (ExtendsFrom env1)) ->
  let penv' := with_Sections (delete name (Sections (ExtendsFrom penv))) penv in
  Eval_ w (S fuel) (ast.SectionStatement tok block name) env
    = Ok (VNil,
          with_Sections (<[name := mkSectionContent tok name c]>
                           (Sections (ExtendsFrom env1))) env1)
  /\ Eval_ w (S fuel) (ast.DefineStatement tok' name content) penv
     = Ok (c, penv')
  /\ Eval_ w (S fuel) (ast.DefineStatement tok' name content) penv'
     = Eval_ w fuel (ast.BlockStatement content) penv'.
Proof.
  intros H1 H2 H3 He H4 Hs penv'. split; [|split].
  - cbn [Eval_ evalNode]. unfold evalSectionStatement.
    rewrite H1, H2, H3. cbn [negb]. unfold evalBlock. rewrite He. reflexivity.
  - cbn [Eval_ evalNode]. unfold evalDefineStatement. rewrite H4, Hs.
    rewrite lookup_insert_eq. cbn [sc_Content]. rewrite <- Hs. reflexivity.
  - cbn [Eval_ evalNode]. unfold evalDefineStatement.
    assert (Hd : InDefine penv' = false) by exact H4. rewrite Hd.
    assert (Hl : Sections (ExtendsFrom penv') !! name = None)
      by (cbn; apply lookup_delete_eq).
    rewrite Hl. reflexivity.
Qed.

Lemma section_fills_one_define_witness :
  let w := plain_host [] in
  let t := at_ 1 1 in
  let block := ast.mkBlock t [ast.ExpressionStatement t (ast.IntegerLiteral t 1)] in
  let content := ast.mkBlock t [ast.ExpressionStatement t (ast.IntegerLiteral t 2)] in
  let env := with_InExtends true NewEnvironment in
  let penv :=
    with_Sections {["a" := mkSectionContent t "a" (VString "1")]} NewEnvironment in
  InExtends env = true /\ IsExtends env = false /\ InSection env = false
  /\ Eval_ w 3 (ast.BlockStatement block) env = Ok (VString "1", env)
  /\ InDefine penv = false
  /\ Eval_ w 4 (ast.DefineStatement t "a" content) penv
     = Ok (VString "1", NewEnvironment)
  /\ Eval_ w 4 (ast.DefineStatement t "a" content) NewEnvironment
     = Ok (VString "2", NewEnvironment).
Proof.
  intros w t block content env penv.
  assert (He : Eval_ w 3 (ast.BlockStatement block) env = Ok (VString "1", env))
    by reflexivity.
  assert (Hs : Sections (ExtendsFrom penv)
               = <["a" := mkSectionContent t "a" (VString "1")]>
                   (Sections (ExtendsFrom env))) by reflexivity.
  destruct (section_fills_one_define w 3 t t "a" block content env env penv
              (VString "1") eq_refl eq_refl eq_refl He eq_refl Hs)
    as (_ & Hd1 & Hd2).
  do 3 (split; [reflexivity|]). split; [exact He|]. split; [reflexivity|].
  split; [exact Hd1|]. exact Hd2.
Defined.

(** ** The loader's cache *)

(** X16.  The render cache is keyed by the template name alone and is
    consulted only when the variables hold a non-empty string under
    [__cache].  Then a fresh entry is the whole result: its content is
    written, with no regard to the template file, the evaluator or the
    other variables.  Without such a variable the cache is not looked at:
    the result is that of a host without cache entries. *)
Theorem cache_is_keyed_by_name (w : World) (fuel : nat) (fileName : string)
    (vars : gmap string Value) (out : string) (ev : EvalFn)
    (env : Environment) :
  (forall cache content,
      vars !! "__cache" = Some (VString cache) -> cache <> EmptyString ->
      cache_stat w (cache_dir w +:+ "/" +:+ fileName)
        = Some (CacheFresh content) ->
      internal.LoadFile w fuel fileName vars out ev env
      = Ok (internal.mkLoadResult None (out +:+ content)
              (vars ∪ store env) (Sections (ExtendsFrom env))))
  /\ ((forall cache, vars !! "__cache" = Some (VString cache) ->
                     cache = EmptyString) ->
      internal.LoadFile w fuel fileName vars out ev env
      = internal.LoadFile
          (mkWorld (base_dir w) (cache_dir w) (files w) (read_error w)
                   (fun _ => None) (host_builtins w) (builtin_field w)
                   (fmt_extern w))
          fuel fileName vars out ev env).
Proof.
  split.
  - intros cache content Hv Hc Hs. unfold internal.LoadFile.
    rewrite Hv, Hs. destruct (String.eqb_spec cache EmptyString); [contradiction|].
    reflexivity.
  - intros Hv. unfold internal.LoadFile. cbn [cache_stat base_dir cache_dir files read_error].
    destruct (cache_stat w _); [|reflexivity].
    destruct (vars !! "__cache") as [[]|] eqn:E; try reflexivity.
    rewrite (Hv _ eq_refl). reflexivity.
Qed.

Lemma cache_is_keyed_by_name_witness :
  let w :=
    mkWorld EmptyString ".cache" (fun _ => None) (fun _ => EmptyString)
            (fun f => if String.eqb f ".cache/home" then Some (CacheFresh "old")
                      else None)
            (fun _ => None) (fun _ _ => None) (fun _ => EmptyString) in
  let vars : gmap string Value :=
    {["__cache" := VString "all"; "user" := VString "ann"]} in
  vars !! "__cache" = Some (VString "all") /\ "all" <> EmptyString
  /\ render w 0 "home" vars
     = Ok (internal.mkLoadResult None "old" vars ∅).
Proof.
  intros w vars.
  assert (H1 : vars !! "__cache" = Some (VString "all")) by reflexivity.
  assert (H2 : "all" <> EmptyString) by discriminate.
  split; [exact H1|]. split; [exact H2|].
  unfold render.
  rewrite (proj1 (cache_is_keyed_by_name w 0 "home" vars EmptyString
                    (Eval_ w 0) NewEnvironment) "all" "old" H1 H2 eq_refl).
  f_equal.
Defined.

(** ** The configuration builtins *)

Lemma Split_cons (s : string) (sep : ascii) :
  exists seg rest, Split s sep = seg :: rest.
Proof.
  induction s as [|c s (seg & rest & IH)]; cbn [Split]; [eauto|].
  destruct (Ascii.eqb c sep); [eauto|]. rewrite IH. eauto.
Qed.

Lemma Split_dotless (s : string) : dotless s = true -> Split s "." = [s].
Proof.
  induction s as [|c s IH]; cbn [Split dotless]; [reflexivity|].
  intros H. apply andb_prop in H as [Hc Hs]. apply negb_true_iff in Hc.
  rewrite Hc, (IH Hs). reflexivity.
Qed.

Lemma Split_dot (k rest : string) :
  dotless k = true ->
  Split (k +:+ "." +:+ rest) "." = k :: Split rest ".".
Proof.
  induction k as [|c k IH]; cbn [dotless]; intros H.
  - reflexivity.
  - apply andb_prop in H as [Hc Hk]. apply negb_true_iff in Hc.
    change (String c k +:+ "." +:+ rest) with (String c (k +:+ "." +:+ rest)).
    cbn [Split]. rewrite Hc, (IH Hk). reflexivity.
Qed.

Lemma join_Split (s : string) : ast.join "." (Split s ".") = s.
Proof.
  unfold ast.join. induction s as [|c s IH]; [reflexivity|]. cbn [Split].
  destruct (Ascii.eqb_spec c ".") as [->|Hc].
  - destruct (Split_cons s ".") as (seg & rest & E). rewrite E in *.
    cbn [String.concat]. cbn [String.concat] in IH. now rewrite IH.
  - destruct (Split_cons s ".") as (seg & rest & E). rewrite E in *.
    destruct rest; cbn [String.concat] in *; now rewrite <- IH.
Qed.

Lemma length_append (a b : string) :
  String.length (a +:+ b) = (String.length a + String.length b)%nat.
Proof.
  induction a as [|c a IH]; [reflexivity|].
  change (S (String.length (a +:+ b))
          = S (String.length a + String.length b)).
  now rewrite IH.
Qed.

Lemma join_tail_shorter (s k : string) (rest : list string) :
  Split s "." = k :: rest -> rest <> [] ->
  (String.length (ast.join "." rest) < String.length s)%nat.
Proof.
  intros E Hr.
  assert (Hs : s = ast.join "." (k :: rest))
    by (rewrite <- E; symmetry; apply join_Split).
  rewrite Hs. unfold ast.join. destruct rest as [|r rest]; [contradiction|].
  change (String.concat "." (k :: r :: rest))
    with (k +:+ "." +:+ String.concat "." (r :: rest)).
  rewrite !length_append. cbn. lia.
Qed.

Lemma lookForConfigKeysLoop_enough :
  forall n m key n',
    (String.length key < n)%nat -> (String.length key < n')%nat ->
    lookForConfigKeysLoop n m key = lookForConfigKeysLoop n' m key.
Proof.
  induction n as [|n IH]; intros m key n' Hn Hn'; [lia|].
  destruct n' as [|n']; [lia|]. cbn [lookForConfigKeysLoop].
  destruct (Split key ".") as [|k [|r rest]] eqn:E; try reflexivity.
  destruct (mapLookup m (VString k)) as [[]|]; try reflexivity.
  assert (Hlt := join_tail_shorter key k (r :: rest) E ltac:(discriminate)).
  apply IH; lia.
Qed.

Lemma lookForConfigKeys_path (m : list (Value * Value)) :
  (forall key, dotless key = true ->
     lookForConfigKeys m key
     = Ok (match mapLookup m (VString key) with
           | Some value => (true, value)
           | None => (false, VNil)
           end))
  /\ (forall k rest, dotless k = true ->
        lookForConfigKeys m (k +:+ "." +:+ rest)
        = match mapLookup m (VString k) with
          | Some (VMap submap) => lookForConfigKeys submap rest
          | _ => Ok (false, VString k)
          end).
Proof.
  split.
  - intros key Hk. unfold lookForConfigKeys. cbn [lookForConfigKeysLoop].
    rewrite (Split_dotless _ Hk). now destruct (mapLookup m (VString key)).
  - intros k rest Hk. unfold lookForConfigKeys at 1.
    cbn [lookForConfigKeysLoop]. rewrite (Split_dot _ _ Hk).
    destruct (Split_cons rest ".") as (seg & segs & E). rewrite E.
    destruct (mapLookup m (VString k)) as [[]|]; try reflexivity.
    rewrite <- E, join_Split. unfold lookForConfigKeys.
    apply lookForConfigKeysLoop_enough; rewrite ?length_append; cbn; lia.
Qed.

Lemma lookForConfigKeys_returns (m : list (Value * Value)) (key : string) :
  exists found value, lookForConfigKeys m key = Ok (found, value).
Proof.
  unfold lookForConfigKeys.
  assert (H : forall n m' key', (String.length key' < n)%nat ->
                exists found value,
                  lookForConfigKeysLoop n m' key' = Ok (found, value)).
  { induction n as [|n IH]; intros m' key' Hn; [lia|].
    cbn [lookForConfigKeysLoop].
    destruct (Split key' ".") as [|k [|r rest]] eqn:E; eauto.
    - destruct (mapLookup m' (VString k)); eauto.
    - destruct (mapLookup m' (VString k)) as [[]|]; eauto.
      assert (Hlt := join_tail_shorter key' k (r :: rest) E ltac:(discriminate)).
      apply IH. lia. }
  apply H. lia.
Qed.

(** X17.  [lookForConfigKeys] follows a dotted key through nested maps: a
    key without a dot is looked up in the map itself, and [k.rest] is
    [rest] looked up in the map stored under [k]; when [k] is missing or
    holds no map the look-up fails and hands back [k].  The look-up ends on
    every key. *)
Theorem lookForConfigKeys_follows_path (m : list (Value * Value)) :
  (forall key, dotless key = true ->
     lookForConfigKeys m key
     = Ok (match mapLookup m (VString key) with
           | Some value => (true, value)
           | None => (false, VNil)
           end))
  /\ (forall k rest, dotless k = true ->
        lookForConfigKeys m (k +:+ "." +:+ rest)
        = match mapLookup m (VString k) with
          | Some (VMap submap) => lookForConfigKeys submap rest
          | _ => Ok (false, VString k)
          end)
  /\ forall key, exists found value,
       lookForConfigKeys m key = Ok (found, value).
Proof.
  split; [|split].
  - apply lookForConfigKeys_path.
  - apply lookForConfigKeys_path.
  - apply lookForConfigKeys_returns.
Qed.

Lemma lookForConfigKeys_follows_path_witness :
  let m := [(VString "static", VMap [(VString "path", VString "/pub")])] in
  dotless "static" = true
  /\ lookForConfigKeys m "static.path" = Ok (true, VString "/pub").
Proof.
  intros m. split; [reflexivity|].
  exact (eq_trans
           (proj1 (proj2 (lookForConfigKeys_follows_path m)) "static" "path"
              eq_refl)
           eq_refl).
Defined.





(** ** Setting up *)

Section InitProperties.

Variable ParseDuration : string -> option Z.
Variable DurationString : Z -> string.

(** X20.  [Init] is all or nothing: when it returns an error it has set no
    environment variable.  Every check comes before the first [Setenv]. *)
Theorem Init_failure_sets_nothing (config : list (Value * Value))
    (environ environ' : gmap string string) (err : string) :
  lamb.Init ParseDuration DurationString config environ = (Some err, environ') ->
  environ' = environ.
Proof.
  unfold lamb.Init.
  destruct (mapLookup config (VString "lamb")) as [[]|]; try (intros [= _ <-]; reflexivity).
  destruct (mapLookup m (VString "dir")) as [[]|]; try (intros [= _ <-]; reflexivity).
  destruct (mapLookup m (VString "cache")) as [[]|]; try (intros [= _ <-]; reflexivity);
    try discriminate.
  destruct (mapLookup m0 (VString "dir")) as [[]|]; try (intros [= _ <-]; reflexivity).
  destruct (mapLookup m0 (VString "time")) as [[]|]; try (intros [= _ <-]; reflexivity).
  destruct (ParseDuration _); [discriminate|]. intros [= _ <-]. reflexivity.
Qed.

(** X21.  [Init] succeeds only on a configuration whose [lamb] map has a
    string [dir]; it then sets [GOVEL_LAMB_BASE_DIR] to it.  A [cache] map,
    when there is one, must hold a string [dir] and a string [time] that
    parses as a duration: the directory is never defaulted, a cache map
    without [dir] is refused. *)
Theorem Init_success (config : list (Value * Value))
    (environ environ' : gmap string string) :
  lamb.Init ParseDuration DurationString config environ = (None, environ') ->
  exists lambConfig dir,
    mapLookup config (VString "lamb") = Some (VMap lambConfig)
    /\ mapLookup lambConfig (VString "dir") = Some (VString dir)
    /\ (lamb.has_nul dir = false ->
        environ' !! "GOVEL_LAMB_BASE_DIR" = Some dir)
    /\ match mapLookup lambConfig (VString "cache") with
       | None => environ' = lamb.Setenv "GOVEL_LAMB_BASE_DIR" dir environ
       | Some cache =>
           exists cacheMap cacheDir cacheTime d,
             cache = VMap cacheMap
             /\ mapLookup cacheMap (VString "dir") = Some (VString cacheDir)
             /\ mapLookup cacheMap (VString "time") = Some (VString cacheTime)
             /\ ParseDuration cacheTime = Some d
             /\ environ'
                = lamb.Setenv "GOVEL_LAMB_BASE_DIR" dir
                    (lamb.Setenv "GOVEL_LAMB_CACHE_TIME" (DurationString d)
                       (lamb.Setenv "GOVEL_LAMB_CACHE_DIR" cacheDir environ))
       end.
Proof.
  unfold lamb.Init.
  destruct (mapLookup config (VString "lamb")) as [[]|] eqn:El;
    try discriminate.
  destruct (mapLookup m (VString "dir")) as [[]|] eqn:Edir; try discriminate.
  assert (Hb : forall e, lamb.has_nul s = false ->
            lamb.Setenv "GOVEL_LAMB_BASE_DIR" s e !! "GOVEL_LAMB_BASE_DIR"
            = Some s).
  { intros e Hs. unfold lamb.Setenv. rewrite Hs. apply lookup_insert_eq. }
  destruct (mapLookup m (VString "cache")) as [[]|] eqn:Ec; try discriminate.
  - destruct (mapLookup m0 (VString "dir")) as [[]|] eqn:Ed; try discriminate.
    destruct (mapLookup m0 (VString "time")) as [[]|] eqn:Et; try discriminate.
    destruct (ParseDuration _) as [d|] eqn:Ep; [|discriminate].
    cbn [negb]. intros [= <-]. exists m, s.
    split; [reflexivity|]. split; [exact Edir|]. split; [apply Hb|].
    rewrite Ec. exists m0, s0, s1, d. auto.
  - intros [= <-]. exists m, s.
    split; [reflexivity|]. split; [exact Edir|]. split; [apply Hb|].
    rewrite Ec. reflexivity.
Qed.

End InitProperties.

Lemma Init_failure_sets_nothing_witness :
  let parse := fun s : string => if String.eqb s "1h" then Some 3600 else None in
  let show := fun _ : Z => "1h0m0s" in
  let config :=
    [(VString "lamb",
      VMap [(VString "dir", VString "views/");
            (VString "cache", VMap [(VString "time", VString "1h")])])] in
  let environ : gmap string string := {["HOME" := "/root"]} in
  (lamb.Init parse show config environ).1
    = Some "lamb: cache: dir must be a string"
  /\ (lamb.Init parse show config environ).2 = environ.
Proof.
  intros parse show config environ.
  assert (H : lamb.Init parse show config environ
              = (Some "lamb: cache: dir must be a string",
                 (lamb.Init parse show config environ).2)) by reflexivity.
  split; [reflexivity|].
  exact (Init_failure_sets_nothing parse show config environ _ _ H).
Defined.

Lemma Init_success_witness :
  let parse := fun s : string => if String.eqb s "1h" then Some 3600 else None in
  let show := fun _ : Z => "1h0m0s" in
  let config :=
    [(VString "lamb",
      VMap [(VString "dir", VString "views/");
            (VString "cache",
             VMap [(VString "dir", VString "tmp"); (VString "time", VString "1h")])])] in
  let environ' : gmap string string :=
    {["GOVEL_LAMB_BASE_DIR" := "views/"; "GOVEL_LAMB_CACHE_DIR" := "tmp";
      "GOVEL_LAMB_CACHE_TIME" := "1h0m0s"]} in
  lamb.Init parse show config ∅ = (None, environ')
  /\ exists lambConfig dir,
       mapLookup config (VString "lamb") = Some (VMap lambConfig)
       /\ mapLookup lambConfig (VString "dir") = Some (VString dir).
Proof.
  intros parse show config environ'.
  assert (H : lamb.Init parse show config ∅ = (None, environ'))
    by (vm_compute; reflexivity).
  split; [exact H|].
  destruct (Init_success parse show config ∅ environ' H)
    as (lambConfig & dir & H1 & H2 & _).
  exists lambConfig, dir. split; [exact H1|exact H2].
Defined.

(** X22.  [LoadLambFuntions] never replaces a function of the registry:
    what was registered is registered after the call, whether the call
    returns or panics.  It returns, with every given function added,
    exactly when none of the given names is registered already; otherwise
    it panics, in whatever order the names are visited. *)
Theorem LoadLambFuntions_adds (B : Type) (funcs : list (string * B))
    (Builtins : gmap string B) :
  NoDup funcs.*1 ->
  (forall k f, Builtins !! k = Some f ->
               (lamb.LoadLambFuntions funcs Builtins).1 !! k = Some f)
  /\ ((lamb.LoadLambFuntions funcs Builtins).2 = None
      <-> forall k, k ∈ funcs.*1 -> Builtins !! k = None)
  /\ ((lamb.LoadLambFuntions funcs Builtins).2 = None ->
      (lamb.LoadLambFuntions funcs Builtins).1 = list_to_map funcs ∪ Builtins).
Proof.
  revert Builtins. induction funcs as [|[k f] funcs IH]; intros Builtins Hnd.
  - cbn. split; [auto|]. split; [|intros _; now rewrite (left_id_L ∅ (∪))].
    split; [intros _ k Hk; inversion Hk|reflexivity].
  - cbn [fmap list_fmap fst] in Hnd. apply NoDup_cons in Hnd as [Hk Hnd].
    cbn [lamb.LoadLambFuntions].
    destruct (Builtins !! k) as [g|] eqn:E.
    + cbn [fst snd]. split; [auto|]. split.
      * split; [discriminate|]. intros H.
        specialize (H k ltac:(cbn; left)). congruence.
      * discriminate.
    + destruct (IH (<[k:=f]> Builtins) Hnd) as (H1 & H2 & H3).
      split; [|split].
      * intros k' f' Hk'. apply H1. rewrite lookup_insert_ne; [exact Hk'|].
        intros ->. congruence.
      * rewrite H2. split.
        -- intros H k' Hk'. cbn in Hk'. apply elem_of_cons in Hk' as [->|Hk'];
             [exact E|].
           specialize (H k' Hk'). rewrite lookup_insert_ne in H; [exact H|].
           intros ->. contradiction.
        -- intros H k' Hk'. rewrite lookup_insert_ne.
           ++ apply H. cbn. now right.
           ++ intros ->. contradiction.
      * intros Hp. rewrite (H3 Hp). cbn [list_to_map foldr uncurry fst snd].
        apply map_eq. intros i.
        destruct (decide (i = k)) as [->|Hi].
        -- rewrite lookup_union_r by (now apply not_elem_of_list_to_map_1).
           rewrite lookup_insert_eq.
           symmetry. apply lookup_union_Some_l, lookup_insert_eq.
        -- rewrite !lookup_union, !lookup_insert_ne by congruence.
           reflexivity.
Qed.

Lemma LoadLambFuntions_adds_witness :
  let Builtins : gmap string nat := {["len" := 0%nat; "type" := 1%nat]} in
  NoDup [("upper", 7%nat)].*1
  /\ lamb.LoadLambFuntions [("upper", 7%nat)] Builtins
     = (<["upper" := 7%nat]> Builtins, None)
  /\ (lamb.LoadLambFuntions [("upper", 7%nat)] Builtins).1 !! "len" = Some 0%nat.
Proof.
  intros Builtins.
  assert (H : NoDup [("upper", 7%nat)].*1)
    by (apply NoDup_singleton).
  split; [exact H|]. split; [reflexivity|].
  exact (proj1 (LoadLambFuntions_adds nat [("upper", 7%nat)] Builtins H)
           "len" 0%nat eq_refl).
Defined.

(** ** Templates without code *)

Section HtmlOnly.

Import lexer.
Local Open Scope nat_scope.

Lemma byte_at_app (pre : string) (c : ascii) (rest : string) :
  byte_at (pre +:+ String c rest) (String.length pre) = c.
Proof.
  unfold byte_at. induction pre as [|a pre IH]; [reflexivity|]. exact IH.
Qed.

Lemma append_snoc (pre : string) (c : ascii) (rest : string) :
  pre +:+ String c rest = (pre +:+ String c EmptyString) +:+ rest.
Proof.
  induction pre as [|a pre IH]; [reflexivity|].
  change (String a (pre +:+ String c rest)
          = String a ((pre +:+ String c EmptyString) +:+ rest)).
  now rewrite IH.
Qed.

Lemma length_snoc (pre : string) (c : ascii) :
  String.length (pre +:+ String c EmptyString) = S (String.length pre).
Proof. rewrite length_append. cbn. lia. Qed.

Lemma readChar_html_state (pre : string) (c d : ascii) (rest : string)
    (pos : Z * Z) :
  readChar (html_state pre c (String d rest) pos)
  = html_state (pre +:+ String c EmptyString) d rest (advance d pos).
Proof.
  unfold readChar, html_state. cbn [input readPosition Line Column inCode].
  rewrite length_append. cbn [String.length].
  destruct (Nat.leb_spec (String.length pre + S (S (String.length rest)))
              (S (String.length pre))); [lia|].
  rewrite (append_snoc pre c (String d rest)).
  rewrite <- (length_snoc pre c), byte_at_app.
  unfold advance.
  destruct (Ascii.eqb d LF); [reflexivity|].
  destruct (Ascii.eqb d TAB); [|reflexivity].
  cbn [fst snd]. f_equal. lia.
Qed.

Lemma readChar_html_end (pre : string) (c : ascii) (pos : Z * Z) :
  readChar (html_state pre c EmptyString pos)
  = end_state (pre +:+ String c EmptyString) (String.length pre) pos.
Proof.
  unfold readChar, html_state, end_state.
  cbn [input readPosition Line Column inCode position].
  rewrite length_append. cbn [String.length].
  destruct (Nat.leb_spec (String.length pre + 1) (S (String.length pre)));
    [|lia].
  f_equal. lia.
Qed.

Lemma NextToken_step (l : Lexer) (r : Token * Lexer) :
  htmlToken l = inl r -> NextToken l = r.
Proof.
  intros H. unfold NextToken. destruct (rounds l); cbn [codeToken];
    unfold tokenStep; now rewrite H.
Qed.

Lemma NextToken_html_state (pre : string) (c : ascii) (rest : string)
    (pos : Z * Z) :
  html_only (String c rest) = true ->
  NextToken (html_state pre c rest pos)
  = (mkToken HTML (string_of_byte c) pos.2 pos.1,
     readChar (html_state pre c rest pos)).
Proof.
  intros H. apply NextToken_step. unfold htmlToken.
  cbn [html_only] in H. apply andb_prop in H as [H _].
  apply andb_prop in H as [Hn Hb].
  cbn [html_state inCode ch negb Line Column]. rewrite Hn. cbn [andb].
  assert (Hp : Ascii.eqb c "{" && Ascii.eqb (peekChar (html_state pre c rest pos)) "?"
               = false).
  { apply negb_true_iff in Hb. destruct (Ascii.eqb c "{"); [|reflexivity].
    cbn [andb] in *. unfold peekChar, html_state. cbn [input readPosition].
    rewrite length_append. cbn [String.length].
    destruct rest as [|d rest].
    - cbn [String.length]. destruct (Nat.leb_spec (String.length pre + 1)
                                       (S (String.length pre))); [reflexivity|lia].
    - cbn [String.length].
      destruct (Nat.leb_spec (String.length pre + S (S (String.length rest)))
                  (S (String.length pre))); [lia|].
      rewrite (append_snoc pre c (String d rest)).
      rewrite <- (length_snoc pre c), byte_at_app. exact Hb. }
  rewrite Hp. reflexivity.
Qed.

Lemma NextToken_end_state (s : string) (p : nat) (pos : Z * Z) :
  NextToken (end_state s p pos)
  = (mkToken EOF EmptyString (if (pos.2 =? 0)%Z then 1%Z else pos.2) pos.1,
     end_state s p pos).
Proof.
  assert (Hh : htmlToken (end_state s p pos) = inr (end_state s p pos))
    by reflexivity.
  assert (Hs : skipWhitespace (end_state s p pos) = end_state s p pos)
    by (unfold skipWhitespace; apply readWhile_stop; reflexivity).
  assert (Hr : readChar (end_state s p pos) = end_state s p pos).
  { unfold readChar, end_state.
    cbn [input readPosition Column Line position inCode].
    rewrite Nat.leb_refl. f_equal.
    destruct (Z.eqb_spec pos.2 0) as [E|E]; [reflexivity|].
    destruct (Z.eqb_spec pos.2 0); [contradiction|reflexivity]. }
  unfold NextToken. destruct (rounds _); cbn [codeToken]; unfold tokenStep;
    rewrite Hh, Hs; change (ch (end_state s p pos)) with "000"%char;
    cbn [Ascii.eqb Bool.eqb andb isLetter isDigit]; rewrite Hr; reflexivity.
Qed.

Lemma tokens_html_state (rest : string) :
  forall pre c pos,
    html_only (String c rest) = true ->
    tokens (S (S (String.length rest))) (html_state pre c rest pos)
    = mkToken HTML (string_of_byte c) pos.2 pos.1 :: html_tokens pos rest
      ++ [let e := position_after pos rest in
          mkToken EOF EmptyString (if (e.2 =? 0)%Z then 1%Z else e.2) e.1].
Proof.
  induction rest as [|d rest IH]; intros pre c pos H.
  - cbn [tokens String.length]. rewrite (NextToken_html_state _ _ _ _ H).
    rewrite readChar_html_end, NextToken_end_state. reflexivity.
  - cbn [String.length]. remember (S (S (String.length rest))) as n.
    cbn [tokens]. rewrite (NextToken_html_state _ _ _ _ H).
    rewrite readChar_html_state. subst n.
    assert (H' : html_only (String d rest) = true)
      by (cbn [html_only] in H; now apply andb_prop in H as [_ H]).
    rewrite (IH _ _ _ H'). reflexivity.
Qed.

Lemma New_html (c : ascii) (rest : string) :
  New (String c rest) = html_state EmptyString c rest (advance c (1%Z, 0%Z)).
Proof.
  unfold New, readChar, html_state, advance. cbn -[Z.add].
  destruct (Ascii.eqb c LF); [reflexivity|].
  destruct (Ascii.eqb c TAB); reflexivity.
Qed.

Lemma New_empty : New EmptyString = end_state EmptyString 0 (1%Z, 0%Z).
Proof. reflexivity. Qed.

(** X23.  A template without code is lexed one byte at a time: each byte
    is an [HTML] token whose literal is Go's [string(byte)] (two bytes of
    UTF-8 for a byte from 128 on) and whose position is the line and
    column after the byte, a newline starting a line at column 0 and a tab
    counting for four columns; after the last byte comes [EOF]. *)
Theorem html_is_lexed_bytewise (s : string) :
  html_only s = true ->
  tokens (S (String.length s)) (New s) = html_tokens (1%Z, 0%Z) s ++ [end_token s].
Proof.
  intros H. destruct s as [|c rest].
  - reflexivity.
  - rewrite New_html. cbn [String.length].
    rewrite (tokens_html_state rest EmptyString c _ H). reflexivity.
Qed.

Lemma parseStatement_html (fuel : nat) (p : parser.Parser) :
  Type_ (parser.curToken p) = HTML ->
  Type_ (parser.peekToken p) = HTML \/ Type_ (parser.peekToken p) = EOF ->
  parser.parseStatement (parser.parseExpression (S (S fuel))) p
  = Ok (html_statement (parser.curToken p), p).
Proof.
  intros Hc Hp. unfold parser.parseStatement. rewrite Hc.
  unfold parser.parseExpressionStatement. cbn [parser.parseExpression].
  rewrite Hc. cbn [parser.prefixParseFns parser.parseHtml obind].
  cbn [parser.infixLoop].
  assert (Hs : parser.peekTokenIs SEMICOLON p = false)
    by (unfold parser.peekTokenIs; apply bool_decide_eq_false_2;
        destruct Hp as [-> | ->]; discriminate).
  assert (Hq : parser.peekPrecedence p = parser.LOWEST)
    by (unfold parser.peekPrecedence; destruct Hp as [-> | ->]; reflexivity).
  rewrite Hs, Hq. cbn [negb andb Z.ltb Z.compare parser.LOWEST Pos.compare
                       Pos.compare_cont obind].
  rewrite Hs. reflexivity.
Qed.

Lemma html_parser_next (pre : string) (c d : ascii) (rest : string)
    (pos : Z * Z) :
  html_only (String c (String d rest)) = true ->
  html_parser pre c (String d rest) pos
  = parser.mkParser
      (readChar (html_state (pre +:+ String c EmptyString) d rest (advance d pos)))
      [] (mkToken HTML (string_of_byte c) pos.2 pos.1)
      (mkToken HTML (string_of_byte d) (advance d pos).2 (advance d pos).1)
  /\ parser.nextToken (html_parser pre c (String d rest) pos)
     = html_parser (pre +:+ String c EmptyString) d rest (advance d pos).
Proof.
  intros H.
  assert (H' : html_only (String d rest) = true)
    by (cbn [html_only] in H; now apply andb_prop in H as [_ H]).
  assert (E : html_parser pre c (String d rest) pos
          = parser.mkParser
              (readChar (html_state (pre +:+ String c EmptyString) d rest
                           (advance d pos)))
              [] (mkToken HTML (string_of_byte c) pos.2 pos.1)
              (mkToken HTML (string_of_byte d) (advance d pos).2
                       (advance d pos).1)).
  { unfold html_parser. rewrite readChar_html_state.
    rewrite (NextToken_html_state _ _ _ _ H'). reflexivity. }
  split; [exact E|]. rewrite E. unfold parser.nextToken, html_parser.
  cbn [parser.l parser.errors parser.peekToken].
  now destruct (NextToken _).
Qed.

Lemma programLoop_html (fuel : nat) (rest : string) :
  forall pre c pos stmts n,
    html_only (String c rest) = true ->
    String.length rest + 2 <= n ->
    exists p',
      parser.programLoop (S (S fuel)) n stmts (html_parser pre c rest pos)
      = Ok (stmts ++ map html_statement
                         (mkToken HTML (string_of_byte c) pos.2 pos.1
                          :: html_tokens pos rest), p')
      /\ parser.errors p' = [].
Proof.
  induction rest as [|d rest IH]; intros pre c pos stmts n H Hn.
  - destruct n as [|[|n]]; try (cbn in Hn; lia).
    assert (E : html_parser pre c EmptyString pos
            = parser.mkParser
                (end_state (pre +:+ String c EmptyString) (String.length pre) pos)
                [] (mkToken HTML (string_of_byte c) pos.2 pos.1)
                (mkToken EOF EmptyString
                   (if (pos.2 =? 0)%Z then 1%Z else pos.2) pos.1)).
    { unfold html_parser. rewrite readChar_html_end, NextToken_end_state.
      reflexivity. }
    rewrite E. cbn [parser.programLoop].
    unfold parser.curTokenIs at 1. cbn [parser.curToken Type_].
    rewrite bool_decide_eq_false_2 by discriminate.
    rewrite parseStatement_html by (cbn; auto). cbn [obind parser.is_nil html_statement].
    unfold parser.nextToken. cbn [parser.l parser.errors parser.peekToken].
    rewrite NextToken_end_state.
    unfold parser.curTokenIs. cbn [parser.curToken Type_].
    rewrite bool_decide_eq_true_2 by reflexivity.
    eexists. split; [reflexivity|reflexivity].
  - destruct n as [|n]; [cbn in Hn; lia|].
    destruct (html_parser_next pre c d rest pos H) as [E Hnext].
    assert (H' : html_only (String d rest) = true)
      by (cbn [html_only] in H; now apply andb_prop in H as [_ H]).
    cbn [parser.programLoop].
    assert (Hc : parser.curTokenIs EOF (html_parser pre c (String d rest) pos)
                 = false)
      by (rewrite E; unfold parser.curTokenIs; cbn;
          now rewrite bool_decide_eq_false_2).
    rewrite Hc.
    rewrite parseStatement_html by (rewrite E; cbn; auto).
    cbn [obind]. rewrite Hnext.
    assert (Hcur : parser.curToken (html_parser pre c (String d rest) pos)
                   = mkToken HTML (string_of_byte c) pos.2 pos.1)
      by reflexivity.
    rewrite Hcur. cbn [parser.is_nil html_statement].
    destruct (IH (pre +:+ String c EmptyString) d (advance d pos)
                (stmts ++ [html_statement (mkToken HTML (string_of_byte c) pos.2 pos.1)])
                n H' ltac:(cbn in Hn; lia)) as (p' & Hp & He).
    exists p'. split; [|exact He].
    unfold html_statement in *. rewrite Hp. cbn [html_tokens map].
    rewrite <- app_assoc. reflexivity.
Qed.

Lemma parser_New_html (c : ascii) (rest : string) :
  html_only (String c rest) = true ->
  parser.New (New (String c rest))
  = html_parser EmptyString c rest (advance c (1%Z, 0%Z)).
Proof.
  intros H. rewrite New_html. unfold parser.New, parser.nextToken at 2.
  cbn [parser.l parser.errors parser.peekToken].
  rewrite (NextToken_html_state _ _ _ _ H).
  unfold parser.nextToken, html_parser.
  cbn [parser.l parser.errors parser.peekToken].
  now destruct (NextToken _).
Qed.

Lemma parse_html (fuel : nat) (s : string) :
  html_only s = true -> String.length s + 2 <= fuel ->
  parser.parse fuel s
  = Ok (ast.Program (map html_statement (html_tokens (1%Z, 0%Z) s)), []).
Proof.
  intros H Hf. destruct fuel as [|[|fuel]]; try lia.
  unfold parser.parse, parser.ParseProgram.
  destruct s as [|c rest].
  - reflexivity.
  - rewrite (parser_New_html _ _ H).
    destruct (programLoop_html fuel rest EmptyString c (advance c (1%Z, 0%Z)) []
                (S (S fuel)) H ltac:(cbn in Hf; lia)) as (p' & Hp & He).
    rewrite Hp. cbn [obind]. unfold parser.Errors. rewrite He. reflexivity.
Qed.

End HtmlOnly.

(** X24.  No template that consists of HTML only renders its text.  The
    parser turns each byte into a statement of its own, a string literal
    whose [Closed] flag is false; evaluating the first of them is an
    error, so whatever the text is, the output is the message [unclosed
    string literal] with the file name and the position of the first
    byte. *)
Theorem html_template_renders_error (w : World) (fuel : nat)
    (fileName : string) (c : ascii) (rest : string) :
  html_only (String c rest) = true ->
  files w (template_path w fileName) = Some (String c rest) ->
  (String.length rest + 3 <= fuel)%nat ->
  parser.parse fuel (String c rest)
  = Ok (ast.Program
          (map html_statement (html_tokens (1, 0) (String c rest))), [])
  /\ render w fuel fileName ∅
     = Ok (internal.mkLoadResult None
             (template_path w fileName +:+ ": "
              +:+ fmt_d (advance c (1, 0)).1 +:+ ": "
              +:+ fmt_d (advance c (1, 0)).2 +:+ ": unclosed string literal")
             ∅ ∅).
Proof.
  intros H Hf Hfuel.
  assert (Hp := parse_html fuel (String c rest) H ltac:(cbn; lia)).
  split; [exact Hp|].
  unfold render. rewrite (LoadFile_plain _ _ _ _ _ _ _ _ Hf Hp).
  destruct fuel as [|[|[|fuel]]]; try lia.
  reflexivity.
Qed.

Lemma html_template_renders_error_witness :
  let w := plain_host [("about.lamb.html", "<p>About us</p>")] in
  html_only "<p>About us</p>" = true
  /\ files w (template_path w "about") = Some "<p>About us</p>"
  /\ (String.length "p>About us</p>" + 3 <= 17)%nat
  /\ render w 17 "about" ∅
     = Ok (internal.mkLoadResult None
             "about.lamb.html: 1: 1: unclosed string literal" ∅ ∅).
Proof.
  intros w.
  assert (H1 : html_only "<p>About us</p>" = true) by reflexivity.
  assert (H2 : files w (template_path w "about") = Some "<p>About us</p>")
    by reflexivity.
  assert (H3 : (String.length "p>About us</p>" + 3 <= 17)%nat) by (cbn; lia).
  split; [exact H1|]. split; [exact H2|]. split; [exact H3|].
  exact (proj2 (html_template_renders_error w 17 "about" "<" "p>About us</p>"
                  H1 H2 H3)).
Defined.

(** ** Lines *)

Section LexerInvariant.

Import lexer.
Local Open Scope nat_scope.

(** A property of the lexer that [readChar] and the switch between HTML
    and code keep is kept by [NextToken]: the lexer changes its state by
    these two only. *)
Variable P : Lexer -> Prop.
Hypothesis P_readChar : forall l, P l -> P (readChar l).
Hypothesis P_set_inCode : forall b l, P l -> P (set_inCode b l).

Lemma readWhile_inv (cond : ascii -> bool) (n : nat) (l : Lexer) :
  P l -> P (readWhile n cond l).
Proof.
  revert l. induction n as [|n IH]; intros l H; cbn [readWhile]; [assumption|].
  destruct (cond (ch l)); auto.
Qed.

Lemma readUntil_inv (c : ascii) (n : nat) (l : Lexer) :
  P l -> P (readUntil n c l).
Proof.
  revert l. induction n as [|n IH]; intros l H; cbn [readUntil]; [assumption|].
  destruct (_ || _); auto.
Qed.

Lemma commentLoop_inv (n : nat) (l : Lexer) : P l -> P (commentLoop n l).
Proof.
  revert l. induction n as [|n IH]; intros l H; cbn [commentLoop]; [assumption|].
  destruct (_ || _); auto.
Qed.

Lemma if_inv (c : bool) (a b : Token * Lexer) :
  (c = true -> P a.2) -> (c = false -> P b.2) -> P (if c then a else b).2.
Proof. destruct c; auto. Qed.

Lemma tokenStep_inv (again : Lexer -> Token * Lexer) (l : Lexer) :
  (forall l', P l' -> P (again l').2) -> P l -> P (tokenStep again l).2.
Proof.
  intros Hagain H. unfold tokenStep, htmlToken.
  destruct (negb (inCode l) && negb (Ascii.eqb (ch l) NUL)).
  1: destruct (Ascii.eqb (ch l) "{" && Ascii.eqb (peekChar l) "?").
  2: { cbn [snd]. auto. }
  all: match goal with
       | |- context [skipWhitespace ?x] =>
           assert (H1 : P (skipWhitespace x))
             by (apply readWhile_inv; auto);
           generalize dependent (skipWhitespace x)
       end; intros l1 H1; cbv zeta;
    unfold readString, readIdentifier, readNumber, readComment;
    repeat (apply if_inv; intros ?); cbn [snd];
    auto using readWhile_inv, readUntil_inv, commentLoop_inv.
Qed.

Lemma NextToken_inv (l : Lexer) : P l -> P (NextToken l).2.
Proof.
  unfold NextToken. generalize (rounds l). intros n. revert l.
  induction n as [|n IH]; intros l H; cbn [codeToken]; apply tokenStep_inv;
    auto.
Qed.

Lemma lexer_after_inv (k : nat) (l : Lexer) : P l -> P (lexer_after k l).
Proof.
  revert l. induction k as [|k IH]; intros l H; cbn [lexer_after]; [assumption|].
  apply IH, NextToken_inv, H.
Qed.

End LexerInvariant.

Lemma newlines_S (s : string) (n : nat) :
  (n < String.length s)%nat ->
  newlines s (S n)
  = newlines s n + (if Ascii.eqb (byte_at s n) LF then 1 else 0).
Proof.
  revert n. induction s as [|c s IH]; intros n Hn; [cbn in Hn; lia|].
  destruct n as [|n].
  - cbn [newlines]. unfold byte_at. cbn [String.get].
    destruct s; cbn [newlines]; lia.
  - cbn [String.length] in Hn.
    change (newlines (String c s) (S (S n)))
      with ((if Ascii.eqb c LF then 1 else 0) + newlines s (S n)).
    rewrite (IH n ltac:(lia)).
    change (newlines (String c s) (S n))
      with ((if Ascii.eqb c LF then 1 else 0) + newlines s n).
    change (byte_at (String c s) (S n)) with (byte_at s n). lia.
Qed.

(** X25.  The lexer's line counter is one more than the number of
    newlines among the bytes it has read: this holds when the lexer is
    created and after every token, in HTML and in code, through strings,
    comments and white space.  The input is never changed and the read
    position never passes its end. *)
Theorem line_counts_newlines (s : string) (k : nat) :
  let l := lexer_after k (lexer.New s) in
  lexer.input l = s
  /\ lexer.Line l = 1 + newlines s (lexer.readPosition l)
  /\ (lexer.readPosition l <= String.length s)%nat.
Proof.
  cbn zeta.
  apply (lexer_after_inv
           (fun l => lexer.input l = s
                     /\ lexer.Line l = 1 + newlines s (lexer.readPosition l)
                     /\ (lexer.readPosition l <= String.length s)%nat)).
  - intros l (Hi & Hl & Hr). unfold lexer.readChar. rewrite Hi.
    destruct (Nat.leb_spec (String.length s) (lexer.readPosition l)) as [He|He].
    + cbn. auto.
    + assert (Hn := newlines_S s _ He).
      destruct (Ascii.eqb (byte_at s (lexer.readPosition l)) LF) eqn:E;
        [|destruct (Ascii.eqb _ TAB)];
        cbn [lexer.input lexer.Line lexer.readPosition];
        (split; [reflexivity|]); (split; [lia|lia]).
  - intros b l H. exact H.
  - assert (H0 : newlines s 0 = 0) by (destruct s; reflexivity).
    unfold lexer.New, lexer.readChar. cbn [lexer.input lexer.readPosition].
    destruct (Nat.leb_spec (String.length s) 0) as [He|He].
    + cbn [lexer.input lexer.Line lexer.readPosition]. rewrite H0.
      split; [reflexivity|]. split; [reflexivity|lia].
    + assert (Hn := newlines_S s 0 He). rewrite H0 in Hn.
      destruct (Ascii.eqb (byte_at s 0) LF) eqn:E;
        [|destruct (Ascii.eqb _ TAB)];
        cbn [lexer.input lexer.Line lexer.readPosition];
        (split; [reflexivity|]); (split; [lia|lia]).
Qed.

(** ** The end of the token stream *)

Section TokenStream.

Import lexer.
Local Open Scope nat_scope.

Lemma pending_readChar (l : Lexer) :
  pending (readChar l) <= pending l
  /\ (ch l <> NUL -> pending (readChar l) < pending l).
Proof.
  unfold pending. rewrite readChar_unread.
  destruct (Nat.leb_spec (String.length (input l)) (readPosition l)) as [He|He].
  - rewrite (readChar_eof _ He). cbn. split; [lia|].
    intros Hc. destruct (Ascii.eqb_spec (ch l) NUL); [contradiction|lia].
  - assert (0 < unread l) by (unfold unread; lia).
    split; [|intros Hc; destruct (Ascii.eqb_spec (ch l) NUL); [contradiction|]];
      destruct (Ascii.eqb (ch (readChar l)) NUL); destruct (Ascii.eqb (ch l) NUL);
      lia.
Qed.

Lemma pending_le_readChar (m : nat) (l : Lexer) :
  pending l <= m -> pending (readChar l) <= m.
Proof. pose proof (proj1 (pending_readChar l)). lia. Qed.

Lemma pending_le_set_inCode (m : nat) (b : bool) (l : Lexer) :
  pending l <= m -> pending (set_inCode b l) <= m.
Proof. intros H. exact H. Qed.

Lemma pending_lt_readChar (l : Lexer) (m : nat) :
  ch l <> NUL -> pending l <= S m -> pending (readChar l) <= m.
Proof. intros Hc. pose proof (proj2 (pending_readChar l) Hc). lia. Qed.

Lemma if_advances (m : nat) (c : bool) (a b : Token * Lexer) :
  (c = true -> advances m a) -> (c = false -> advances m b) ->
  advances m (if c then a else b).
Proof. destruct c; auto. Qed.

Lemma eqb_not_NUL (c x : ascii) :
  Ascii.eqb c x = true -> x <> NUL -> c <> NUL.
Proof. intros H Hx. apply Ascii.eqb_eq in H. congruence. Qed.

Lemma readWhile_advances (cond : ascii -> bool) (n : nat) (l : Lexer) (m : nat) :
  cond (ch l) = true -> ch l <> NUL -> pending l <= S m ->
  pending (readWhile (S n) cond l) <= m.
Proof.
  intros Hc Hn Hm. cbn [readWhile]. rewrite Hc.
  apply (readWhile_inv (fun l' => pending l' <= m)).
  - apply pending_le_readChar.
  - now apply pending_lt_readChar.
Qed.

Lemma readUntil_advances (q : ascii) (n : nat) (l : Lexer) (m : nat) :
  ch l <> NUL -> pending l <= S m -> pending (readUntil (S n) q l) <= m.
Proof.
  intros Hn Hm. cbn [readUntil].
  assert (H1 : pending (readChar l) <= m) by now apply pending_lt_readChar.
  destruct (_ || _); [exact H1|].
  apply (readUntil_inv (fun l' => pending l' <= m)); [|exact H1].
  apply pending_le_readChar.
Qed.

Lemma rounds_S (l : Lexer) : exists n, rounds l = S n.
Proof. unfold rounds. exists (String.length (input l) + 1). lia. Qed.

Lemma isLetter_not_NUL (c : ascii) : isLetter c = true -> c <> NUL.
Proof. intros H ->. discriminate H. Qed.

Lemma isDigit_not_NUL (c : ascii) : isDigit c = true -> c <> NUL.
Proof. intros H ->. discriminate H. Qed.

Local Ltac non_nul :=
  match goal with
  | H : Ascii.eqb (ch _) ?x = true |- _ <> NUL =>
      apply (eqb_not_NUL _ _ H); discriminate
  | H : Ascii.eqb (ch _) NUL = false |- _ <> NUL =>
      now apply Ascii.eqb_neq
  | H : isLetter (ch _) = true |- _ <> NUL =>
      now apply isLetter_not_NUL
  | H : isDigit (ch _) = true |- _ <> NUL =>
      now apply isDigit_not_NUL
  | H : Ascii.eqb (ch _) ?x && _ = true |- _ <> NUL =>
      let H' := fresh in
      pose proof (proj1 (andb_prop _ _ H)) as H';
      apply (eqb_not_NUL _ _ H'); discriminate
  end.

Lemma tokenStep_advances (again : Lexer -> Token * Lexer) (l : Lexer) (n : nat) :
  (forall l', unread l' < n \/ ch l' = NUL ->
              advances (S (pending l')) (again l')) ->
  unread l < S n ->
  advances (pending l) (tokenStep again l).
Proof.
  intros Hagain Hu. unfold tokenStep.
  destruct (htmlToken l) as [r|l0] eqn:Hh.
  - (* a byte of HTML *)
    unfold htmlToken in Hh. revert Hh.
    destruct (negb (inCode l) && negb (Ascii.eqb (ch l) NUL)) eqn:Hc;
      [|discriminate].
    destruct (Ascii.eqb (ch l) "{" && Ascii.eqb (peekChar l) "?");
      [discriminate|].
    intros [= <-].
    right. cbn [snd]. apply andb_prop in Hc as [_ Hc].
    apply negb_true_iff, Ascii.eqb_neq in Hc.
    now apply pending_readChar.
  - assert (H0 : pending l0 <= pending l /\ unread l0 <= unread l).
    { split; [|apply (htmlToken_unread _ _ Hh)].
      unfold htmlToken in Hh. revert Hh.
      destruct (negb (inCode l) && negb (Ascii.eqb (ch l) NUL));
        [|intros [= <-]; lia].
      destruct (Ascii.eqb (ch l) "{" && Ascii.eqb (peekChar l) "?");
        [|discriminate].
      intros [= <-].
      now apply pending_le_readChar, pending_le_readChar. }
    destruct H0 as [H0 Hu0].
    assert (H1 : pending (skipWhitespace l0) <= pending l)
      by (apply (readWhile_inv (fun l' => pending l' <= pending l));
          auto using pending_le_readChar).
    assert (Hu1 : unread (skipWhitespace l0) <= unread l)
      by (pose proof (proj1 (readWhile_unread isSpace (rounds l0) l0)); 
          unfold skipWhitespace; lia).
    generalize dependent (skipWhitespace l0). intros l1 H1 Hu1.
    destruct (pending l) as [|m] eqn:Em.
    { (* nothing pending: the current byte is NUL *)
      assert (Hc : ch l1 = NUL).
      { unfold pending in H1.
        destruct (Ascii.eqb_spec (ch l1) NUL); [assumption|lia]. }
      rewrite Hc. left. reflexivity. }
    assert (Hstep : forall x, ch l1 = x -> x <> NUL ->
              pending (readChar l1) <= m)
      by (intros x Hx Hn; apply pending_lt_readChar; [congruence|assumption]).
    destruct (rounds_S l1) as [n1 Hr].
    cbv zeta. unfold readString, readIdentifier, readNumber. rewrite Hr.
    repeat (apply if_advances; intros ?).
    all: try (left; reflexivity).
    all: try (right; cbn [snd]; apply Nat.lt_succ_r;
              first
                [ apply pending_lt_readChar; [non_nul|assumption]
                | apply pending_le_readChar, pending_lt_readChar;
                  [cbn [set_inCode ch]; non_nul|assumption]
                | apply pending_le_readChar, readUntil_advances;
                  [non_nul|assumption]
                | apply readWhile_advances; [assumption|non_nul|assumption] ];
              fail).
    (* a comment: [NextToken] goes on behind it *)
    assert (Hc : ch l1 <> NUL) by non_nul.
    assert (Hp : pending (readComment l1) <= m).
    { unfold readComment.
      apply (commentLoop_inv (fun l' => pending l' <= m));
        [apply pending_le_readChar|].
      now apply pending_lt_readChar. }
    assert (Ha : unread (readComment l1) < n \/ ch (readComment l1) = NUL).
    { unfold readComment.
      destruct (Nat.leb_spec (String.length (input l1)) (readPosition l1))
        as [He|He].
      - right. rewrite Hr. apply commentLoop_eof.
        + rewrite readChar_input, readChar_readPosition.
          destruct (Nat.leb_spec (String.length (input l1)) (readPosition l1));
            lia.
        + now apply readChar_eof.
      - left. pose proof (commentLoop_unread (rounds l1) (readChar l1)) as Hl.
        rewrite readChar_unread in Hl.
        destruct (Nat.leb_spec (String.length (input l1)) (readPosition l1));
          unfold unread in *; lia. }
    destruct (Hagain _ Ha) as [He|He]; [left; exact He|right; lia].
Qed.

Lemma codeToken_nul_EOF (k : nat) (l : Lexer) :
  ch l = NUL -> Type_ (codeToken k l).1 = EOF.
Proof.
  intros Hc. rewrite (codeToken_nul l k 0 Hc). cbn [codeToken].
  unfold tokenStep, htmlToken. rewrite Hc.
  rewrite andb_false_r. unfold skipWhitespace.
  rewrite readWhile_stop by (now rewrite Hc). rewrite Hc. reflexivity.
Qed.

Lemma codeToken_advances (n : nat) :
  forall l, unread l < n \/ ch l = NUL ->
            advances (S (pending l)) (codeToken n l).
Proof.
  induction n as [|n IH]; intros l [Hu|Hc];
    try (left; now apply codeToken_nul_EOF); try lia.
  cbn [codeToken].
  destruct (tokenStep_advances (codeToken n) l n IH Hu) as [He|He];
    [left; exact He|right; lia].
Qed.

Lemma NextToken_advances (l : Lexer) :
  Type_ (NextToken l).1 = EOF \/ pending (NextToken l).2 < pending l.
Proof.
  unfold NextToken.
  assert (Hu : unread l < rounds l) by (unfold unread, rounds; lia).
  unfold rounds in *.
  destruct (String.length (input l) + 2) as [|n] eqn:En; [lia|].
  cbn [codeToken].
  apply (tokenStep_advances (codeToken n) l n); [|exact Hu].
  apply codeToken_advances.
Qed.

Lemma tokens_reach_EOF_from (n : nat) :
  forall l, pending l <= n ->
            Exists (fun tok => Type_ tok = EOF) (tokens (S n) l).
Proof.
  induction n as [|n IH]; intros l Hn; cbn [tokens];
    destruct (NextToken l) as [t l'] eqn:E;
    destruct (NextToken_advances l) as [He|He]; rewrite E in He; cbn [fst snd] in He.
  - now constructor.
  - lia.
  - now constructor.
  - apply Exists_cons_tl. change (Exists (fun tok => Type_ tok = EOF) (tokens (S n) l')).
    apply IH. lia.
Qed.

(** X26.  Every input is turned into tokens that end: among the first
    [len + 1] tokens of an input of [len] bytes there is an [EOF] token.
    Each call of [NextToken] returns [EOF] or uses up at least one byte
    of what is left, white space and comments included. *)
Theorem tokens_reach_EOF (s : string) :
  Exists (fun tok => Type_ tok = EOF) (tokens (S (String.length s)) (New s))
  /\ forall l, Type_ (NextToken l).1 = EOF
               \/ pending (NextToken l).2 < pending l.
Proof.
  split; [|apply NextToken_advances].
  apply tokens_reach_EOF_from.
  unfold New. set (l0 := mkLexer s 0 0 1 0 NUL false).
  unfold pending. rewrite readChar_unread.
  change (input l0) with s. change (readPosition l0) with 0.
  destruct (Nat.leb_spec (String.length s) 0) as [He|He].
  - rewrite readChar_eof by (cbn; lia). cbn. lia.
  - unfold unread. cbn [input readPosition l0].
    destruct (Ascii.eqb _ NUL); lia.
Qed.

End TokenStream.

(** ** Names in composition statements *)

Section Names.

Import lexer.

Lemma NextToken_ok (l : Lexer) : lexer_ok l -> token_ok (NextToken l).
Proof. apply codeToken_ok. Qed.

Lemma expectPeek_LPAREN_STRING (p p1 p2 : parser.Parser) :
  lexer_ok (parser.l p) ->
  parser.expectPeek LPAREN p = (true, p1) ->
  parser.expectPeek STRING p1 = (true, p2) ->
  quoted (Literal (parser.curToken p2)) = true.
Proof.
  intros Hok. unfold parser.expectPeek.
  destruct (parser.peekTokenIs LPAREN p); [|discriminate]. intros [= <-].
  destruct (parser.peekTokenIs STRING (parser.nextToken p)) eqn:Hs;
    [|discriminate].
  intros [= <-]. unfold parser.peekTokenIs in Hs.
  apply bool_decide_eq_true in Hs.
  unfold parser.nextToken in *.
  destruct (NextToken_ok _ Hok) as [_ Hq].
  destruct (NextToken (parser.l p)) as [t l'].
  cbn [parser.l parser.peekToken parser.curToken fst snd] in *.
  destruct (NextToken l') as [t' l''].
  cbn [parser.curToken parser.peekToken]. auto.
Qed.

Lemma quoted_ReplaceAll (s : string) :
  quoted s = true -> quoted (internal.ReplaceAll s "." "/") = true.
Proof.
  destruct s as [|c s]; [discriminate|]. cbn [quoted internal.ReplaceAll].
  intros H. destruct (Ascii.eqb_spec c "."); [subst; discriminate H|exact H].
Qed.

Local Ltac expect ok p' E :=
  match goal with
  | |- context [parser.expectPeek ?t ?p] =>
      destruct (parser.expectPeek t p) as [ok p'] eqn:E;
      destruct ok; cbn [negb]; [|intros [= <-]; discriminate]
  end.

(** X27.  The name of a composition statement is the literal of its
    string token, quotes included: the parent that [extends('p')] names,
    the file of [include], the names of [section] and [define] all start
    with a quote, and so does the path that the loader derives from such
    a name behind the base directory.  (The parser reads the lexer through
    [NextToken] only, which keeps the lexer's invariant.) *)
Theorem names_keep_quotes (p : parser.Parser) :
  lexer_ok (parser.l p) ->
  (forall (pe : Z -> parser.Parser -> parser.PResult) (rounds : nat)
          (n : ast.Node) (p' : parser.Parser) (x : string),
      parser.parseExtendsExpression p = Ok (n, p')
      \/ parser.parseIncludeExpression pe p = Ok (n, p')
      \/ parser.parseSectionExpression pe rounds p = Ok (n, p')
      \/ parser.parseDefineExpression pe rounds p = Ok (n, p') ->
      name_of n = Some x ->
      quoted x = true /\ quoted (internal.ReplaceAll x "." "/") = true)
  /\ lexer_ok (parser.l (parser.nextToken p))
  /\ forall s, lexer_ok (parser.l (parser.New (lexer.New s))).
Proof.
  intros Hok. split; [|split].
  - intros pe rounds n p' x H Hn.
    assert (Hq : quoted x = true); [|split; [exact Hq|now apply quoted_ReplaceAll]].
    revert Hn. destruct H as [H|[H|[H|H]]]; revert H.
    + unfold parser.parseExtendsExpression.
      expect ok1 p1 E1. expect ok2 p2 E2.
      pose proof (expectPeek_LPAREN_STRING _ _ _ Hok E1 E2) as Hq.
      expect ok3 p3 E3. expect ok4 p4 E4.
      intros [= <- _] [= <-]. exact Hq.
    + unfold parser.parseIncludeExpression.
      expect ok1 p1 E1. expect ok2 p2 E2.
      pose proof (expectPeek_LPAREN_STRING _ _ _ Hok E1 E2) as Hq.
      destruct (if parser.peekTokenIs COMMA p2 then _ else _) as [[vars p3]| |];
        cbn [obind]; try discriminate.
      expect ok3 p4 E3.
      intros [= <- _] [= <-]. exact Hq.
    + unfold parser.parseSectionExpression.
      expect ok1 p1 E1. expect ok2 p2 E2.
      pose proof (expectPeek_LPAREN_STRING _ _ _ Hok E1 E2) as Hq.
      expect ok3 p3 E3. expect ok4 p4 E4.
      destruct (parser.parseBlockStatement _ _ _ _) as [[b p5]| |];
        cbn [obind]; try discriminate.
      intros [= <- _] [= <-]. exact Hq.
    + unfold parser.parseDefineExpression.
      expect ok1 p1 E1. expect ok2 p2 E2.
      pose proof (expectPeek_LPAREN_STRING _ _ _ Hok E1 E2) as Hq.
      expect ok3 p3 E3. expect ok4 p4 E4.
      destruct (parser.parseBlockStatement _ _ _ _) as [[b p5]| |];
        cbn [obind]; try discriminate.
      intros [= <- _] [= <-]. exact Hq.
  - unfold parser.nextToken. destruct (NextToken_ok _ Hok) as [H _].
    now destruct (NextToken (parser.l p)).
  - intros s. unfold parser.New, parser.nextToken.
    cbn [parser.l parser.errors parser.peekToken].
    destruct (NextToken_ok _ (lexer_ok_New s)) as [H _].
    destruct (NextToken (New s)) as [t l']. cbn [snd] in H.
    cbn [parser.l]. destruct (NextToken_ok _ H) as [H' _].
    now destruct (NextToken l').
Qed.

Lemma names_keep_quotes_witness :
  let p := parser.New (lexer.New "{? extends('base.page') ?}") in
  lexer_ok (parser.l p)
  /\ exists tok p',
       parser.parseExtendsExpression p
         = Ok (ast.ExtendsStatement tok "'base.page'", p')
       /\ quoted (internal.ReplaceAll "'base.page'" "." "/") = true.
Proof.
  intros p.
  assert (Hok : lexer_ok (parser.l p)).
  { split; [vm_compute; lia|]. intros _. vm_compute. reflexivity. }
  split; [exact Hok|].
  eexists _, _.
  assert (H : parser.parseExtendsExpression p
              = Ok (ast.ExtendsStatement (mkToken EXTENDS "extends" 4 1)
                      "'base.page'",
                    parser.nextToken (parser.nextToken (parser.nextToken
                      (parser.nextToken p)))))
    by (vm_compute; reflexivity).
  split; [exact H|].
  exact (proj2 (proj1 (names_keep_quotes p Hok)
                  (fun _ q => Ok (ast.NilNode, q)) 0%nat _ _ "'base.page'"
                  (or_introl H) eq_refl)).
Defined.

End Names.

Lemma html_literals_pass_through_witness :
  let w := plain_host [] in
  let lits := [(at_ 1 1, "<b>"); (at_ 1 4, "hi"); (at_ 1 6, "</b>")] in
  InExtends NewEnvironment = false
  /\ Eval_ w 3
           (ast.Program
              (map (fun '(tok, s) =>
                      ast.ExpressionStatement tok (ast.HtmlLiteral tok s)) lits))
           NewEnvironment
     = Ok (VString "<b>hi</b>", NewEnvironment).
Proof.
  intros w lits. split; [reflexivity|].
  exact (html_literals_pass_through w 0 lits NewEnvironment eq_refl).
Defined.

Lemma html_is_lexed_bytewise_witness :
  let s := String "a" (String LF (String "b" EmptyString)) in
  html_only s = true
  /\ lexer.tokens 4 (lexer.New s)
     = [mkToken HTML "a" 1 1; mkToken HTML (str1 LF) 0 2; mkToken HTML "b" 1 2;
        mkToken EOF EmptyString 1 2].
Proof.
  intros s. split; [reflexivity|].
  exact (html_is_lexed_bytewise s eq_refl).
Defined.
